(** * cse-kms-go: key/path mapping and transfer loop of [main.go]

    A shallow embedding of [main.go] (the S3 client-side-encryption
    download/upload tool) together with the parts of Go's [strings] and
    [path/filepath] packages that the program calls.

    Go strings are byte sequences: they are [string] at the interface and
    [list ascii] inside the lexical path functions. *)

From Stdlib Require Import Ascii String List Bool Arith Lia.
From stdpp Require Import gmap strings list.

Local Open Scope string_scope.
Local Open Scope list_scope.

(** ** Byte sequences *)

Definition unstr (s : string) : list ascii := list_ascii_of_string s.
Definition str (l : list ascii) : string := string_of_list_ascii l.

Definition eqbL (a b : list ascii) : bool := bool_decide (a = b).

(** Longest prefix of [l] whose elements satisfy [p], and the rest. *)
Fixpoint span (p : ascii -> bool) (l : list ascii) : list ascii * list ascii :=
  match l with
  | [] => ([], [])
  | c :: l' =>
      if p c then let '(a, b) := span p l' in (c :: a, b) else ([], l)
  end.

(** ** Package [strings] *)

Module GoStrings.

Fixpoint hasPrefixL (s p : list ascii) {struct p} : bool :=
  match p, s with
  | [], _ => true
  | _ :: _, [] => false
  | c :: p', d :: s' => Ascii.eqb c d && hasPrefixL s' p'
  end.

(** [strings.HasPrefix] *)
Definition HasPrefix (s prefix : string) : bool :=
  hasPrefixL (unstr s) (unstr prefix).

(** [strings.HasSuffix] *)
Definition HasSuffix (s suffix : string) : bool :=
  hasPrefixL (rev (unstr s)) (rev (unstr suffix)).

(** [strings.TrimPrefix]: [s] without the leading [prefix]; [s] itself
    when it does not start with [prefix]. *)
Definition TrimPrefix (s prefix : string) : string :=
  if HasPrefix s prefix
  then str (drop (length (unstr prefix)) (unstr s))
  else s.

(** [strings.Join] on byte lists. *)
Fixpoint joinL (sep : list ascii) (elems : list (list ascii)) : list ascii :=
  match elems with
  | [] => []
  | [e] => e
  | e :: rest => e ++ sep ++ joinL sep rest
  end.

End GoStrings.

(** ** Package [path/filepath]

    The functions are purely lexical.  They are parameterised by the host
    convention: on [Unix] the separator is [/]; on [Windows] the separator
    is [\] and [/] is accepted as a separator too.  On [Unix] the
    definitions are the library's.  On [Windows] they are the library's
    for paths without a volume name: a drive letter, a UNC share or a
    device prefix at the start of a path is not recognised, and letters
    are compared without case for ASCII only.  [portable] below is the
    condition under which the theorems that compute with these functions
    are stated on [Windows]; a portable path has no volume name. *)

Inductive GOOS := Unix | Windows.

Module Filepath.

Definition Separator (os : GOOS) : ascii :=
  match os with Unix => "/"%char | Windows => "\"%char end.

(** [os.IsPathSeparator] *)
Definition IsPathSeparator (os : GOOS) (c : ascii) : bool :=
  match os with
  | Unix => Ascii.eqb c "/"
  | Windows => Ascii.eqb c "\" || Ascii.eqb c "/"
  end.

Definition dot : list ascii := ["."%char].
Definition dotdot : list ascii := ["."%char; "."%char].

(** The path elements of [s]: the maximal non-empty runs of bytes that are
    not path separators.  [cur] is the element being read, reversed. *)
Fixpoint fields (os : GOOS) (s cur : list ascii) : list (list ascii) :=
  match s with
  | [] => match cur with [] => [] | _ => [rev cur] end
  | c :: s' =>
      if IsPathSeparator os c
      then match cur with
           | [] => fields os s' []
           | _ => rev cur :: fields os s' []
           end
      else fields os s' (c :: cur)
  end.

(** One element read by [Clean]; [out] is the output so far, last element
    first.  A [.] element is dropped; a [..] element removes the element
    before it when that is a real element, is kept when the path is not
    rooted, and is dropped at the root; any other element is kept. *)
Definition cleanStep (rooted : bool) (out : list (list ascii))
    (e : list ascii) : list (list ascii) :=
  if eqbL e dot then out
  else if eqbL e dotdot then
    match out with
    | top :: out' =>
        if eqbL top dotdot then e :: out else out'
    | [] => if rooted then [] else [e]
    end
  else e :: out.

Definition isRooted (os : GOOS) (s : list ascii) : bool :=
  match s with
  | c :: _ => IsPathSeparator os c
  | [] => false
  end.

Definition cleanOut (os : GOOS) (s : list ascii) : list (list ascii) :=
  fold_left (cleanStep (isRooted os s)) (fields os s []) [].

Definition render (os : GOOS) (rooted : bool) (out : list (list ascii))
    : list ascii :=
  if rooted then Separator os :: GoStrings.joinL [Separator os] (rev out)
  else match out with
       | [] => dot
       | _ => GoStrings.joinL [Separator os] (rev out)
       end.

Definition cleanL (os : GOOS) (s : list ascii) : list ascii :=
  render os (isRooted os s) (cleanOut os s).

(** [filepath.Clean]: the shortest path name equivalent to [path] by
    purely lexical processing. *)
Definition Clean (os : GOOS) (path : string) : string :=
  str (cleanL os (unstr path)).

(** [filepath.Join]: leading empty elements are ignored, the remaining
    ones are joined with the separator and the result is cleaned; the
    result is empty when every element is empty.  (On [Windows] the
    library avoids doubling a separator between elements and treats
    volume and device forms apart; for paths without those forms the
    cleaned result is the same.) *)
Fixpoint joinRaw (os : GOOS) (elem : list string) : option (list ascii) :=
  match elem with
  | [] => None
  | e :: rest =>
      match unstr e with
      | [] => joinRaw os rest
      | _ => Some (GoStrings.joinL [Separator os] (map unstr elem))
      end
  end.

Definition Join (os : GOOS) (elem : list string) : string :=
  match joinRaw os elem with
  | None => EmptyString
  | Some raw => str (cleanL os raw)
  end.

(** [filepath.Base]: the last element of [path], after removing trailing
    separators; [.] for the empty path, a single separator for a path of
    separators only. *)
Definition baseL (os : GOOS) (path : list ascii) : list ascii :=
  match path with
  | [] => dot
  | _ =>
      let stripped := snd (span (IsPathSeparator os) (rev path)) in
      let last := fst (span (fun c => negb (IsPathSeparator os c)) stripped) in
      match last with
      | [] => [Separator os]
      | _ => rev last
      end
  end.

Definition Base (os : GOOS) (path : string) : string :=
  str (baseL os (unstr path)).

(** [filepath.Dir]: all but the last element of [path], cleaned. *)
Definition Dir (os : GOOS) (path : string) : string :=
  let upto :=
    rev (snd (span (fun c => negb (IsPathSeparator os c)) (rev (unstr path)))) in
  str (cleanL os upto).

(** [filepath.ToSlash]: every separator replaced by a slash; the identity
    when the separator is the slash. *)
Definition toSlashL (os : GOOS) (path : list ascii) : list ascii :=
  if Ascii.eqb (Separator os) "/" then path
  else map (fun c => if Ascii.eqb c (Separator os) then "/"%char else c) path.

Definition ToSlash (os : GOOS) (path : string) : string :=
  str (toSlashL os (unstr path)).

(** Upper-case ASCII letters folded to lower case. *)
Definition lower (c : ascii) : ascii :=
  let n := nat_of_ascii c in
  if Nat.leb 65 n && Nat.leb n 90 then ascii_of_nat (n + 32) else c.

(** [sameWord]: equality on [Unix], equality up to the case of ASCII
    letters on [Windows]. *)
Definition sameWord (os : GOOS) (a b : list ascii) : bool :=
  match os with
  | Unix => eqbL a b
  | Windows => eqbL (map lower a) (map lower b)
  end.

Definition notSep (os : GOOS) (c : ascii) : bool :=
  negb (Ascii.eqb c (Separator os)).

(** The loop of [Rel] that positions both paths at their first differing
    elements.  The arguments are [base[b0:]] and [targ[t0:]]; the result is
    [(base[b0:bi], base[b0:], targ[t0:])] at the exit of the loop. *)
Fixpoint relLoop (os : GOOS) (fuel : nat) (b t : list ascii)
    : list ascii * list ascii * list ascii :=
  match fuel with
  | 0 => ([], b, t)
  | S fuel' =>
      match b, t with
      | [], _ | _, [] => ([], b, t)
      | _, _ =>
          let '(bw, b') := span (notSep os) b in
          let '(tw, t') := span (notSep os) t in
          if sameWord os tw bw
          then relLoop os fuel' (tail b') (tail t')
          else (bw, b, t)
      end
  end.

Definition relErr (basepath targpath : string) : string :=
  "Rel: can't make " +:+ targpath +:+ " relative to " +:+ basepath.

Definition startsWithSep (os : GOOS) (s : list ascii) : bool :=
  match s with
  | c :: _ => Ascii.eqb c (Separator os)
  | [] => false
  end.

(** [filepath.Rel]: a relative path that is lexically equivalent to
    [targpath] when joined to [basepath]; an error message when
    [targpath] cannot be made relative to [basepath]. *)
Definition Rel (os : GOOS) (basepath targpath : string) : string + string :=
  let base := cleanL os (unstr basepath) in
  let targ := cleanL os (unstr targpath) in
  if sameWord os targ base then inr "."
  else
    let base := if eqbL base dot then [] else base in
    if negb (eqb (startsWithSep os base) (startsWithSep os targ))
    then inl (relErr basepath targpath)
    else
      let '(bw, brest, trest) := relLoop os (S (length base)) base targ in
      if eqbL bw dotdot then inl (relErr basepath targpath)
      else
        match brest with
        | [] => inr (str trest)
        | _ =>
            let seps := length (filter (fun c => Ascii.eqb c (Separator os)) brest) in
            let ups := dotdot ++ concat (repeat (Separator os :: dotdot) seps) in
            match trest with
            | [] => inr (str ups)
            | _ => inr (str (ups ++ Separator os :: trest))
            end
        end.

End Filepath.

(** ** Errors

    [ErrNew] is an error with a message ([errors.New], and [fmt.Errorf]
    with the verb [%v]); [ErrWrap] is [fmt.Errorf] with the verb [%w]: the
    cause stays reachable under the added context. *)

Inductive error :=
| ErrNew (msg : string)
| ErrWrap (context : string) (cause : error).

Fixpoint errString (e : error) : string :=
  match e with
  | ErrNew msg => msg
  | ErrWrap context cause => context +:+ errString cause
  end.

Definition Errorf_w (context : string) (e : error) : error := ErrWrap context e.
Definition Errorf_v (context : string) (e : error) : error :=
  ErrNew (context +:+ errString e).

(** ** The world the program runs in *)

Abbreviation bytes := (list ascii).

(** A resource that has to be closed: the body of a [GetObject] response
    or a local file. *)
Inductive handle :=
| HBody (bucket key : string)
| HFile (path : string).

Inductive event :=
| EvLoadConfig
| EvListObjectsV2 (bucket prefix : string)
| EvMkdirAll (dir : string)
| EvLogDownloading (bucket key localFilePath : string)
| EvGetObject (bucket key : string)
| EvCreate (path : string)
| EvReadFrom (path : string)
| EvLstat (path : string)
| EvReadDir (path : string)
| EvOpen (path : string)
| EvLogUploading (path bucket key : string)
| EvPutObject (bucket key path : string)
| EvClose (h : handle).

(** What [filepath.Walk] finds at a path: a file that is not a directory,
    a directory with the outcome of reading its names and its entries in
    the order [readDirNames] returns them, or a path whose [Lstat]
    fails. *)
#[warnings="-register-all"]
Inductive node :=
| NFile
| NDir (readErr : option error) (entries : list (string * node))
| NBroken (lstatErr : error).

Record FileInfo := mkInfo { IsDir : bool }.

(** The outcomes of the calls the program makes to its collaborators
    (the AWS SDK, the S3 encryption client, package [os]). *)
Record Env := mkEnv {
  loadDefaultConfig : option error;
  newCMM : string -> option error;
  newClient : option error;
  listObjectsV2 : string -> string -> error + list string;
  getObject : string -> string -> error + bytes;
  mkdirAll : string -> option error;
  osCreate : string -> option error;
  (** The copy of the body into the created file ([file.ReadFrom]).
      [None]: the whole body is written; [Some (e, n)]: the copy fails
      with [e] after [n] bytes, while the body is read (which is where its
      content is decrypted) or while the file is written. *)
  readFrom : string -> option (error * nat);
  fsAt : string -> node;
  osOpen : string -> error + bytes;
  putObject : string -> string -> bytes -> option error
}.

Record World := mkWorld {
  files : gmap string bytes;
  objects : gmap (string * string) bytes;
  handles : list handle;
  trace : list event
}.

Definition emit (e : event) (w : World) : World :=
  mkWorld (files w) (objects w) (handles w) (trace w ++ [e]).

Definition acquire (h : handle) (w : World) : World :=
  mkWorld (files w) (objects w) (h :: handles w) (trace w).

Global Instance handle_eq_dec : EqDecision handle.
Proof. solve_decision. Defined.

Fixpoint removeFirst (h : handle) (l : list handle) : list handle :=
  match l with
  | [] => []
  | h' :: l' => if decide (h = h') then l' else h' :: removeFirst h l'
  end.

Definition close (h : handle) (w : World) : World :=
  mkWorld (files w) (objects w) (removeFirst h (handles w))
          (trace w ++ [EvClose h]).

Definition writeFile (path : string) (data : bytes) (w : World) : World :=
  mkWorld (<[path := data]> (files w)) (objects w) (handles w) (trace w).

Definition storeObject (bucket key : string) (data : bytes) (w : World)
    : World :=
  mkWorld (files w) (<[(bucket, key) := data]> (objects w)) (handles w)
          (trace w).

Definition emptyWorld : World := mkWorld ∅ ∅ [] [].

(** ** [main.go] *)

Section Program.

Variable os : GOOS.
Variable env : Env.

Import GoStrings Filepath.

(** The destination of one object (lines 107-114). *)
Definition localFilePathOf (path objectPrefix : string) (nkeys : nat)
    (objectKey : string) : string :=
  if HasSuffix objectPrefix "/" || Nat.ltb 1 nkeys
  then Join os [path; TrimPrefix objectKey objectPrefix]
  else Join os [path; Base os objectKey].

(** The body of the loop over [objectKeys] (lines 106-142).  [ds] is the
    stack of deferred calls of [GetObjectsWithCseKms]: a [defer] inside
    the loop runs when the function returns. *)
Definition getItem (path bucketName objectPrefix : string) (nkeys : nat)
    (objectKey : string) (ds : list handle) (w : World)
    : option error * list handle * World :=
  let localFilePath := localFilePathOf path objectPrefix nkeys objectKey in
  let w := emit (EvMkdirAll (Dir os localFilePath)) w in
  match mkdirAll env (Dir os localFilePath) with
  | Some e => (Some (Errorf_w "error create directory: " e), ds, w)
  | None =>
      let w := emit (EvLogDownloading bucketName objectKey localFilePath) w in
      let w := emit (EvGetObject bucketName objectKey) w in
      match getObject env bucketName objectKey with
      | inl e => (Some (Errorf_v "error while decrypting: " e), ds, w)
      | inr body =>
          let w := acquire (HBody bucketName objectKey) w in
          let ds := HBody bucketName objectKey :: ds in
          let w := emit (EvCreate localFilePath) w in
          match osCreate env localFilePath with
          | Some e => (Some (Errorf_w "error create file: " e), ds, w)
          | None =>
              let w := acquire (HFile localFilePath)
                         (writeFile localFilePath [] w) in
              let ds := HFile localFilePath :: ds in
              let w := emit (EvReadFrom localFilePath) w in
              match readFrom env localFilePath with
              | Some (e, n) =>
                  (Some (Errorf_w "error write file: " e), ds,
                   writeFile localFilePath (take n body) w)
              | None => (None, ds, writeFile localFilePath body w)
              end
          end
      end
  end.

Fixpoint getLoop (path bucketName objectPrefix : string) (nkeys : nat)
    (keys : list string) (ds : list handle) (w : World)
    : option error * list handle * World :=
  match keys with
  | [] => (None, ds, w)
  | objectKey :: rest =>
      match getItem path bucketName objectPrefix nkeys objectKey ds w with
      | (Some e, ds', w') => (Some e, ds', w')
      | (None, ds', w') =>
          getLoop path bucketName objectPrefix nkeys rest ds' w'
      end
  end.

(** The deferred calls run last-in first-out when the function returns. *)
Definition runDefers (ds : list handle) (w : World) : World :=
  fold_left (fun w h => close h w) ds w.

(** The member keys of the request (lines 85-104): one listing call for a
    prefix, the key itself otherwise. *)
Definition listKeys (bucketName objectPrefix : string) (w : World)
    : (error + list string) * World :=
  if HasSuffix objectPrefix "/"
  then
    let w := emit (EvListObjectsV2 bucketName objectPrefix) w in
    match listObjectsV2 env bucketName objectPrefix with
    | inl e => (inl (Errorf_w "error ListObjectsV2: " e), w)
    | inr contents => (inr contents, w)
    end
  else (inr [objectPrefix], w).

(** [GetObjectsWithCseKms] (lines 84-145). *)
Definition GetObjectsWithCseKms (path bucketName objectPrefix : string)
    (w : World) : option error * World :=
  match listKeys bucketName objectPrefix w with
  | (inl e, w) => (Some e, w)
  | (inr objectKeys, w) =>
      let '(r, ds, w') :=
        getLoop path bucketName objectPrefix (length objectKeys)
                objectKeys [] w in
      (r, runDefers ds w')
  end.

(** The object key of one walked file (lines 160-180). *)
Definition objectKeyOf (basePath objectPrefix path : string)
    : error + string :=
  if HasSuffix objectPrefix "/"
  then
    match Rel os basePath path with
    | inl msg => inl (ErrNew msg)
    | inr relPath =>
        let relPath :=
          if String.eqb relPath "." then Base os path else relPath in
        inr (ToSlash os (Join os [objectPrefix; relPath]))
    end
  else inr (ToSlash os objectPrefix).

Definition uploadContext (path bucketName objectKey : string) : string :=
  "failed to upload " +:+ path +:+ " → " +:+ bucketName +:+ "/"
    +:+ objectKey +:+ ": ".

(** The function passed to [filepath.Walk] (lines 149-194).  [Walk] never
    passes a nil [info] together with a nil [err]; that call would
    dereference nil. *)
Definition putFile (basePath bucketName objectPrefix path : string)
    (info : option FileInfo) (err : option error) (w : World)
    : option error * World :=
  match err with
  | Some e => (Some e, w)
  | None =>
      match info with
      | None => (Some (ErrNew "nil FileInfo"), w)
      | Some info =>
          if negb (IsDir info)
          then
            let w := emit (EvOpen path) w in
            match osOpen env path with
            | inl e => (Some e, w)
            | inr body =>
                let w := acquire (HFile path) w in
                let '(r, w) :=
                  match objectKeyOf basePath objectPrefix path with
                  | inl e => (Some e, w)
                  | inr objectKey =>
                      let w := emit (EvLogUploading path bucketName objectKey) w in
                      let w := emit (EvPutObject bucketName objectKey path) w in
                      match putObject env bucketName objectKey body with
                      | Some e =>
                          (Some (Errorf_w
                                   (uploadContext path bucketName objectKey) e),
                           w)
                      | None =>
                          (None, storeObject bucketName objectKey body w)
                      end
                  end in
                (r, close (HFile path) w)
            end
          else (None, w)
      end
  end.

Definition WalkFunc : Type :=
  string -> option FileInfo -> option error -> World -> option error * World.

(** [filepath.Walk] below one path: [Lstat], then the function on a file
    or, for a directory, the function on the directory and then its
    entries in order.  The first error returned by the function ends the
    walk ([SkipDir] is never returned by the function of this program). *)
Fixpoint visit (fn : WalkFunc) (path : string) (n : node) (w : World)
    : option error * World :=
  match n with
  | NBroken e => fn path None (Some e) (emit (EvLstat path) w)
  | NFile => fn path (Some (mkInfo false)) None (emit (EvLstat path) w)
  | NDir readErr entries =>
      let w := emit (EvReadDir path) (emit (EvLstat path) w) in
      match fn path (Some (mkInfo true)) readErr w with
      | (Some e1, w1) => (Some e1, w1)
      | (None, w1) =>
          match readErr with
          | Some _ => (None, w1)
          | None =>
              (fix loop (es : list (string * node)) (w : World)
                 : option error * World :=
                 match es with
                 | [] => (None, w)
                 | (name, child) :: es' =>
                     match visit fn (Join os [path; name]) child w with
                     | (Some e, w') => (Some e, w')
                     | (None, w') => loop es' w'
                     end
                 end) entries w1
          end
      end
  end.

Definition Walk (root : string) (fn : WalkFunc) (w : World)
    : option error * World :=
  visit fn root (fsAt env root) w.

(** [PutObjectsWithCseKms] (lines 147-195). *)
Definition PutObjectsWithCseKms (basePath bucketName objectPrefix : string)
    (w : World) : option error * World :=
  Walk basePath (putFile basePath bucketName objectPrefix) w.

Inductive exit :=
| ExitOK
| Fatal (msg : string).

Definition modeError : string :=
  "Error : download か upload のいずれか一方を指定してください".

(** [main] (lines 21-82), after [flag.Parse]. *)
Definition main (download upload : bool)
    (bucketName objectKey localPath kmsKeyArn : string) (w : World)
    : exit * World :=
  if (download && upload) || (negb download && negb upload)
  then (Fatal modeError, w)
  else
    let w := emit EvLoadConfig w in
    match loadDefaultConfig env with
    | Some e => (Fatal ("unable to load AWS credential:, " +:+ errString e), w)
    | None =>
        match newCMM env kmsKeyArn with
        | Some _ => (Fatal "error while creating new CMM", w)
        | None =>
            match newClient env with
            | Some e => (Fatal ("unable to load SDK config, " +:+ errString e), w)
            | None =>
                let '(r, w) :=
                  if download
                  then GetObjectsWithCseKms localPath bucketName objectKey w
                  else (None, w) in
                match r with
                | Some e =>
                    (Fatal ("Failed to download objects: " +:+ errString e), w)
                | None =>
                    if upload
                    then
                      match PutObjectsWithCseKms localPath bucketName
                              objectKey w with
                      | (Some e, w) =>
                          (Fatal ("Failed to upload objects: "
                                    +:+ errString e), w)
                      | (None, w) => (ExitOK, w)
                      end
                    else (ExitOK, w)
                end
            end
        end
    end.

End Program.

(** ** Projections of a trace *)

Definition logDownload (e : event) : option (string * string) :=
  match e with
  | EvLogDownloading _ key localFilePath => Some (key, localFilePath)
  | _ => None
  end.

Definition logUpload (e : event) : option (string * string) :=
  match e with
  | EvLogUploading path _ key => Some (path, key)
  | _ => None
  end.

(** The (object key, local path) pairs of the downloads a trace logs. *)
Definition downloadsOf (t : list event) : list (string * string) :=
  omap logDownload t.

(** The (local path, object key) pairs of the uploads a trace logs. *)
Definition uploadsOf (t : list event) : list (string * string) :=
  omap logUpload t.

Definition isTransferCall (e : event) : bool :=
  match e with
  | EvGetObject _ _ | EvCreate _ | EvReadFrom _ | EvPutObject _ _ _
  | EvMkdirAll _ | EvOpen _ => true
  | _ => false
  end.

(** An environment in which every call succeeds: the listing returns
    [listing], an object's content is its key, the tree [root] is found at
    every base path and a file's content is its path. *)
Definition quietEnv (listing : list string) (root : node) : Env :=
  mkEnv None (fun _ => None) None
        (fun _ _ => inr listing) (fun _ key => inr (unstr key))
        (fun _ => None) (fun _ => None) (fun _ => None)
        (fun _ => root) (fun path => inr (unstr path))
        (fun _ _ _ => None).

(** ** The walk as a sequence of calls *)

(** One call of the walk function: the path, the [FileInfo] and the
    error [Walk] passes. *)
Definition visitCall : Type := string * option FileInfo * option error.

(** The calls [Walk] makes below a path when no call returns an error,
    in order. *)
Fixpoint visits (os : GOOS) (path : string) (n : node) : list visitCall :=
  match n with
  | NFile => [(path, Some (mkInfo false), None)]
  | NBroken e => [(path, None, Some e)]
  | NDir readErr entries =>
      (path, Some (mkInfo true), readErr)
      :: match readErr with
         | Some _ => []
         | None =>
             (fix below (es : list (string * node)) : list visitCall :=
                match es with
                | [] => []
                | (name, child) :: es' =>
                    visits os (Filepath.Join os [path; name]) child ++ below es'
                end) entries
         end
  end.

Definition runVisit (fn : WalkFunc) (v : visitCall) (w : World)
    : option error * World :=
  let '(path, info, err) := v in
  let w := emit (EvLstat path) w in
  let w := match info with
           | Some (mkInfo true) => emit (EvReadDir path) w
           | _ => w
           end in
  fn path info err w.

(** The calls of a list made in order, up to the first error. *)
Fixpoint runVisits (fn : WalkFunc) (vs : list visitCall) (w : World)
    : option error * World :=
  match vs with
  | [] => (None, w)
  | v :: vs' =>
      match runVisit fn v w with
      | (Some e, w') => (Some e, w')
      | (None, w') => runVisits fn vs' w'
      end
  end.

(** The paths of the calls made for files that are not directories. *)
Definition walkedFile (v : visitCall) : option string :=
  match v with
  | (path, Some (mkInfo false), None) => Some path
  | _ => None
  end.

Definition filesOf (vs : list visitCall) : list string := omap walkedFile vs.

(** ** The upload of the walked files *)

(** The content [os.Open] gives for a path. *)
Definition bodyAt (env : Env) (path : string) : bytes :=
  match osOpen env path with
  | inr body => body
  | inl _ => []
  end.

(** A walked file with its object key, when the key can be computed. *)
Definition keyAt (os : GOOS) (basePath objectPrefix path : string)
    : option (string * string) :=
  match objectKeyOf os basePath objectPrefix path with
  | inr key => Some (path, key)
  | inl _ => None
  end.

(** The bucket after the upload of one file. *)
Definition storeAt (os : GOOS) (env : Env)
    (basePath bucketName objectPrefix : string)
    (m : gmap (string * string) bytes) (path : string)
    : gmap (string * string) bytes :=
  match objectKeyOf os basePath objectPrefix path with
  | inr key => <[(bucketName, key) := bodyAt env path]> m
  | inl _ => m
  end.

(** ** Stores written by a run *)

(** The local files after the download of one object. *)
Definition downloadStore (os : GOOS) (env : Env)
    (path bucketName objectPrefix : string) (nkeys : nat)
    (m : gmap string bytes) (objectKey : string) : gmap string bytes :=
  match getObject env bucketName objectKey with
  | inr body =>
      <[localFilePathOf os path objectPrefix nkeys objectKey := body]> m
  | inl _ => m
  end.

(** One item written to a store: [f] gives the key of the item, when it
    has one, and [g] its content. *)
Definition upd {K : Type} `{Countable K} {V A : Type}
    (f : A -> option K) (g : A -> V) (m : gmap K V) (y : A) : gmap K V :=
  match f y with
  | Some k => <[k := g y]> m
  | None => m
  end.

(** ** Concrete runs *)

(** The listing has three members and the second object cannot be
    decrypted. *)
Definition deniedEnv : Env :=
  mkEnv None (fun _ => None) None
        (fun _ _ => inr ["p/a"; "p/b"; "p/c"])
        (fun _ key =>
           if String.eqb key "p/b" then inl (ErrNew "denied")
           else inr (unstr key))
        (fun _ => None) (fun _ => None) (fun _ => None)
        (fun _ => NFile) (fun path => inr (unstr path))
        (fun _ _ _ => None).

(** The local write of the only object fails after two bytes. *)
Definition diskFullEnv : Env :=
  mkEnv None (fun _ => None) None
        (fun _ _ => inr []) (fun _ key => inr (unstr key))
        (fun _ => None) (fun _ => None)
        (fun _ => Some (ErrNew "no space left on device", 2))
        (fun _ => NFile) (fun path => inr (unstr path))
        (fun _ _ _ => None).

(** A directory with three files; the put of the second one is
    rejected. *)
Definition threeFiles : node :=
  NDir None [("a", NFile); ("b", NFile); ("c", NFile)].

Definition rejectEnv : Env :=
  mkEnv None (fun _ => None) None
        (fun _ _ => inr []) (fun _ key => inr (unstr key))
        (fun _ => None) (fun _ => None) (fun _ => None)
        (fun _ => threeFiles) (fun path => inr (unstr path))
        (fun _ key _ =>
           if String.eqb key "in/b" then Some (ErrNew "rejected") else None).

(** A directory with a file and a sub-directory with a file. *)
Definition dataTree : node :=
  NDir None [("sub", NDir None [("y.txt", NFile)]); ("x.txt", NFile)].

(** ** Names of directory entries *)

(** A byte list without a path separator. *)
Definition sepFree (os : GOOS) (e : list ascii) : bool :=
  forallb (fun c => negb (Filepath.IsPathSeparator os c)) e.

(** The name of a directory entry: not empty, without a path separator,
    and neither [.] nor [..]. *)
Definition plainL (os : GOOS) (e : list ascii) : bool :=
  sepFree os e && negb (eqbL e []) && negb (eqbL e Filepath.dot)
  && negb (eqbL e Filepath.dotdot).

Definition plain (os : GOOS) (name : string) : bool := plainL os (unstr name).

(** Every entry below the node has the name of a directory entry. *)
Fixpoint wfNode (os : GOOS) (n : node) : bool :=
  match n with
  | NDir _ entries =>
      (fix all (es : list (string * node)) : bool :=
         match es with
         | [] => true
         | (name, child) :: es' => plain os name && wfNode os child && all es'
         end) entries
  | _ => true
  end.

(** The path [Walk] builds below [path] for the entry names [names]. *)
Definition below (os : GOOS) (path : string) (names : list string) : string :=
  foldl (fun q name => Filepath.Join os [q; name]) path names.

(** ** Cleaned paths *)

(** An element of a cleaned path: not empty, without a separator, not
    [.]. *)
Definition elemOK (os : GOOS) (e : list ascii) : Prop :=
  sepFree os e = true /\ e <> [] /\ e <> Filepath.dot.

(** A [..] element has only [..] elements before it, in a path that is
    not rooted. *)
Fixpoint dotdotsFirst (rooted : bool) (out : list (list ascii)) : Prop :=
  match out with
  | [] => True
  | e :: out' =>
      (e = Filepath.dotdot ->
       rooted = false /\ Forall (fun x => x = Filepath.dotdot) out')
      /\ dotdotsFirst rooted out'
  end.

(** The output stack of [Clean], last element first. *)
Definition normalStack (os : GOOS) (rooted : bool) (out : list (list ascii))
    : Prop :=
  dotdotsFirst rooted out /\ Forall (elemOK os) out.

(** A byte list whose last byte is not the separator. *)
Definition endsPlain (os : GOOS) (l : list ascii) : Prop :=
  exists x c, l = x ++ [c] /\ c <> Filepath.Separator os.

(** ** Failures of one item *)

(** The four ways the download of one member key can fail. *)
Definition itemFailure (os : GOOS) (env : Env)
    (path bucket prefix : string) (nkeys : nat) (k : string) (e' : error)
    : Prop :=
  let dest := localFilePathOf os path prefix nkeys k in
  (exists e, mkdirAll env (Filepath.Dir os dest) = Some e /\
             e' = ErrWrap "error create directory: " e) \/
  (exists e, getObject env bucket k = inl e /\
             e' = ErrNew ("error while decrypting: " +:+ errString e)) \/
  (exists e, osCreate env dest = Some e /\
             e' = ErrWrap "error create file: " e) \/
  (exists e n, readFrom env dest = Some (e, n) /\
               e' = ErrWrap "error write file: " e).

(** The ways the call of the walk function for one path can fail: with
    the error [Walk] passes, or for a file with the error of [os.Open],
    the error of [Rel], or the wrapped error of [PutObject]. *)
Definition visitFailure (os : GOOS) (env : Env)
    (basePath bucket prefix : string) (v : visitCall) (e' : error) : Prop :=
  (exists p i, v = (p, i, Some e')) \/
  (exists p,
     walkedFile v = Some p /\
     (osOpen env p = inl e' \/
      (exists body,
         osOpen env p = inr body /\
         objectKeyOf os basePath prefix p = inl e') \/
      (exists body key e,
         osOpen env p = inr body /\
         objectKeyOf os basePath prefix p = inr key /\
         putObject env bucket key body = Some e /\
         e' = ErrWrap (uploadContext p bucket key) e))).

(** A directory that holds only an empty directory. *)
Definition emptyDirs : node := NDir None [("d", NDir None [])].

(** ** Portable paths

    On [Windows] the lexical functions of [Filepath] are the library's on
    paths without a volume name.  The theorems that compute with these
    functions are stated for portable paths: their bytes are those of
    POSIX's portable file names (letters, digits, [.], [_], [-]) and the
    two separators, and they do not start with two separators.  Such a
    path has no drive letter, no UNC or device prefix and only ASCII
    letters.  On [Unix] every path is portable. *)

Definition portableChar (c : ascii) : bool :=
  let n := nat_of_ascii c in
  (Nat.leb 48 n && Nat.leb n 57) || (Nat.leb 65 n && Nat.leb n 90)
  || (Nat.leb 97 n && Nat.leb n 122)
  || Ascii.eqb c "." || Ascii.eqb c "_" || Ascii.eqb c "-"
  || Ascii.eqb c "/" || Ascii.eqb c "\".

Definition portableL (os : GOOS) (l : list ascii) : bool :=
  match os with
  | Unix => true
  | Windows =>
      forallb portableChar l
      && negb match l with
              | c :: d :: _ =>
                  Filepath.IsPathSeparator Windows c
                  && Filepath.IsPathSeparator Windows d
              | _ => false
              end
  end.

Definition portable (os : GOOS) (s : string) : bool := portableL os (unstr s).

(** Every entry below the node has a portable name. *)
Fixpoint portableNode (os : GOOS) (n : node) : bool :=
  match n with
  | NDir _ entries =>
      (fix all (es : list (string * node)) : bool :=
         match es with
         | [] => true
         | (name, child) :: es' =>
             portable os name && portableNode os child && all es'
         end) entries
  | _ => true
  end.

(** The relative path [rel] below the cleaned path [dir]: [dir], a
    separator and [rel]; no separator is added after the root, and a
    [dir] that is [.] is dropped. *)
Definition under (os : GOOS) (dir rel : list ascii) : list ascii :=
  if eqbL dir [Filepath.Separator os] then dir ++ rel
  else if eqbL dir Filepath.dot then rel
  else dir ++ Filepath.Separator os :: rel.

(** A string that is empty or ends with a path separator. *)
Definition endsWithSeparator (os : GOOS) (s : string) : bool :=
  match rev (unstr s) with
  | [] => true
  | c :: _ => Filepath.IsPathSeparator os c
  end.

(** The listing has three members, the first two with the same
    destination, and the third object cannot be decrypted. *)
Definition overwriteEnv : Env :=
  mkEnv None (fun _ => None) None
        (fun _ _ => inr ["p/a"; "p//a"; "p/c"])
        (fun _ key =>
           if String.eqb key "p/c" then inl (ErrNew "denied")
           else inr (unstr key))
        (fun _ => None) (fun _ => None) (fun _ => None)
        (fun _ => NFile) (fun path => inr (unstr path))
        (fun _ _ _ => None).

(** ** Tables of expected results *)

(** Every row is an input with the result [Clean] has to give. *)
Definition cleanAll (os : GOOS) (l : list (string * string)) : bool :=
  forallb (fun '(i, o) => String.eqb (Filepath.Clean os i) o) l.

(** A row is a base, a target and the result [Rel] has to give, [err]
    standing for an error. *)
Definition relOk (os : GOOS) (t : string * string * string) : bool :=
  let '(b, p, o) := t in
  match Filepath.Rel os b p with
  | inr r => String.eqb r o
  | inl _ => String.eqb o "err"
  end.

(** * Properties *)

Module PathTests.
Import Filepath.

Example Clean_table_unix :
  cleanAll Unix
    [ ("abc", "abc"); ("abc/def", "abc/def"); ("a/b/c", "a/b/c"); (".", ".");
      ("..", ".."); ("../..", "../.."); ("../../abc", "../../abc");
      ("/abc", "/abc"); ("/", "/"); (EmptyString, "."); ("abc/", "abc");
      ("abc/def/", "abc/def"); ("a/b/c/", "a/b/c"); ("./", "."); ("../", "..");
      ("../../", "../.."); ("/abc/", "/abc"); ("abc//def//ghi", "abc/def/ghi");
      ("abc//", "abc"); ("abc/./def", "abc/def"); ("/./abc/def", "/abc/def");
      ("abc/.", "abc"); ("abc/def/ghi/../jkl", "abc/def/jkl");
      ("abc/def/../ghi/../jkl", "abc/jkl"); ("abc/def/..", "abc");
      ("abc/def/../..", "."); ("/abc/def/../..", "/");
      ("abc/def/../../..", ".."); ("/abc/def/../../..", "/");
      ("abc/def/../../../ghi/jkl/../../../mno", "../../mno"); ("/../abc", "/abc");
      ("a/../b:/../../c", "../c"); ("abc/./../def", "def");
      ("abc//./../def", "def"); ("abc/../../././../def", "../../def");
      ("//abc", "/abc"); ("///abc", "/abc"); ("//abc//", "/abc") ] = true.
Proof. vm_compute. reflexivity. Qed.

Example Clean_table_windows :
  cleanAll Windows
    [ ("abc/def", "abc\def"); ("a/b\c/", "a\b\c"); ("\abc\..\..", "\");
      ("abc\def\..\..\..", ".."); (EmptyString, ".") ] = true.
Proof. vm_compute. reflexivity. Qed.

Example Join_table_unix :
  forallb (fun '(i, o) => String.eqb (Join Unix i) o)
    [ ([], EmptyString); ([EmptyString], EmptyString); (["/"], "/"); (["a"], "a"); (["a"; "b"], "a/b");
      (["a"; EmptyString], "a"); ([EmptyString; "b"], "b"); (["/"; "a"], "/a"); (["/"; "a/b"], "/a/b");
      (["/"; EmptyString], "/"); (["/a"; "b"], "/a/b"); (["a"; "/b"], "a/b");
      (["/a"; "/b"], "/a/b"); (["a/"; "b"], "a/b"); (["a/"; EmptyString], "a");
      ([EmptyString; EmptyString], EmptyString); (["//"; "a"], "/a") ] = true.
Proof. vm_compute. reflexivity. Qed.

Example Base_table_unix :
  forallb (fun '(i, o) => String.eqb (Base Unix i) o)
    [ (EmptyString, "."); (".", "."); ("/.", "."); ("/", "/"); ("////", "/");
      ("x/", "x"); ("abc", "abc"); ("abc/def", "def"); ("a/b/.x", ".x");
      ("a/b/c.", "c."); ("a/b/c.x", "c.x") ] = true.
Proof. vm_compute. reflexivity. Qed.

Example Dir_table_unix :
  forallb (fun '(i, o) => String.eqb (Dir Unix i) o)
    [ (EmptyString, "."); (".", "."); ("/.", "/"); ("/", "/"); ("/foo", "/");
      ("x/", "x"); ("abc", "."); ("abc/def", "abc"); ("a/b/.x", "a/b");
      ("a/b/c.", "a/b"); ("a/b/c.x", "a/b") ] = true.
Proof. vm_compute. reflexivity. Qed.

Example Rel_table_unix :
  forallb (relOk Unix)
    [ ("a/b", "a/b", "."); ("a/b/.", "a/b", "."); ("a/b", "a/b/.", ".");
      ("./a/b", "a/b", "."); ("a/b", "./a/b", "."); ("ab/cd", "ab/cde", "../cde");
      ("ab/cd", "ab/c", "../c"); ("a/b", "a/b/c/d", "c/d");
      ("a/b", "a/b/../c", "../c"); ("a/b/../c", "a/b", "../b");
      ("a/b/c", "a/c/d", "../../c/d"); ("a/b", "c/d", "../../c/d");
      ("a/b/c/d", "a/b", "../.."); ("a/b/c/d", "a/b/", "../..");
      ("a/b/c/d/", "a/b", "../.."); ("a/b/c/d/", "a/b/", "../..");
      ("../../a/b", "../../a/b/c/d", "c/d"); ("/a/b", "/a/b", ".");
      ("/a/b/.", "/a/b", "."); ("/a/b", "/a/b/.", "."); ("/ab/cd", "/ab/cde", "../cde");
      ("/ab/cd", "/ab/c", "../c"); ("/a/b", "/a/b/c/d", "c/d");
      ("/a/b", "/a/b/../c", "../c"); ("/a/b/../c", "/a/b", "../b");
      ("/a/b/c", "/a/c/d", "../../c/d"); ("/a/b", "/c/d", "../../c/d");
      ("/a/b/c/d", "/a/b", "../.."); ("/a/b/c/d", "/a/b/", "../..");
      ("/../../a/b", "/../../a/b/c/d", "c/d"); (".", "a/b", "a/b");
      (".", "..", ".."); ("..", ".", "err"); ("..", "a", "err");
      ("a", "/a", "err"); ("/a", "a", "err") ] = true.
Proof. vm_compute. reflexivity. Qed.

(** On [Windows], for paths without a volume name. *)
Example Portable_table_windows :
  Join Windows ["directory"; "file"] = "directory\file" /\
  Join Windows ["a/"; "/b"] = "a\b" /\
  Join Windows ["/"; "a"] = "\a" /\
  Join Windows ["a\b"; "..\c"] = "a\c" /\
  Base Windows "a\b" = "b" /\
  Base Windows "a/b/" = "b" /\
  Dir Windows "dir\sub\file.txt" = "dir\sub" /\
  Dir Windows "a" = "." /\
  Rel Windows "a" "a\b" = inr "b" /\
  Rel Windows "Projects" "projects\src" = inr "src" /\
  Rel Windows "a\b" "a\c\d" = inr "..\c\d".
Proof. vm_compute. repeat split. Qed.

Example ToSlash_windows_example : ToSlash Windows "a\b/c\d" = "a/b/c/d".
Proof. reflexivity. Qed.

Example ToSlash_unix_example : ToSlash Unix "a\b/c\d" = "a\b/c\d".
Proof. reflexivity. Qed.

End PathTests.


(** ** Basic facts about the world operations *)

Section WorldFacts.

Lemma trace_emit e w : trace (emit e w) = trace w ++ [e].
Proof. reflexivity. Qed.

Lemma trace_close h w : trace (close h w) = trace w ++ [EvClose h].
Proof. reflexivity. Qed.

Lemma files_runDefers ds w : files (runDefers ds w) = files w.
Proof. revert w. induction ds as [|h ds IH]; intros w; simpl; [done|]. by rewrite IH. Qed.

Lemma objects_runDefers ds w : objects (runDefers ds w) = objects w.
Proof. revert w. induction ds as [|h ds IH]; intros w; simpl; [done|]. by rewrite IH. Qed.

Lemma trace_runDefers ds w :
  trace (runDefers ds w) = trace w ++ map EvClose ds.
Proof.
  revert w. induction ds as [|h ds IH]; intros w; simpl.
  - by rewrite app_nil_r.
  - rewrite IH, trace_close, <- app_assoc. reflexivity.
Qed.

Lemma downloadsOf_app t1 t2 :
  downloadsOf (t1 ++ t2) = downloadsOf t1 ++ downloadsOf t2.
Proof. apply omap_app. Qed.

Lemma uploadsOf_app t1 t2 :
  uploadsOf (t1 ++ t2) = uploadsOf t1 ++ uploadsOf t2.
Proof. apply omap_app. Qed.

Lemma downloadsOf_closes ds : downloadsOf (map EvClose ds) = [].
Proof. induction ds; simpl; auto. Qed.

End WorldFacts.

(** ** The download loop *)

Section DownloadFacts.

Variable os : GOOS.
Variable env : Env.
Variables path bucketName objectPrefix : string.
Variable nkeys : nat.

Local Abbreviation dest := (localFilePathOf os path objectPrefix nkeys).
Local Abbreviation item := (getItem os env path bucketName objectPrefix nkeys).
Local Abbreviation loop := (getLoop os env path bucketName objectPrefix nkeys).

(** The events of one item start with the creation of the directory of
    its destination; the item logs its destination exactly when that
    succeeds. *)
Lemma getItem_trace k ds w :
  exists evs,
    trace (item k ds w).2 = trace w ++ EvMkdirAll (Filepath.Dir os (dest k)) :: evs /\
    downloadsOf evs =
      match mkdirAll env (Filepath.Dir os (dest k)) with
      | None => [(k, dest k)]
      | Some _ => []
      end.
Proof.
  unfold getItem.
  destruct (mkdirAll env _) as [e|].
  { exists []. split; reflexivity. }
  destruct (getObject env bucketName k) as [e|body].
  { eexists. split; [simpl; rewrite <- !app_assoc; reflexivity | reflexivity]. }
  destruct (osCreate env _) as [e|].
  { eexists. split; [simpl; rewrite <- !app_assoc; reflexivity | reflexivity]. }
  destruct (readFrom env _) as [[e n]|];
    (eexists; split; [simpl; rewrite <- !app_assoc; reflexivity | reflexivity]).
Qed.

(** The loop over a concatenation: the second part runs only when the
    first part ended without an error, and then from where it ended. *)
Lemma getLoop_app l1 l2 ds w :
  loop (l1 ++ l2) ds w =
    match loop l1 ds w with
    | (Some e, ds', w') => (Some e, ds', w')
    | (None, ds', w') => loop l2 ds' w'
    end.
Proof.
  revert ds w. induction l1 as [|k l1 IH]; intros ds w; simpl.
  - reflexivity.
  - destruct (getItem _ _ _ _ _ _ _ _ _) as [[[e|] ds'] w']; [reflexivity|].
    apply IH.
Qed.

(** The downloads the loop logs are those of a prefix of the keys, each
    with the destination the mapping gives it, and of all keys when the
    loop ends without an error. *)
Lemma getLoop_downloads keys ds w :
  exists n,
    n <= length keys /\
    downloadsOf (trace (loop keys ds w).2) =
      downloadsOf (trace w) ++ map (fun k => (k, dest k)) (take n keys) /\
    ((loop keys ds w).1.1 = None -> n = length keys).
Proof.
  revert ds w. induction keys as [|k keys IH]; intros ds w.
  - exists 0. simpl. rewrite app_nil_r. auto.
  - simpl. destruct (getItem_trace k ds w) as (evs & Ht & Hd).
    destruct (getItem _ _ _ _ _ _ _ _ _) as [[r ds'] w'] eqn:E.
    simpl in Ht. destruct r as [e|].
    + simpl. rewrite Ht, downloadsOf_app. simpl. rewrite Hd.
      destruct (mkdirAll env _).
      * exists 0. simpl. split; [lia|]. split; [reflexivity | discriminate].
      * exists 1. simpl. rewrite ?take_0. split; [lia|]. split; [reflexivity | discriminate].
    + destruct (IH ds' w') as (n & Hn & Hdl & Hall).
      assert (Hm : mkdirAll env (Filepath.Dir os (dest k)) = None).
      { revert E. unfold getItem.
        destruct (mkdirAll env _); [discriminate | reflexivity]. }
      rewrite Hm in Hd.
      exists (S n). simpl. split; [lia|]. split.
      * rewrite Hdl, Ht, downloadsOf_app. simpl. rewrite Hd, <- app_assoc.
        reflexivity.
      * intros H. f_equal. auto.
Qed.

End DownloadFacts.

(** ** Strings and byte lists *)

Section StringFacts.

Lemma unstr_str l : unstr (str l) = l.
Proof. apply list_ascii_of_string_of_list_ascii. Qed.

Lemma str_unstr s : str (unstr s) = s.
Proof. apply string_of_list_ascii_of_string. Qed.

Lemma unstr_app s1 s2 : unstr (s1 +:+ s2) = unstr s1 ++ unstr s2.
Proof. induction s1 as [|c s1 IH]; simpl; [reflexivity | by rewrite IH]. Qed.

Lemma unstr_inj s1 s2 : unstr s1 = unstr s2 -> s1 = s2.
Proof. intros H. rewrite <- (str_unstr s1), <- (str_unstr s2). by rewrite H. Qed.

Lemma hasPrefixL_app p r : GoStrings.hasPrefixL (p ++ r) p = true.
Proof.
  induction p as [|c p IH]; simpl; [reflexivity|].
  rewrite Ascii.eqb_refl. exact IH.
Qed.

Lemma TrimPrefix_app prefix rest :
  GoStrings.TrimPrefix (prefix +:+ rest) prefix = rest.
Proof.
  unfold GoStrings.TrimPrefix, GoStrings.HasPrefix.
  rewrite unstr_app, hasPrefixL_app, drop_app_length. apply str_unstr.
Qed.


End StringFacts.

(** ** Claims about downloads *)

Section DownloadClaims.

Import GoStrings Filepath.

(** The scenario of the specification: the two objects under [reports/]
    land at [/out/2024/jan.csv] and [/out/2024/feb.csv]. *)
Example download_reports_scenario :
  let r := GetObjectsWithCseKms Unix
             (quietEnv ["reports/2024/jan.csv"; "reports/2024/feb.csv"] NFile)
             "/out" "b" "reports/" emptyWorld in
  r.1 = None /\
  downloadsOf (trace r.2)
  = [("reports/2024/jan.csv", "/out/2024/jan.csv");
     ("reports/2024/feb.csv", "/out/2024/feb.csv")] /\
  files r.2 !! "/out/2024/jan.csv" = Some (unstr "reports/2024/jan.csv") /\
  files r.2 !! "/out/2024/feb.csv" = Some (unstr "reports/2024/feb.csv").
Proof. vm_compute. auto. Qed.

End DownloadClaims.

(** ** Lexical facts about paths *)

Section PathFacts.

Import GoStrings Filepath.

Variable os : GOOS.

Lemma sep_is_sep : IsPathSeparator os (Separator os) = true.
Proof. destruct os; reflexivity. Qed.

(** A separator ends the element being read. *)
Lemma fields_app_sep a c b cur :
  IsPathSeparator os c = true ->
  fields os (a ++ c :: b) cur = fields os a cur ++ fields os b [].
Proof.
  intros Hc. revert cur. induction a as [|d a IH]; intros cur; simpl.
  - rewrite Hc. destruct cur; reflexivity.
  - destruct (IsPathSeparator os d).
    + destruct cur; [apply IH | simpl; f_equal; apply IH].
    + apply IH.
Qed.

Lemma isRooted_app a b : a <> [] -> isRooted os (a ++ b) = isRooted os a.
Proof. destruct a; [congruence | reflexivity]. Qed.

(** Two separators in a row, or a separator at the end, do not change
    the cleaned path. *)
Lemma cleanL_double_sep a b :
  a <> [] ->
  cleanL os (a ++ Separator os :: Separator os :: b)
  = cleanL os (a ++ Separator os :: b).
Proof.
  intros Ha. unfold cleanL, cleanOut.
  rewrite !isRooted_app by exact Ha.
  rewrite !fields_app_sep by apply sep_is_sep.
  simpl. rewrite sep_is_sep. reflexivity.
Qed.

Lemma cleanL_trailing_sep a :
  a <> [] -> cleanL os (a ++ [Separator os]) = cleanL os a.
Proof.
  intros Ha. unfold cleanL, cleanOut.
  rewrite isRooted_app by exact Ha.
  rewrite fields_app_sep by apply sep_is_sep.
  simpl. rewrite app_nil_r. reflexivity.
Qed.


End PathFacts.

Section DownloadClaims2.

Import GoStrings Filepath.



(** C3. A download of a single object (the object key does not end with
    a slash) has the key itself as its only member, makes no listing call,
    and gives it the destination [Join path (Base key)], whatever the
    number of segments of the key.  When every call succeeds the body is
    written to exactly that file. *)
Theorem C3_single_download_destination os env path bucket key w :
  HasSuffix key "/" = false ->
  let dest := Join os [path; Base os key] in
  let r := GetObjectsWithCseKms os env path bucket key w in
  localFilePathOf os path key 1 key = dest /\
  (exists evs,
     trace r.2 = trace w ++ EvMkdirAll (Dir os dest) :: evs /\
     (forall b p, ~ In (EvListObjectsV2 b p) evs) /\
     (forall k p, In (k, p) (downloadsOf evs) -> k = key /\ p = dest)) /\
  (forall body,
     mkdirAll env (Dir os dest) = None ->
     getObject env bucket key = inr body ->
     osCreate env dest = None ->
     readFrom env dest = None ->
     r.1 = None /\
     downloadsOf (trace r.2) = downloadsOf (trace w) ++ [(key, dest)] /\
     files r.2 = <[dest := body]> (files w)).
Proof.
  intros Hsuf dest r.
  assert (Hd : localFilePathOf os path key 1 key = dest).
  { unfold localFilePathOf. rewrite Hsuf. reflexivity. }
  split; [exact Hd|].
  subst r. unfold GetObjectsWithCseKms, listKeys. rewrite Hsuf. simpl.
  unfold getItem. rewrite Hd.
  destruct (mkdirAll env (Dir os dest)) as [e|]; simpl.
  { split; [|intros; discriminate]. exists [].
    split; [reflexivity|]. split; [tauto | simpl; tauto]. }
  destruct (getObject env bucket key) as [e|body]; simpl.
  { split; [|intros; discriminate]. eexists.
    split; [rewrite <- !app_assoc; reflexivity|].
    split.
    - intros b p [H|[H|[]]]; discriminate.
    - simpl. intros k p [H|[]]. by inversion H. }
  destruct (osCreate env dest) as [e|]; simpl.
  { split; [|intros; discriminate]. eexists.
    split; [rewrite <- !app_assoc; reflexivity|].
    split.
    - intros b p H. simpl in H.
      repeat (destruct H as [H|H]; [discriminate|]). exact H.
    - simpl. intros k p [H|[]]. by inversion H. }
  destruct (readFrom env dest) as [[e n]|]; simpl.
  { split; [|intros; discriminate]. eexists.
    split; [rewrite <- !app_assoc; reflexivity|].
    split.
    - intros b p H. simpl in H.
      repeat (destruct H as [H|H]; [discriminate|]). exact H.
    - simpl. intros k p [H|[]]. by inversion H. }
  split.
  - eexists. split; [rewrite <- !app_assoc; reflexivity|].
    split.
    + intros b p H. simpl in H.
      repeat (destruct H as [H|H]; [discriminate|]). exact H.
    + simpl. intros k p [H|[]]. by inversion H.
  - intros body' _ Hb _ _. inversion Hb; subst body'.
    split; [reflexivity|]. split.
    + rewrite !downloadsOf_app. simpl. rewrite !app_nil_r. reflexivity.
    + apply insert_insert_eq.
Qed.

Lemma C3_single_download_destination_witness :
  localFilePathOf Unix "/out" "a/b/single.bin" 1 "a/b/single.bin"
  = "/out/single.bin".
Proof.
  exact (proj1 (C3_single_download_destination Unix (quietEnv [] NFile)
                  "/out" "b" "a/b/single.bin" emptyWorld eq_refl)).
Defined.

(** The scenario of the specification: [single.bin] lands at
    [/out/single.bin] and nowhere else. *)
Example download_single_scenario :
  let r := GetObjectsWithCseKms Unix (quietEnv [] NFile)
             "/out" "b" "single.bin" emptyWorld in
  r.1 = None /\ files r.2 = {[ "/out/single.bin" := unstr "single.bin" ]}.
Proof. vm_compute. auto. Qed.

(** C7. A download of a prefix whose listing has no member ends without
    an error: the listing call is the only call made, no object is
    requested, no file or directory is created, nothing is logged as
    downloaded. *)
Theorem C7_empty_listing os env path bucket prefix w :
  HasSuffix prefix "/" = true ->
  listObjectsV2 env bucket prefix = inr [] ->
  let r := GetObjectsWithCseKms os env path bucket prefix w in
  r.1 = None /\
  r.2 = emit (EvListObjectsV2 bucket prefix) w /\
  files r.2 = files w /\
  downloadsOf (trace r.2) = downloadsOf (trace w) /\
  filter isTransferCall (trace r.2) = filter isTransferCall (trace w).
Proof.
  intros Hsuf Hlist r. subst r. unfold GetObjectsWithCseKms, listKeys.
  rewrite Hsuf, Hlist. simpl.
  repeat split.
  - rewrite downloadsOf_app. simpl. by rewrite app_nil_r.
  - rewrite filter_app. simpl. by rewrite app_nil_r.
Qed.

Lemma C7_empty_listing_witness :
  (GetObjectsWithCseKms Unix (quietEnv [] NFile) "/out" "b" "reports/"
     emptyWorld).1 = None.
Proof.
  exact (proj1 (C7_empty_listing Unix (quietEnv [] NFile) "/out" "b"
                  "reports/" emptyWorld eq_refl eq_refl)).
Defined.



End DownloadClaims2.

(** ** Mode selection *)

Section ModeClaims.

(** C8. When both modes or neither mode is selected, [main] ends with
    the mode error before any call to a collaborator: the world,
    including its trace, is unchanged.  When exactly one mode is selected
    the mode error is not raised. *)
Theorem C8_mode_validation os env (download upload : bool)
    bucket key path arn w :
  let r := main os env download upload bucket key path arn w in
  (download = upload -> r = (Fatal modeError, w)) /\
  (download <> upload -> r.1 <> Fatal modeError).
Proof.
  intros r. subst r. split.
  - intros ->. unfold main. destruct upload; reflexivity.
  - intros Hne. unfold main.
    destruct download, upload; try congruence; simpl;
      destruct (loadDefaultConfig env); simpl; try discriminate;
      destruct (newCMM env arn); simpl; try discriminate;
      destruct (newClient env); simpl; try discriminate.
    + destruct (GetObjectsWithCseKms _ _ _ _ _ _) as [[e|] w']; simpl; discriminate.
    + destruct (PutObjectsWithCseKms _ _ _ _ _ _) as [[e|] w']; simpl; discriminate.
Qed.

Lemma C8_mode_validation_witness :
  main Unix (quietEnv [] NFile) true true "b" "k" "/out" "arn" emptyWorld
    = (Fatal modeError, emptyWorld) /\
  main Unix (quietEnv [] NFile) false false "b" "k" "/out" "arn" emptyWorld
    = (Fatal modeError, emptyWorld) /\
  (main Unix (quietEnv [] NFile) true false "b" "k" "/out" "arn" emptyWorld).1
    <> Fatal modeError.
Proof.
  split; [|split].
  - exact (proj1 (C8_mode_validation Unix (quietEnv [] NFile) true true
                    "b" "k" "/out" "arn" emptyWorld) eq_refl).
  - exact (proj1 (C8_mode_validation Unix (quietEnv [] NFile) false false
                    "b" "k" "/out" "arn" emptyWorld) eq_refl).
  - apply (proj2 (C8_mode_validation Unix (quietEnv [] NFile) true false
                    "b" "k" "/out" "arn" emptyWorld)). discriminate.
Defined.

End ModeClaims.

Section WalkFacts.

Variable os : GOOS.

Lemma runVisits_app fn l1 l2 w :
  runVisits fn (l1 ++ l2) w =
    match runVisits fn l1 w with
    | (Some e, w') => (Some e, w')
    | (None, w') => runVisits fn l2 w'
    end.
Proof.
  revert w. induction l1 as [|v l1 IH]; intros w; simpl; [reflexivity|].
  destruct (runVisit fn v w) as [[e|] w']; [reflexivity | apply IH].
Qed.

(** [Walk] makes the calls of [visits] in order and stops at the first
    one that returns an error. *)
Lemma visit_runVisits fn :
  forall n path w, visit os fn path n w = runVisits fn (visits os path n) w.
Proof.
  fix IH 1. intros [|readErr entries|e] path w; simpl.
  - destruct (fn _ _ _ _) as [[e|] w']; reflexivity.
  - destruct (fn _ _ _ _) as [[e1|] w1]; [reflexivity|].
    destruct readErr as [e|]; [reflexivity|].
    clear w. revert w1.
    induction entries as [|[name child] es IHes]; intros w1; [reflexivity|].
    rewrite runVisits_app, <- IH.
    destruct (visit os fn _ child w1) as [[e|] w']; [reflexivity | apply IHes].
  - destruct (fn _ _ _ _) as [[e'|] w']; reflexivity.
Qed.

End WalkFacts.

Ltac upload_fin :=
  repeat split; simpl; auto; try discriminate; try congruence;
  try (destruct (decide (HFile _ = HFile _)); congruence).

Section UploadFacts.

Variable os : GOOS.
Variable env : Env.
Variables basePath bucketName objectPrefix : string.

Local Abbreviation fn := (putFile os env basePath bucketName objectPrefix).
Local Abbreviation keyed := (keyAt os basePath objectPrefix).
Local Abbreviation store := (storeAt os env basePath bucketName objectPrefix).

(** The call for a directory does nothing: no file is opened, no key is
    computed, nothing is put. *)
Lemma putFile_directory path w :
  fn path (Some (mkInfo true)) None w = (None, w).
Proof. reflexivity. Qed.

Lemma runVisit_putFile v w :
  exists evs,
    trace (runVisit fn v w).2 = trace w ++ evs /\
    uploadsOf evs =
      match walkedFile v with
      | Some p =>
          match osOpen env p with
          | inr _ => omap keyed [p]
          | inl _ => []
          end
      | None => []
      end /\
    handles (runVisit fn v w).2 = handles w /\
    files (runVisit fn v w).2 = files w /\
    ((runVisit fn v w).1 = None ->
     objects (runVisit fn v w).2 =
       match walkedFile v with
       | Some p => store (objects w) p
       | None => objects w
       end) /\
    ((runVisit fn v w).1 <> None ->
     objects (runVisit fn v w).2 = objects w).
Proof.
  destruct v as [[path info] err]. unfold runVisit, putFile.
  destruct err as [e|].
  { destruct info as [[[|]]|]; eexists; simpl;
      (split; [rewrite <- ?app_assoc; reflexivity|]); upload_fin. }
  destruct info as [[[|]]|]; simpl.
  - eexists. simpl. split; [rewrite <- ?app_assoc; reflexivity|]. upload_fin.
  - unfold keyAt, storeAt, bodyAt.
    destruct (osOpen env path) as [e|body];
      [|destruct (objectKeyOf os basePath objectPrefix path) as [e|key];
        [|destruct (putObject env bucketName key body) as [e|]]];
      (eexists; simpl; split; [rewrite <- ?app_assoc; reflexivity|]);
      upload_fin.
  - eexists. simpl. split; [rewrite <- ?app_assoc; reflexivity|]. upload_fin.
Qed.

(** A call that ends without an error for a file has opened the file,
    computed its key and put the object. *)
Lemma runVisit_putFile_ok v w p :
  (runVisit fn v w).1 = None ->
  walkedFile v = Some p ->
  exists body key,
    osOpen env p = inr body /\
    objectKeyOf os basePath objectPrefix p = inr key /\
    putObject env bucketName key body = None.
Proof.
  destruct v as [[path [[[|]]|]] [e|]]; simpl; try discriminate.
  intros H [= <-]. revert H. unfold putFile. simpl.
  destruct (osOpen env path) as [e|body]; [discriminate|].
  destruct (objectKeyOf os basePath objectPrefix path) as [e|key]; [discriminate|].
  destruct (putObject env bucketName key body) as [e|] eqn:Hput; [discriminate|].
  eauto.
Qed.

(** The uploads the walk logs are those of a prefix of its files, each
    with the key the mapping gives it, and of all its files when the walk
    ends without an error; the handles open before the walk are those
    open after it. *)
Lemma runVisits_putFile vs w :
  exists n,
    n <= length (filesOf vs) /\
    uploadsOf (trace (runVisits fn vs w).2) =
      uploadsOf (trace w) ++ omap keyed (take n (filesOf vs)) /\
    handles (runVisits fn vs w).2 = handles w /\
    files (runVisits fn vs w).2 = files w /\
    ((runVisits fn vs w).1 = None ->
     n = length (filesOf vs) /\
     objects (runVisits fn vs w).2 = foldl store (objects w) (filesOf vs)).
Proof.
  revert w. induction vs as [|v vs IH]; intros w.
  - exists 0. simpl. rewrite app_nil_r. repeat split; auto.
  - simpl.
    destruct (runVisit_putFile v w) as (evs & Ht & Hu & Hh & Hf & Hok & Herr).
    pose proof (runVisit_putFile_ok v w) as Hfile.
    destruct (runVisit fn v w) as [[e|] w'] eqn:E; simpl in *.
    + rewrite Ht, uploadsOf_app, Hu. unfold filesOf. simpl.
      destruct (walkedFile v) as [p|]; simpl.
      * destruct (osOpen env p).
        -- exists 0. rewrite ?take_0. simpl.
           split; [lia|]. repeat split; auto; discriminate.
        -- exists 1. simpl. rewrite ?take_0.
           split; [lia|]. repeat split; auto; discriminate.
      * exists 0. rewrite ?take_0. simpl.
        split; [lia|]. repeat split; auto; discriminate.
    + destruct (IH w') as (n & Hn & Hup & Hh' & Hf' & Hall).
      unfold filesOf. simpl. fold (filesOf vs).
      destruct (walkedFile v) as [p|]; simpl.
      * destruct (Hfile p eq_refl eq_refl) as (body & key & Ho & Hk & Hp).
        exists (S n). split; [lia|]. simpl.
        rewrite Hup, Ht, uploadsOf_app, Hu, Ho, <- app_assoc. simpl.
        split; [destruct (keyed p); reflexivity|].
        split; [congruence|]. split; [congruence|].
        intros Hr. destruct (Hall Hr) as (Hn' & Hobj).
        split; [by rewrite Hn'|].
        rewrite Hobj, Hok; reflexivity.
      * exists n. split; [exact Hn|].
        rewrite Hup, Ht, uploadsOf_app, Hu, app_nil_r.
        split; [reflexivity|]. split; [congruence|]. split; [congruence|].
        intros Hr. destruct (Hall Hr) as (Hn' & Hobj).
        split; [exact Hn'|].
        rewrite Hobj, Hok; reflexivity.
Qed.

End UploadFacts.

Section StoreFacts.

Context {K : Type} `{Countable K} {V A : Type}.
Variable f : A -> option K.
Variable g : A -> V.

(** Last writer wins: a key holds what the last item mapped to it
    wrote. *)
Lemma foldl_upd_keep l k v (m : gmap K V) :
  m !! k = Some v ->
  (forall y, In y l -> f y <> Some k) ->
  foldl (upd f g) m l !! k = Some v.
Proof.
  revert m. induction l as [|y l IH]; intros m Hm Hl; simpl; [exact Hm|].
  apply IH.
  - unfold upd. destruct (f y) as [k'|] eqn:E; [|exact Hm].
    rewrite lookup_insert_ne; [exact Hm|].
    intros ->. apply (Hl y); [by left | exact E].
  - intros y' Hy'. apply Hl. by right.
Qed.

Lemma foldl_upd_last l1 x l2 k (m : gmap K V) :
  f x = Some k ->
  (forall y, In y l2 -> f y <> Some k) ->
  foldl (upd f g) m (l1 ++ x :: l2) !! k = Some (g x).
Proof.
  intros Hx Hl. rewrite foldl_app. simpl. apply foldl_upd_keep; [|exact Hl].
  generalize (foldl (upd f g) m l1). intros m1.
  unfold upd. rewrite Hx. apply lookup_insert_eq.
Qed.

End StoreFacts.

Section PathFacts2.

Import Filepath.

(** [ToSlash] leaves a string alone when its only separators are
    slashes. *)
Lemma ToSlash_id os s :
  (forall c, In c (unstr s) -> c = Separator os -> c = "/"%char) ->
  ToSlash os s = s.
Proof.
  intros H. unfold ToSlash, toSlashL.
  destruct (Ascii.eqb (Separator os) "/"); [apply str_unstr|].
  rewrite <- (str_unstr s) at 2. f_equal.
  induction (unstr s) as [|c l IH]; simpl; [reflexivity|].
  rewrite IH by (intros; apply H; [by right | done]). f_equal.
  destruct (Ascii.eqb c (Separator os)) eqn:E; [|reflexivity].
  apply Ascii.eqb_eq in E. symmetry. apply H; [by left | exact E].
Qed.

Lemma ToSlash_unix s : ToSlash Unix s = s.
Proof. apply str_unstr. Qed.

(** After [ToSlash] the only separator left is the slash. *)
Lemma ToSlash_normalized os s c :
  In c (unstr (ToSlash os s)) -> IsPathSeparator os c = true -> c = "/"%char.
Proof.
  unfold ToSlash. rewrite unstr_str. unfold toSlashL.
  destruct os; simpl.
  - intros _ Hc. by apply Ascii.eqb_eq in Hc.
  - intros Hin Hc. apply in_map_iff in Hin as (d & Hd & _).
    destruct (Ascii.eqb d "\") eqn:E; [congruence|]. subst d.
    rewrite E in Hc. simpl in Hc. by apply Ascii.eqb_eq in Hc.
Qed.

End PathFacts2.

Section UploadClaims.

Import GoStrings Filepath.

Lemma objectKeyOf_single os basePath objectPrefix path :
  HasSuffix objectPrefix "/" = false ->
  objectKeyOf os basePath objectPrefix path = inr (ToSlash os objectPrefix).
Proof. intros H. unfold objectKeyOf. by rewrite H. Qed.

(** A walk in which no call fails ends without an error. *)
Lemma runVisits_succeeds os env basePath bucketName objectPrefix vs w :
  (forall p i e, In (p, i, e) vs -> i <> None /\ e = None) ->
  (forall p, In p (filesOf vs) ->
     exists body key,
       osOpen env p = inr body /\
       objectKeyOf os basePath objectPrefix p = inr key /\
       putObject env bucketName key body = None) ->
  (runVisits (putFile os env basePath bucketName objectPrefix) vs w).1 = None.
Proof.
  revert w. induction vs as [|[[p i] e] vs IH]; intros w Hv Hf; simpl; [reflexivity|].
  destruct (Hv p i e (or_introl eq_refl)) as (Hi & ->).
  assert (Hstep : (putFile os env basePath bucketName objectPrefix p i None
             (match i with
              | Some {| IsDir := true |} => emit (EvReadDir p) (emit (EvLstat p) w)
              | _ => emit (EvLstat p) w
              end)).1 = None).
  { destruct i as [[[|]]|]; [reflexivity | | congruence].
    destruct (Hf p) as (body & key & Ho & Hk & Hp); [unfold filesOf; simpl; by left|].
    unfold putFile. simpl. rewrite Ho, Hk, Hp. reflexivity. }
  destruct (putFile _ _ _ _ _ _ _ _ _) as [[e'|] w']; [discriminate|].
  apply IH.
  - intros p' i' e' Hin. apply (Hv p' i' e'). by right.
  - intros p' Hin. apply Hf. unfold filesOf. simpl.
    destruct i as [[[|]]|]; simpl; auto.
Qed.

Lemma foldl_same_key {A : Type} (k : string * string) (g : A -> bytes)
    (h : gmap (string * string) bytes -> A -> gmap (string * string) bytes)
    (m : gmap (string * string) bytes) l last :
  (forall m y, h m y = <[k := g y]> m) ->
  foldl h m (l ++ [last]) = <[k := g last]> m.
Proof.
  intros Hh. revert m. induction l as [|y l IH]; intros m; simpl; [apply Hh|].
  rewrite IH, Hh. apply insert_insert_eq.
Qed.

(** C5, as the program has it.  In an upload whose object key does not
    end with a slash every walked file gets the key [ToSlash objectPrefix]:
    the object key with the separators of the host replaced by slashes,
    which is the object key itself on Unix and whenever it holds no
    separator of the host other than the slash.  Computing the key never
    fails.  With several files the walk ends without an error when no call
    fails, and the object at that key is then the content of the last
    walked file. *)
Theorem C5_single_key_upload os env basePath bucket objectPrefix w :
  HasSuffix objectPrefix "/" = false ->
  let r := PutObjectsWithCseKms os env basePath bucket objectPrefix w in
  let vs := visits os basePath (fsAt env basePath) in
  let key := ToSlash os objectPrefix in
  (forall p, objectKeyOf os basePath objectPrefix p = inr key) /\
  ((forall c, In c (unstr objectPrefix) -> c = Separator os -> c = "/"%char) ->
   key = objectPrefix) /\
  (exists n,
     n <= length (filesOf vs) /\
     uploadsOf (trace r.2)
     = uploadsOf (trace w) ++ map (fun p => (p, key)) (take n (filesOf vs)) /\
     (r.1 = None -> n = length (filesOf vs))) /\
  ((forall p i e, In (p, i, e) vs -> i <> None /\ e = None) ->
   (forall p, In p (filesOf vs) ->
      exists body, osOpen env p = inr body /\ putObject env bucket key body = None) ->
   r.1 = None) /\
  (forall fs last,
     r.1 = None -> filesOf vs = fs ++ [last] ->
     objects r.2 = <[(bucket, key) := bodyAt env last]> (objects w)).
Proof.
  intros Hsuf r vs key.
  pose proof (objectKeyOf_single os basePath objectPrefix) as Hkey.
  split; [intros p; by apply Hkey|].
  split; [apply ToSlash_id|].
  subst r. unfold PutObjectsWithCseKms, Walk. rewrite visit_runVisits. fold vs.
  destruct (runVisits_putFile os env basePath bucket objectPrefix vs w)
    as (n & Hn & Hup & _ & _ & Hall).
  assert (Hkeyed : forall l, omap (keyAt os basePath objectPrefix) l
                             = map (fun p => (p, key)) l).
  { assert (Hk1 : forall p, keyAt os basePath objectPrefix p = Some (p, key)).
    { intros p. unfold keyAt. by rewrite Hkey. }
    induction l as [|p l IH]; [reflexivity|].
    cbn [omap list_omap map]. rewrite Hk1. by rewrite <- IH. }
  split; [|split].
  - exists n. split; [exact Hn|]. split.
    + rewrite Hup, Hkeyed. reflexivity.
    + intros Hr. by apply Hall.
  - intros Hv Hf. apply runVisits_succeeds; [exact Hv|].
    intros p Hp. destruct (Hf p Hp) as (body & Ho & Hput).
    exists body, key. rewrite Hkey by exact Hsuf. auto.
  - intros fs last Hr Hfs. destruct (Hall Hr) as (_ & Hobj).
    rewrite Hobj, Hfs.
    apply foldl_same_key.
    intros m p. unfold storeAt. by rewrite Hkey.
Qed.

End UploadClaims.

Section FailFast.

Import GoStrings Filepath.

Variable os : GOOS.
Variable env : Env.

Section Download.

Variables path bucketName objectPrefix : string.
Variable nkeys : nat.

Local Abbreviation dest := (localFilePathOf os path objectPrefix nkeys).
Local Abbreviation item := (getItem os env path bucketName objectPrefix nkeys).
Local Abbreviation loop := (getLoop os env path bucketName objectPrefix nkeys).
Local Abbreviation dstore :=
  (downloadStore os env path bucketName objectPrefix nkeys).

(** The calls of one item, after the creation of its directory, are an
    initial part of one fixed sequence: each call is made at most once. *)
Lemma getItem_calls k ds w :
  exists evs,
    trace (item k ds w).2 = trace w ++ EvMkdirAll (Dir os (dest k)) :: evs /\
    evs `prefix_of`
      [EvLogDownloading bucketName k (dest k); EvGetObject bucketName k;
       EvCreate (dest k); EvReadFrom (dest k)].
Proof.
  unfold getItem.
  destruct (mkdirAll env _) as [e|].
  { exists []. split; [reflexivity | apply prefix_nil]. }
  destruct (getObject env bucketName k) as [e|body].
  { eexists. split; [simpl; rewrite <- !app_assoc; reflexivity|].
    by eexists [_; _]. }
  destruct (osCreate env _) as [e|].
  { eexists. split; [simpl; rewrite <- !app_assoc; reflexivity|].
    by eexists [_]. }
  destruct (readFrom env _) as [[e n]|];
    (eexists; split; [simpl; rewrite <- !app_assoc; reflexivity|]);
    by exists [].
Qed.

(** One item writes no file other than its destination and no object. *)
Lemma getItem_frame k ds w d :
  d <> dest k ->
  files (item k ds w).2 !! d = files w !! d.
Proof.
  intros Hd. unfold getItem.
  destruct (mkdirAll env _) as [e|]; [reflexivity|].
  destruct (getObject env bucketName k) as [e|body]; [reflexivity|].
  destruct (osCreate env _) as [e|]; [reflexivity|].
  destruct (readFrom env _) as [[e n]|]; simpl;
    rewrite !lookup_insert_ne by congruence; reflexivity.
Qed.

Lemma getItem_success k ds w ds' w' :
  item k ds w = (None, ds', w') ->
  files w' = dstore (files w) k /\
  exists body, getObject env bucketName k = inr body.
Proof.
  unfold getItem, downloadStore.
  destruct (mkdirAll env _) as [e|]; [discriminate|].
  destruct (getObject env bucketName k) as [e|body]; [discriminate|].
  destruct (osCreate env _) as [e|]; [discriminate|].
  destruct (readFrom env _) as [[e n]|]; [discriminate|].
  intros [= _ <-]. simpl. split; [apply insert_insert_eq | eauto].
Qed.

Lemma getLoop_success keys ds w ds' w' :
  loop keys ds w = (None, ds', w') ->
  files w' = foldl dstore (files w) keys /\
  Forall (fun k => exists body, getObject env bucketName k = inr body) keys.
Proof.
  revert ds w. induction keys as [|k keys IH]; intros ds w; simpl.
  - intros [= _ <-]. auto.
  - destruct (item k ds w) as [[[e|] ds1] w1] eqn:E; [discriminate|].
    intros Hl. destruct (getItem_success _ _ _ _ _ E) as (Hf & Hb).
    destruct (IH _ _ Hl) as (Hf' & Hall).
    split; [by rewrite Hf', Hf | by constructor].
Qed.

(** A file downloaded without an error keeps its content as long as no
    later item has the same destination. *)
Lemma foldl_dstore_last (a : list string) (k : string) (b : list string)
    (m : gmap string bytes) (body : bytes) :
  getObject env bucketName k = inr body ->
  (forall y, In y b -> dest y <> dest k) ->
  foldl dstore m (a ++ k :: b) !! dest k = Some body.
Proof.
  intros Hget Hb.
  set (f := fun y => match getObject env bucketName y with
                     | inr _ => Some (dest y) | inl _ => None end).
  set (g := fun y => match getObject env bucketName y with
                     | inr body => body | inl _ => [] end).
  assert (Hfold : forall l m, foldl dstore m l = foldl (upd f g) m l).
  { induction l as [|y l IH]; intros m'; simpl; [reflexivity|].
    rewrite IH. f_equal. unfold downloadStore, upd, f, g.
    destruct (getObject env bucketName y); reflexivity. }
  rewrite Hfold.
  replace body with (g k) by (unfold g; by rewrite Hget).
  apply foldl_upd_last.
  - unfold f. by rewrite Hget.
  - intros y Hy. unfold f. destruct (getObject env bucketName y); [discriminate|].
    intros [= Heq]. by apply (Hb y).
Qed.

End Download.

Section Upload.

Variables basePath bucketName objectPrefix : string.

Local Abbreviation store := (storeAt os env basePath bucketName objectPrefix).

(** An object uploaded without an error keeps its content as long as no
    later file has the same key. *)
Lemma foldl_store_last (a : list string) (p : string) (b : list string)
    (m : gmap (string * string) bytes) (key : string) :
  objectKeyOf os basePath objectPrefix p = inr key ->
  (forall q, In q b -> objectKeyOf os basePath objectPrefix q <> inr key) ->
  foldl store m (a ++ p :: b) !! (bucketName, key) = Some (bodyAt env p).
Proof.
  intros Hkey Hb.
  set (f := fun q => match objectKeyOf os basePath objectPrefix q with
                     | inr k => Some (bucketName, k) | inl _ => None end).
  assert (Hfold : forall l m, foldl store m l = foldl (upd f (bodyAt env)) m l).
  { induction l as [|y l IH]; intros m'; simpl; [reflexivity|].
    rewrite IH. f_equal. unfold storeAt, upd, f.
    destruct (objectKeyOf os basePath objectPrefix y); reflexivity. }
  rewrite Hfold. apply foldl_upd_last.
  - unfold f. by rewrite Hkey.
  - intros q Hq. unfold f.
    destruct (objectKeyOf os basePath objectPrefix q) eqn:E; [discriminate|].
    intros [= Heq]. apply (Hb q Hq). congruence.
Qed.

End Upload.

(** C6, as the program has it.  When the [i]-th item fails, the run ends
    at once with the error that item returns.  The
    items before it have been transferred and are not undone: each is
    found at its destination unless a later attempted item has the same
    destination.  The failing item itself is attempted once, each of its
    calls being made at most once, and the items after it are not
    attempted: the only events after it are the deferred closes. *)
Theorem C6_fail_fast :
  (forall path bucket prefix w pre k post w0 ds1 w1 e ds2 w2,
     let n := length (pre ++ k :: post) in
     let dest := localFilePathOf os path prefix n in
     listKeys env bucket prefix w = (inr (pre ++ k :: post), w0) ->
     getLoop os env path bucket prefix n pre [] w0 = (None, ds1, w1) ->
     getItem os env path bucket prefix n k ds1 w1 = (Some e, ds2, w2) ->
     let r := GetObjectsWithCseKms os env path bucket prefix w in
     r = (Some e, runDefers ds2 w2) /\
     files w1 = foldl (downloadStore os env path bucket prefix n) (files w) pre /\
     (forall a kj b,
        pre = a ++ kj :: b ->
        (forall y, In y (b ++ [k]) -> dest y <> dest kj) ->
        exists body,
          getObject env bucket kj = inr body /\
          files r.2 !! dest kj = Some body) /\
     (exists evs,
        trace r.2
        = trace w1 ++ EvMkdirAll (Dir os (dest k)) :: evs ++ map EvClose ds2 /\
        evs `prefix_of`
          [EvLogDownloading bucket k (dest k); EvGetObject bucket k;
           EvCreate (dest k); EvReadFrom (dest k)])) /\
  (forall basePath bucket prefix w pre v post w1 e w2,
     let fn := putFile os env basePath bucket prefix in
     visits os basePath (fsAt env basePath) = pre ++ v :: post ->
     runVisits fn pre w = (None, w1) ->
     runVisit fn v w1 = (Some e, w2) ->
     let r := PutObjectsWithCseKms os env basePath bucket prefix w in
     r = (Some e, w2) /\
     objects r.2
     = foldl (storeAt os env basePath bucket prefix) (objects w) (filesOf pre) /\
     (forall a p b key,
        filesOf pre = a ++ p :: b ->
        objectKeyOf os basePath prefix p = inr key ->
        (forall q, In q b -> objectKeyOf os basePath prefix q <> inr key) ->
        objects r.2 !! (bucket, key) = Some (bodyAt env p)) /\
     (exists evs,
        trace r.2 = trace w1 ++ evs /\ length (uploadsOf evs) <= 1)).
Proof.
  split.
  - intros path bucket prefix w pre k post w0 ds1 w1 e ds2 w2 n dest
      Hlist Hpre Hitem r.
    assert (Hr : r = (Some e, runDefers ds2 w2)).
    { subst r. unfold GetObjectsWithCseKms. rewrite Hlist. fold n.
      rewrite getLoop_app, Hpre. simpl. rewrite Hitem. reflexivity. }
    assert (Hw0 : files w0 = files w).
    { revert Hlist. unfold listKeys.
      destruct (HasSuffix prefix "/");
        [destruct (listObjectsV2 env bucket prefix)|]; intros [= _ <-]; reflexivity. }
    destruct (getLoop_success _ _ _ _ _ _ _ _ _ Hpre) as (Hf1 & Hall).
    rewrite Hw0 in Hf1.
    split; [exact Hr|]. split; [exact Hf1|]. split.
    + intros a kj b Hsplit Hlater.
      assert (Hkj : exists body, getObject env bucket kj = inr body).
      { rewrite Forall_forall in Hall. apply Hall. rewrite Hsplit.
        apply list_elem_of_In, in_app_iff. right. by left. }
      destruct Hkj as (body & Hbody). exists body. split; [exact Hbody|].
      rewrite Hr. simpl. rewrite files_runDefers.
      pose proof (getItem_frame path bucket prefix n k ds1 w1 (dest kj)) as Hfr.
      rewrite Hitem in Hfr. simpl in Hfr. rewrite Hfr.
      * rewrite Hf1, Hsplit. apply foldl_dstore_last; [exact Hbody|].
        intros y Hy. apply Hlater, in_app_iff. by left.
      * intros Heq. apply (Hlater k); [apply in_app_iff; right; by left|].
        by symmetry.
    + destruct (getItem_calls path bucket prefix n k ds1 w1) as (evs & Ht & Hp).
      rewrite Hitem in Ht. simpl in Ht. exists evs. split; [|exact Hp].
      rewrite Hr. simpl. rewrite trace_runDefers, Ht, <- app_assoc. reflexivity.
  - intros basePath bucket prefix w pre v post w1 e w2 fn Hvs Hpre Hv r.
    assert (Hr : r = (Some e, w2)).
    { subst r. unfold PutObjectsWithCseKms, Walk.
      rewrite visit_runVisits, Hvs, runVisits_app. fold fn. rewrite Hpre.
      simpl. fold fn. rewrite Hv. reflexivity. }
    destruct (runVisits_putFile os env basePath bucket prefix pre w)
      as (n & _ & _ & _ & _ & Hall).
    fold fn in Hall. rewrite Hpre in Hall. destruct (Hall eq_refl) as (_ & Hobj).
    destruct (runVisit_putFile os env basePath bucket prefix v w1)
      as (evs & Ht & Hu & _ & _ & _ & Herr).
    fold fn in Ht, Herr. rewrite Hv in Ht, Herr. simpl in *.
    assert (Hobj2 : objects w2 = foldl (storeAt os env basePath bucket prefix)
                                   (objects w) (filesOf pre)).
    { rewrite Herr by discriminate. exact Hobj. }
    split; [exact Hr|]. rewrite Hr. simpl. split; [exact Hobj2|]. split.
    + intros a p b key Hsplit Hkey Hlater.
      rewrite Hobj2, Hsplit. by apply foldl_store_last.
    + exists evs. split; [exact Ht|]. rewrite Hu.
      destruct (walkedFile v) as [p|]; simpl; [|lia].
      destruct (osOpen env p); simpl; [lia|].
      destruct (keyAt os basePath prefix p); simpl; lia.
Qed.

End FailFast.

Section ConcreteRuns.

Import GoStrings Filepath.

Lemma C5_single_key_upload_witness :
  let r := PutObjectsWithCseKms Unix (quietEnv [] threeFiles)
             "/data" "b" "key.bin" emptyWorld in
  objects r.2 = <[("b", "key.bin") := unstr "/data/c"]> ∅.
Proof.
  intros r.
  destruct (C5_single_key_upload Unix (quietEnv [] threeFiles)
              "/data" "b" "key.bin" emptyWorld eq_refl)
    as (_ & _ & _ & _ & Hlast).
  exact (Hlast ["/data/a"; "/data/b"] "/data/c" eq_refl eq_refl).
Defined.

(** On Windows an object key with a backslash is not used as it is. *)
Lemma C5_counterexample :
  let r := PutObjectsWithCseKms Windows (quietEnv [] NFile)
             "f.txt" "b" "a\b" emptyWorld in
  HasSuffix "a\b" "/" = false /\
  r.1 = None /\
  uploadsOf (trace r.2) = [("f.txt", "a/b")] /\
  "a/b" <> "a\b".
Proof. vm_compute. repeat split; congruence. Qed.

Lemma C6_fail_fast_witness :
  (GetObjectsWithCseKms Unix deniedEnv "/out" "b" "p/" emptyWorld).1
  = Some (ErrNew "error while decrypting: denied") /\
  (PutObjectsWithCseKms Unix rejectEnv "/data" "b" "in/" emptyWorld).1
  = Some (ErrWrap "failed to upload /data/b → b/in/b: " (ErrNew "rejected")).
Proof.
  split.
  - destruct (proj1 (C6_fail_fast Unix deniedEnv)
                "/out" "b" "p/" emptyWorld ["p/a"] "p/b" ["p/c"]
                _ _ _ _ _ _ eq_refl eq_refl eq_refl) as (Hr & _).
    rewrite Hr. reflexivity.
  - destruct (proj2 (C6_fail_fast Unix rejectEnv)
                "/data" "b" "in/" emptyWorld
                [("/data", Some (mkInfo true), None);
                 ("/data/a", Some (mkInfo false), None)]
                ("/data/b", Some (mkInfo false), None)
                [("/data/c", Some (mkInfo false), None)]
                _ _ _ eq_refl eq_refl eq_refl) as (Hr & _).
    rewrite Hr. reflexivity.
Defined.

(** The third item fails after the second one has replaced the file of
    the first one; and an only item that fails while its body is written
    was attempted, its destination holding the two bytes written. *)
Lemma C6_counterexample :
  (let r := GetObjectsWithCseKms Unix diskFullEnv "/out" "b" "key" emptyWorld in
   r.1 = Some (ErrWrap "error write file: " (ErrNew "no space left on device")) /\
   In (EvGetObject "b" "key") (trace r.2) /\
   In (EvCreate "/out/key") (trace r.2) /\
   files r.2 !! "/out/key" = Some (unstr "ke")) /\
  (let r := GetObjectsWithCseKms Unix overwriteEnv "/out" "b" "p/" emptyWorld in
   r.1 = Some (ErrNew "error while decrypting: denied") /\
   downloadsOf (trace r.2)
   = [("p/a", "/out/a"); ("p//a", "/out/a"); ("p/c", "/out/c")] /\
   files r.2 !! "/out/a" = Some (unstr "p//a") /\
   unstr "p//a" <> unstr "p/a").
Proof. vm_compute. repeat split; auto 10; discriminate. Qed.

(** Every item that is downloaded without an error leaves two more
    handles open: after the loop all of them are still open. *)
Lemma getLoop_handles_accumulate os env path bucket prefix nkeys keys ds w ds' w' :
  getLoop os env path bucket prefix nkeys keys ds w = (None, ds', w') ->
  exists opened,
    length opened = 2 * length keys /\
    ds' = opened ++ ds /\
    handles w' = opened ++ handles w.
Proof.
  revert ds w. induction keys as [|k keys IH]; intros ds w; simpl.
  - intros [= <- <-]. exists []. auto.
  - destruct (getItem os env path bucket prefix nkeys k ds w)
      as [[[e|] ds1] w1] eqn:E; [discriminate|].
    intros Hl. destruct (IH _ _ Hl) as (opened & Hlen & Hds & Hh).
    revert E. unfold getItem.
    destruct (mkdirAll env _) as [e|]; [discriminate|].
    destruct (getObject env bucket k) as [e|body]; [discriminate|].
    destruct (osCreate env _) as [e|]; [discriminate|].
    destruct (readFrom env _) as [[e n]|]; [discriminate|].
    intros [= <- <-]. simpl in Hh.
    eexists (opened ++ [_; _]). rewrite length_app, <- !app_assoc. simpl.
    split; [lia|]. split; [exact Hds | exact Hh].
Qed.

(** C9 fails for downloads.  With two members in the listing the body
    and the file of the first item are closed only when the function
    returns, after every call of the second item: a [defer] in the loop
    runs at the end of the function. *)
Theorem C9_download_handles_stay_open :
  let env := quietEnv ["p/a"; "p/b"] NFile in
  (getLoop Unix env "/out" "b" "p/" 2 ["p/a"] [] emptyWorld).1.2
  = [HFile "/out/a"; HBody "b" "p/a"] /\
  handles (getLoop Unix env "/out" "b" "p/" 2 ["p/a"] [] emptyWorld).2
  = [HFile "/out/a"; HBody "b" "p/a"] /\
  trace (GetObjectsWithCseKms Unix env "/out" "b" "p/" emptyWorld).2
  = [ EvListObjectsV2 "b" "p/";
      EvMkdirAll "/out"; EvLogDownloading "b" "p/a" "/out/a";
      EvGetObject "b" "p/a"; EvCreate "/out/a"; EvReadFrom "/out/a";
      EvMkdirAll "/out"; EvLogDownloading "b" "p/b" "/out/b";
      EvGetObject "b" "p/b"; EvCreate "/out/b"; EvReadFrom "/out/b";
      EvClose (HFile "/out/b"); EvClose (HBody "b" "p/b");
      EvClose (HFile "/out/a"); EvClose (HBody "b" "p/a") ].
Proof. vm_compute. auto. Qed.

(** Uploads do release per item: the file of a walked item is closed
    before the walk goes on. *)
Example upload_handles_released :
  trace (PutObjectsWithCseKms Unix (quietEnv [] threeFiles)
           "/data" "b" "in/" emptyWorld).2
  = [ EvLstat "/data"; EvReadDir "/data";
      EvLstat "/data/a"; EvOpen "/data/a"; EvLogUploading "/data/a" "b" "in/a";
      EvPutObject "b" "in/a" "/data/a"; EvClose (HFile "/data/a");
      EvLstat "/data/b"; EvOpen "/data/b"; EvLogUploading "/data/b" "b" "in/b";
      EvPutObject "b" "in/b" "/data/b"; EvClose (HFile "/data/b");
      EvLstat "/data/c"; EvOpen "/data/c"; EvLogUploading "/data/c" "b" "in/c";
      EvPutObject "b" "in/c" "/data/c"; EvClose (HFile "/data/c") ].
Proof. vm_compute. reflexivity. Qed.

End ConcreteRuns.

Section CleanFacts.

Import GoStrings Filepath.

Variable os : GOOS.

Local Abbreviation sep := (Separator os).

Lemma plainL_spec e :
  plainL os e = true <->
  sepFree os e = true /\ e <> [] /\ e <> dot /\ e <> dotdot.
Proof.
  unfold plainL, eqbL. rewrite !andb_true_iff, !negb_true_iff.
  rewrite !bool_decide_eq_false. tauto.
Qed.

Lemma plainL_elemOK e : plainL os e = true -> elemOK os e.
Proof. rewrite plainL_spec. unfold elemOK. tauto. Qed.

Lemma cleanStep_plain rooted out e :
  plainL os e = true -> cleanStep rooted out e = e :: out.
Proof.
  rewrite plainL_spec. intros (_ & _ & Hd & Hdd). unfold cleanStep, eqbL.
  rewrite !bool_decide_eq_false_2 by assumption. reflexivity.
Qed.

Lemma fields_sepFree e cur :
  sepFree os e = true ->
  fields os e cur = match rev cur ++ e with [] => [] | l => [l] end.
Proof.
  revert cur. induction e as [|c e IH]; intros cur He; simpl.
  - rewrite app_nil_r. destruct cur as [|d cur]; [reflexivity|].
    simpl. destruct (rev cur ++ [d]) eqn:E; [|reflexivity].
    by destruct (rev cur).
  - simpl in He. apply andb_true_iff in He as (Hc & He).
    apply negb_true_iff in Hc. rewrite Hc, IH by exact He.
    simpl. rewrite <- app_assoc. reflexivity.
Qed.

Lemma fields_elem e :
  sepFree os e = true -> e <> [] -> fields os e [] = [e].
Proof.
  intros He Hne. rewrite fields_sepFree by exact He. simpl.
  destruct e; congruence.
Qed.

Lemma joinL_cons e es :
  es <> [] -> joinL [sep] (e :: es) = e ++ sep :: joinL [sep] es.
Proof. destruct es; [congruence | reflexivity]. Qed.

Lemma joinL_app l1 l2 :
  l1 <> [] -> l2 <> [] ->
  joinL [sep] (l1 ++ l2) = joinL [sep] l1 ++ sep :: joinL [sep] l2.
Proof.
  intros H1 H2. induction l1 as [|e l1 IH]; [congruence|].
  destruct l1 as [|e' l1].
  - simpl app at 1. rewrite joinL_cons by exact H2. reflexivity.
  - change ((e :: e' :: l1) ++ l2) with (e :: (e' :: l1) ++ l2).
    rewrite joinL_cons by discriminate.
    rewrite IH by discriminate.
    rewrite (joinL_cons e (e' :: l1)) by discriminate.
    rewrite <- app_assoc. reflexivity.
Qed.

Lemma fields_joinL es :
  Forall (elemOK os) es -> fields os (joinL [sep] es) [] = es.
Proof.
  induction 1 as [|e es (He & Hne & _) Hes IH]; [reflexivity|].
  destruct es as [|e' es].
  - simpl. by apply fields_elem.
  - rewrite joinL_cons by discriminate.
    rewrite fields_app_sep by apply sep_is_sep.
    rewrite fields_elem by assumption. rewrite IH. reflexivity.
Qed.

(** The first byte of a joined list of elements is not a separator. *)
Lemma isRooted_joinL es :
  Forall (elemOK os) es -> isRooted os (joinL [sep] es) = false.
Proof.
  intros H. destruct H as [|e es (He & Hne & _) Hes]; [reflexivity|].
  assert (Hhd : isRooted os (e ++ sep :: joinL [sep] es) = false
                /\ isRooted os e = false).
  { destruct e as [|c e]; [congruence|]. simpl in *.
    apply andb_true_iff in He as (Hc & _). apply negb_true_iff in Hc. auto. }
  destruct es; [apply Hhd | rewrite joinL_cons by discriminate; apply Hhd].
Qed.

Lemma cleanStep_dotdotsFirst rooted out e :
  dotdotsFirst rooted out -> dotdotsFirst rooted (cleanStep rooted out e).
Proof.
  intros Hout. unfold cleanStep, eqbL.
  case_bool_decide as Hd; [exact Hout|].
  case_bool_decide as Hdd.
  - subst e. destruct out as [|top out'].
    + destruct rooted; simpl; auto.
    + case_bool_decide as Htop.
      * subst top. simpl in *. destruct Hout as (Htop & Hrest).
        destruct (Htop eq_refl) as (Hr & Hall).
        split; [intros _; split; [exact Hr | by constructor] |].
        split; [auto | exact Hrest].
      * apply Hout.
  - simpl. split; [congruence | exact Hout].
Qed.

Lemma cleanStep_elemOK rooted out e :
  Forall (elemOK os) out -> sepFree os e = true -> e <> [] ->
  Forall (elemOK os) (cleanStep rooted out e).
Proof.
  intros Hout He Hne. unfold cleanStep, eqbL.
  case_bool_decide as Hd; [exact Hout|].
  assert (He' : elemOK os e) by (unfold elemOK; auto).
  case_bool_decide as Hdd.
  - destruct out as [|top out'].
    + destruct rooted; auto.
    + case_bool_decide; [by constructor | by inversion Hout].
  - by constructor.
Qed.

Lemma fields_all s cur :
  sepFree os cur = true ->
  Forall (fun e => sepFree os e = true /\ e <> []) (fields os s cur).
Proof.
  assert (Hrev : forall c, sepFree os c = true -> c <> [] ->
                 sepFree os (rev c) = true /\ rev c <> []).
  { intros c Hc Hne. split.
    - unfold sepFree in *. rewrite forallb_forall in *.
      intros x Hx. apply Hc. by apply in_rev.
    - intros E. apply Hne. rewrite <- (rev_involutive c), E. reflexivity. }
  revert cur. induction s as [|c s IH]; intros cur Hcur; simpl.
  - destruct cur as [|d cur]; [constructor|].
    constructor; [|constructor]. by apply Hrev.
  - destruct (IsPathSeparator os c) eqn:Ec.
    + destruct cur as [|d cur]; [by apply IH|].
      constructor; [by apply Hrev | by apply IH].
    + apply IH. simpl. by rewrite Ec.
Qed.

Lemma fold_cleanStep_normal rooted es out :
  Forall (fun e => sepFree os e = true /\ e <> []) es ->
  normalStack os rooted out ->
  normalStack os rooted (fold_left (cleanStep rooted) es out).
Proof.
  intros Hes. revert out.
  induction Hes as [|e es (He & Hne) _ IH]; intros out (Hd & Hok); simpl.
  - by split.
  - apply IH. split;
      [by apply cleanStep_dotdotsFirst | by apply cleanStep_elemOK].
Qed.

(** The output of [Clean] is a normal stack. *)
Lemma cleanOut_normal s : normalStack os (isRooted os s) (cleanOut os s).
Proof.
  unfold cleanOut. apply fold_cleanStep_normal.
  - by apply fields_all.
  - split; [exact I | constructor].
Qed.

(** Cleaning the elements of a normal stack gives the stack back. *)
Lemma fold_cleanStep_id rooted out :
  normalStack os rooted out ->
  fold_left (cleanStep rooted) (rev out) [] = out.
Proof.
  induction out as [|e out IH]; intros (Hd & Hok); [reflexivity|].
  simpl in Hd. destruct Hd as (He & Hd). inversion Hok as [|? ? Hek Hok']; subst.
  simpl. rewrite fold_left_app. simpl. rewrite IH by (by split).
  destruct Hek as (_ & _ & Hnd).
  unfold cleanStep, eqbL. rewrite bool_decide_eq_false_2 by exact Hnd.
  case_bool_decide as Hdd; [|reflexivity].
  destruct (He Hdd) as (Hr & Hall). subst rooted.
  destruct out as [|top out']; [reflexivity|].
  inversion Hall; subst. rewrite bool_decide_eq_true_2 by reflexivity.
  reflexivity.
Qed.

Lemma isRooted_render rooted out :
  Forall (elemOK os) out -> isRooted os (render os rooted out) = rooted.
Proof.
  intros Hok. unfold render. destruct rooted.
  - simpl. apply sep_is_sep.
  - destruct out as [|e out]; [destruct os; reflexivity|].
    apply isRooted_joinL. apply Forall_rev. exact Hok.
Qed.

(** [Clean] is the identity on its own output. *)
Lemma cleanOut_render rooted out :
  normalStack os rooted out -> cleanOut os (render os rooted out) = out.
Proof.
  intros Hn. pose proof Hn as (_ & Hok). unfold cleanOut.
  rewrite isRooted_render by exact Hok.
  assert (Hrev : Forall (elemOK os) (rev out)) by (by apply Forall_rev).
  unfold render. destruct rooted.
  - simpl. rewrite sep_is_sep, fields_joinL by exact Hrev.
    by apply fold_cleanStep_id.
  - destruct out as [|e out]; [destruct os; reflexivity|].
    rewrite fields_joinL by exact Hrev. by apply fold_cleanStep_id.
Qed.

Lemma normalStack_push rooted out e :
  normalStack os rooted out -> plainL os e = true -> normalStack os rooted (e :: out).
Proof.
  intros (Hd & Hok) He. pose proof (proj1 (plainL_spec e) He) as (_ & _ & _ & Hdd).
  split; [simpl; split; [congruence | exact Hd] |].
  constructor; [by apply plainL_elemOK | exact Hok].
Qed.

(** One step of the walk: the path of an entry is the path of its
    directory with one more element. *)
Lemma Join_entry path name :
  plain os name = true ->
  Join os [path; name]
  = str (render os (isRooted os (unstr path))
           (unstr name :: cleanOut os (unstr path))).
Proof.
  intros Hn. unfold plain in Hn.
  pose proof (proj1 (plainL_spec _) Hn) as (Hsf & Hne & _).
  unfold Join. simpl. destruct (unstr path) as [|c p] eqn:Ep.
  - destruct (unstr name) as [|d n] eqn:En; [congruence|].
    simpl joinRaw. cbv iota. f_equal. unfold cleanL, cleanOut.
    rewrite <- En in *. simpl joinL.
    assert (Hr : isRooted os (unstr name) = false).
    { rewrite En in *. simpl in *. apply andb_true_iff in Hsf as (Hc & _).
      by apply negb_true_iff in Hc. }
    rewrite Hr, fields_elem by assumption. simpl.
    rewrite cleanStep_plain by exact Hn. reflexivity.
  - f_equal. simpl joinL. unfold cleanL, cleanOut.
    change (c :: p ++ sep :: unstr name) with ((c :: p) ++ sep :: unstr name).
    rewrite isRooted_app by discriminate.
    rewrite fields_app_sep by apply sep_is_sep.
    rewrite fold_left_app, fields_elem by assumption. simpl.
    rewrite cleanStep_plain by exact Hn. reflexivity.
Qed.

(** The path of an entry some levels below [path]. *)
Lemma below_render path names :
  Forall (fun name => plain os name = true) names ->
  names <> [] ->
  below os path names
  = str (render os (isRooted os (unstr path))
           (rev (map unstr names) ++ cleanOut os (unstr path))).
Proof.
  intros Hall. revert path.
  induction Hall as [|name names Hn Hall IH]; intros path Hne; [congruence|].
  unfold below in *. simpl foldl. rewrite Join_entry by exact Hn.
  destruct names as [|name' names].
  - reflexivity.
  - rewrite IH by discriminate. rewrite unstr_str.
    assert (Hns : normalStack os (isRooted os (unstr path))
                    (unstr name :: cleanOut os (unstr path))).
    { apply normalStack_push; [apply cleanOut_normal | exact Hn]. }
    rewrite isRooted_render by apply Hns.
    rewrite cleanOut_render by exact Hns.
    simpl. rewrite <- !app_assoc. reflexivity.
Qed.

End CleanFacts.

Section RelFacts.

Import GoStrings Filepath.

Variable os : GOOS.

Local Abbreviation sep := (Separator os).

Lemma sameWord_refl a : sameWord os a a = true.
Proof. destruct os; simpl; unfold eqbL; by apply bool_decide_eq_true_2. Qed.

Lemma sameWord_length a b : sameWord os a b = true -> length a = length b.
Proof.
  destruct os; simpl; unfold eqbL; intros H%bool_decide_eq_true.
  - by subst.
  - apply (f_equal length) in H. by rewrite !length_map in H.
Qed.

Lemma lower_dot c : lower c = "."%char -> c = "."%char.
Proof.
  destruct c as [[] [] [] [] [] [] [] []]; vm_compute; intros H;
    first [reflexivity | discriminate H].
Qed.

Lemma sameWord_dot a : sameWord os a dot = true -> a = dot.
Proof.
  intros H. pose proof (sameWord_length _ _ H) as Hl.
  destruct a as [|c [|d a]]; try discriminate Hl.
  destruct os; simpl in H; unfold eqbL in H; apply bool_decide_eq_true in H.
  - exact H.
  - simpl in H. injection H as H. apply lower_dot in H. by subst.
Qed.

Lemma sep_not_dot : sep <> "."%char.
Proof. destruct os; discriminate. Qed.

Lemma sepFree_not_sep e c : sepFree os e = true -> In c e -> c <> sep.
Proof.
  unfold sepFree. rewrite forallb_forall. intros H Hc ->.
  apply H in Hc. rewrite sep_is_sep in Hc. discriminate.
Qed.

Lemma span_app p l a b x rest :
  span p l = (a, b) -> p x = false ->
  span p (l ++ x :: rest) = (a, b ++ x :: rest).
Proof.
  revert a b. induction l as [|c l IH]; intros a b; simpl.
  - intros [= <- <-] Hx. by rewrite Hx.
  - destruct (p c).
    + destruct (span p l) as [a' b'] eqn:E. intros [= <- <-] Hx.
      by rewrite (IH a' b' eq_refl Hx).
    + intros [= <- <-] _. reflexivity.
Qed.

Lemma span_split p l a b :
  span p l = (a, b) ->
  l = a ++ b /\ match b with [] => True | c :: _ => p c = false end.
Proof.
  revert a b. induction l as [|c l IH]; intros a b; simpl.
  - intros [= <- <-]. auto.
  - destruct (p c) eqn:Ec.
    + destruct (span p l) as [a' b'] eqn:E. intros [= <- <-].
      destruct (IH a' b' eq_refl) as (-> & Hb). auto.
    + intros [= <- <-]. simpl. auto.
Qed.

(** The loop of [Rel] runs through a base that the target extends by
    one separator and more. *)
Lemma relLoop_prefix fuel b t' :
  endsPlain os b -> length b < fuel ->
  relLoop os fuel b (b ++ sep :: t') = ([], [], t').
Proof.
  revert b. induction fuel as [|fuel IH]; intros b Hend Hlen; [lia|].
  destruct Hend as (x & c & Hb & Hc).
  simpl. destruct b as [|b0 b1] eqn:Eb; [by destruct x|].
  rewrite <- Eb in *. clear Eb b0 b1.
  destruct (b ++ sep :: t') as [|t0 t1] eqn:Et; [by destruct b|].
  rewrite <- Et. clear Et t0 t1.
  destruct (span (notSep os) b) as [bw b'] eqn:Es.
  assert (Hsep : notSep os sep = false).
  { unfold notSep. by rewrite Ascii.eqb_refl. }
  rewrite (span_app _ _ _ _ _ t' Es Hsep).
  rewrite sameWord_refl.
  destruct (span_split _ _ _ _ Es) as (Hsplit & Hhead).
  destruct b' as [|c' b''].
  - simpl. destruct fuel; [reflexivity | destruct t'; reflexivity].
  - simpl. unfold notSep in Hhead. apply negb_false_iff, Ascii.eqb_eq in Hhead.
    subst c'.
    assert (Hend' : endsPlain os b'').
    { destruct b'' as [|d b3 _] using rev_ind.
      - exfalso. rewrite Hb in Hsplit.
        apply app_inj_tail in Hsplit as (_ & Hcs). congruence.
      - exists b3, d. split; [reflexivity|].
        rewrite Hb in Hsplit.
        change (bw ++ sep :: b3 ++ [d]) with (bw ++ (sep :: b3) ++ [d]) in Hsplit.
        rewrite app_assoc in Hsplit.
        apply app_inj_tail in Hsplit as (_ & Hcd). congruence. }
    apply IH; [exact Hend'|].
    rewrite Hsplit, length_app in Hlen. simpl in Hlen. lia.
Qed.

Lemma joinL_endsPlain es :
  Forall (elemOK os) es -> es <> [] -> endsPlain os (joinL [sep] es).
Proof.
  intros Hes Hne. destruct es as [|e es _] using rev_ind; [congruence|].
  apply Forall_app in Hes as (_ & He). inversion He as [|? ? (Hsf & Hn & _) _]; subst.
  destruct e as [|c e _] using rev_ind; [congruence|].
  assert (Hc : c <> sep).
  { apply (sepFree_not_sep (e ++ [c])); [exact Hsf | apply in_app_iff; right; by left]. }
  destruct es as [|e0 es0].
  - exists e, c. simpl. auto.
  - rewrite joinL_app by discriminate.
    exists (joinL [sep] (e0 :: es0) ++ sep :: e), c. simpl joinL at 2.
    split; [|exact Hc]. rewrite <- app_assoc. reflexivity.
Qed.

Lemma joinL_nonempty es :
  Forall (elemOK os) es -> es <> [] -> joinL [sep] es <> [].
Proof.
  intros Hes Hne. destruct (joinL_endsPlain es Hes Hne) as (x & c & -> & _).
  by destruct x.
Qed.

Lemma joinL_not_dot es :
  Forall (elemOK os) es -> es <> [] -> joinL [sep] es <> dot.
Proof.
  intros Hes Hne. destruct es as [|e es]; [congruence|].
  inversion Hes as [|? ? (Hsf & Hn & Hd) Hes']; subst.
  destruct es as [|e' es]; [exact Hd|].
  rewrite joinL_cons by discriminate.
  destruct e as [|c e]; [congruence|].
  destruct e; simpl; discriminate.
Qed.

Lemma startsWithSep_rooted s :
  startsWithSep os s = true -> isRooted os s = true.
Proof.
  destruct s as [|c s]; simpl; [discriminate|].
  intros ->%Ascii.eqb_eq. apply sep_is_sep.
Qed.

Lemma startsWithSep_joinL es :
  Forall (elemOK os) es -> startsWithSep os (joinL [sep] es) = false.
Proof.
  intros Hes. destruct (startsWithSep os _) eqn:E; [|reflexivity].
  apply startsWithSep_rooted in E. by rewrite isRooted_joinL in E.
Qed.

Lemma normalStack_push_all rooted out ns :
  normalStack os rooted out ->
  Forall (fun e => plainL os e = true) ns ->
  normalStack os rooted (rev ns ++ out).
Proof.
  intros Hout Hns. revert out Hout.
  induction Hns as [|e ns He _ IH]; intros out Hout; [exact Hout|].
  simpl. rewrite <- app_assoc. simpl. apply IH. by apply normalStack_push.
Qed.

(** [Rel] from a base to an entry below it is the list of the entry
    names, joined. *)
Lemma Rel_below base names :
  Forall (fun name => plain os name = true) names ->
  names <> [] ->
  Rel os base (below os base names)
  = inr (str (joinL [sep] (map unstr names))) /\
  str (joinL [sep] (map unstr names)) <> ".".
Proof.
  intros Hall Hne.
  set (ns := map unstr names).
  assert (Hns : Forall (fun e => plainL os e = true) ns).
  { subst ns. apply Forall_map. exact Hall. }
  assert (Hnsne : ns <> []) by (subst ns; by destruct names).
  assert (Hnsok : Forall (elemOK os) ns).
  { eapply Forall_impl; [exact Hns|]. intros e. apply plainL_elemOK. }
  set (J := joinL [sep] ns).
  assert (HJne : J <> []) by (by apply joinL_nonempty).
  assert (HJdot : J <> dot) by (by apply joinL_not_dot).
  split; [|intros E; apply HJdot; by rewrite <- (unstr_str J), E].
  rewrite below_render by assumption. fold ns.
  set (r := isRooted os (unstr base)).
  set (out0 := cleanOut os (unstr base)).
  pose proof (cleanOut_normal os (unstr base)) as Hn0. fold r out0 in Hn0.
  pose proof (normalStack_push_all r out0 ns Hn0 Hns) as Hn1.
  unfold Rel. rewrite unstr_str.
  assert (HB : cleanL os (unstr base) = render os r out0) by reflexivity.
  assert (HT : cleanL os (render os r (rev ns ++ out0))
               = render os r (rev ns ++ out0)).
  { unfold cleanL. rewrite isRooted_render by apply Hn1.
    by rewrite cleanOut_render. }
  rewrite HB, HT. clear HB HT.
  assert (Hrev : rev (rev ns ++ out0) = rev out0 ++ ns).
  { by rewrite rev_app_distr, rev_involutive. }
  assert (Hok0 : Forall (elemOK os) (rev out0)).
  { apply Forall_rev. apply Hn0. }
  assert (Hnz : rev ns ++ out0 <> []).
  { intros E. apply app_eq_nil in E as (E & _).
    apply Hnsne. by rewrite <- (rev_involutive ns), E. }
  destruct (rev out0) as [|e0 E0] eqn:Erev.
  - (* the base is the root or the current directory *)
    assert (Hout0 : out0 = []).
    { by rewrite <- (rev_involutive out0), Erev. }
    rewrite Hout0 in *. rewrite app_nil_r in *. simpl in Hrev.
    assert (HT' : render os r (rev ns) = (if r then [sep] else []) ++ J).
    { unfold render. rewrite rev_involutive. fold J. destruct r; [reflexivity|].
      destruct (rev ns); [congruence | reflexivity]. }
    rewrite HT'. unfold render. simpl joinL. destruct r; simpl app.
    + assert (Hsw : sameWord os (sep :: J) [sep] = false).
      { destruct (sameWord os _ _) eqn:E; [|reflexivity].
        apply sameWord_length in E. simpl in E. by destruct J. }
      rewrite Hsw. unfold eqbL.
      rewrite bool_decide_eq_false_2
        by (intros [= E]; by destruct sep_not_dot).
      simpl startsWithSep. rewrite Ascii.eqb_refl. simpl negb. cbv iota.
      simpl length.
      assert (Hloop : relLoop os 2 [sep] (sep :: J) = ([], [], J)).
      { simpl. unfold notSep. rewrite Ascii.eqb_refl. simpl.
        rewrite sameWord_refl. by destruct J. }
      rewrite Hloop. cbv beta iota zeta.
      rewrite bool_decide_eq_false_2 by discriminate.
      reflexivity.
    + assert (Hsw : sameWord os J dot = false).
      { destruct (sameWord os J dot) eqn:E; [|reflexivity].
        by apply sameWord_dot in E. }
      rewrite Hsw. unfold eqbL. rewrite bool_decide_eq_true_2 by reflexivity.
      simpl startsWithSep at 1. unfold J. rewrite startsWithSep_joinL by exact Hnsok.
      simpl negb. cbv iota. simpl relLoop. cbv beta iota zeta.
      rewrite bool_decide_eq_false_2 by discriminate. reflexivity.
  - (* the base has elements of its own *)
    assert (Hout0 : out0 <> []).
    { intros E. rewrite E in Erev. discriminate. }
    set (Eb := e0 :: E0) in *.
    assert (HEb : Eb <> []) by discriminate.
    set (B := render os r out0).
    assert (HBeq : B = (if r then [sep] else []) ++ joinL [sep] Eb).
    { subst B. unfold render. rewrite Erev. destruct r; [reflexivity|].
      destruct out0; [congruence | reflexivity]. }
    assert (HTeq : render os r (rev ns ++ out0) = B ++ sep :: J).
    { unfold render. rewrite Hrev, joinL_app by assumption. fold J.
      rewrite HBeq. destruct r; [reflexivity|].
      destruct (rev ns ++ out0); [congruence | reflexivity]. }
    rewrite HTeq.
    assert (HBend : endsPlain os B).
    { destruct (joinL_endsPlain Eb Hok0 HEb) as (x & c & Hx & Hc).
      exists ((if r then [sep] else []) ++ x), c.
      rewrite HBeq, Hx, app_assoc. auto. }
    assert (HBne : B <> []).
    { destruct HBend as (x & c & -> & _). by destruct x. }
    assert (HBdot : B <> dot).
    { rewrite HBeq. destruct r.
      - simpl. intros [= E _]. by destruct sep_not_dot.
      - rewrite app_nil_l. by apply joinL_not_dot. }
    assert (Hsw : sameWord os (B ++ sep :: J) B = false).
    { destruct (sameWord os _ _) eqn:E; [|reflexivity].
      apply sameWord_length in E. rewrite length_app in E. simpl in E. lia. }
    assert (HeqB : eqbL B dot = false)
      by (unfold eqbL; by apply bool_decide_eq_false_2).
    rewrite Hsw, !HeqB.
    assert (Hst : startsWithSep os B = startsWithSep os (B ++ sep :: J)).
    { destruct B; [congruence | reflexivity]. }
    rewrite Hst, eqb_reflx. simpl negb. cbv iota.
    rewrite relLoop_prefix by (auto; lia).
    cbv beta iota zeta.
    unfold eqbL. rewrite bool_decide_eq_false_2 by discriminate.
    reflexivity.
Qed.

End RelFacts.

Section TreeFacts.

Import GoStrings Filepath.

Variable os : GOOS.

Lemma filesOf_app l1 l2 : filesOf (l1 ++ l2) = filesOf l1 ++ filesOf l2.
Proof. apply omap_app. Qed.

(** Every walked file of a tree whose entries have proper names lies
    below the root by a list of entry names, which is not empty when the
    root is a directory. *)
Lemma visits_below :
  forall n path,
    wfNode os n = true ->
    forall p, In p (filesOf (visits os path n)) ->
    exists names,
      Forall (fun name => plain os name = true) names /\
      p = below os path names /\
      (n <> NFile -> names <> []).
Proof.
  fix IH 1. intros [|readErr entries|e] path Hwf p Hin.
  - simpl in Hin. destruct Hin as [<-|[]]. exists []. auto.
  - simpl in Hin. destruct readErr as [e|]; [destruct Hin|].
    simpl in Hwf.
    cut (exists names,
           Forall (fun name => plain os name = true) names /\
           p = below os path names /\ names <> []).
    { intros (names & ? & ? & ?). exists names. auto. }
    revert Hwf Hin.
    induction entries as [|[name child] es IHes]; intros Hwf Hin; [destruct Hin|].
    apply andb_true_iff in Hwf as (Hwf & Hes).
    apply andb_true_iff in Hwf as (Hname & Hchild).
    rewrite filesOf_app in Hin. apply in_app_iff in Hin as [Hin|Hin].
    + destruct (IH child _ Hchild p Hin) as (names & Hall & -> & _).
      exists (name :: names). split; [by constructor|].
      split; [reflexivity | discriminate].
    + by apply IHes.
  - destruct Hin.
Qed.

Lemma objectKeyOf_below base prefix names :
  HasSuffix prefix "/" = true ->
  Forall (fun name => plain os name = true) names ->
  names <> [] ->
  let rel := str (joinL [Separator os] (map unstr names)) in
  Rel os base (below os base names) = inr rel /\
  rel <> "." /\
  objectKeyOf os base prefix (below os base names)
  = inr (ToSlash os (Join os [prefix; rel])).
Proof.
  intros Hsuf Hall Hne rel.
  destruct (Rel_below os base names Hall Hne) as (Hrel & Hdot).
  split; [exact Hrel|]. split; [exact Hdot|].
  unfold objectKeyOf. rewrite Hsuf, Hrel.
  destruct (String.eqb_spec (str (joinL [Separator os] (map unstr names))) ".");
    [contradiction | reflexivity].
Qed.

Lemma Rel_self base : Rel os base base = inr ".".
Proof. unfold Rel. by rewrite sameWord_refl. Qed.

Lemma HasSuffix_slash prefix :
  HasSuffix prefix "/" = true ->
  exists p, unstr prefix = p ++ ["/"%char].
Proof.
  unfold HasSuffix. change (rev (unstr "/")) with ["/"%char].
  destruct (rev (unstr prefix)) as [|c l] eqn:E; [discriminate|].
  cbn [hasPrefixL].
  intros H. apply andb_true_iff in H as (Hc & _). apply Ascii.eqb_eq in Hc.
  subst c. exists (rev l). rewrite <- (rev_involutive (unstr prefix)), E.
  reflexivity.
Qed.

Lemma slash_is_sep : IsPathSeparator os "/" = true.
Proof. destruct os; reflexivity. Qed.

(** Joining to a prefix that ends with a slash cleans the
    concatenation. *)
Lemma Join_after_slash prefix name :
  HasSuffix prefix "/" = true ->
  Join os [prefix; name] = Clean os (prefix +:+ name).
Proof.
  intros Hsuf. destruct (HasSuffix_slash prefix Hsuf) as (p & Hp).
  assert (Hraw : joinRaw os [prefix; name]
                 = Some (unstr prefix ++ Separator os :: unstr name)).
  { simpl. destruct (unstr prefix) eqn:E; [by destruct p | reflexivity]. }
  unfold Join, Clean. rewrite Hraw. f_equal. rewrite unstr_app, Hp.
  rewrite <- !app_assoc. simpl app.
  unfold cleanL, cleanOut.
  assert (Hr : forall x, isRooted os (p ++ "/"%char :: x)
                         = isRooted os (p ++ ["/"%char])).
  { intros x. destruct p; reflexivity. }
  rewrite (Hr (Separator os :: unstr name)), (Hr (unstr name)).
  rewrite !fields_app_sep by apply slash_is_sep.
  simpl. rewrite sep_is_sep. reflexivity.
Qed.

End TreeFacts.

Section ConcreteRuns2.

Import GoStrings Filepath.

(** The scenario of the specification, on both hosts. *)
Example upload_archive_scenario :
  uploadsOf (trace (PutObjectsWithCseKms Unix (quietEnv [] dataTree)
                      "/data" "b" "archive/" emptyWorld).2)
  = [("/data/sub/y.txt", "archive/sub/y.txt"); ("/data/x.txt", "archive/x.txt")] /\
  uploadsOf (trace (PutObjectsWithCseKms Windows (quietEnv [] dataTree)
                      "data" "b" "archive/" emptyWorld).2)
  = [("data\sub\y.txt", "archive/sub/y.txt"); ("data\x.txt", "archive/x.txt")].
Proof. vm_compute. auto. Qed.

(** A prefix that is not a clean path is not kept as it is. *)
Lemma C4_counterexample :
  let r := PutObjectsWithCseKms Unix (quietEnv [] NFile)
             "/data/x.txt" "b" "a//" emptyWorld in
  HasSuffix "a//" "/" = true /\
  r.1 = None /\
  uploadsOf (trace r.2) = [("/data/x.txt", "a/x.txt")] /\
  "a/x.txt" <> "a//" +:+ Base Unix "/data/x.txt".
Proof. vm_compute. repeat split; congruence. Qed.

End ConcreteRuns2.

(** ** Errors, handles and stores of a download *)

Section DownloadExtras.

Import GoStrings Filepath.

Variable os : GOOS.
Variable env : Env.
Variables path bucket prefix : string.
Variable nkeys : nat.

Local Abbreviation dest := (localFilePathOf os path prefix nkeys).
Local Abbreviation item := (getItem os env path bucket prefix nkeys).
Local Abbreviation loop := (getLoop os env path bucket prefix nkeys).

Lemma getItem_failure k ds w e' :
  (item k ds w).1.1 = Some e' ->
  itemFailure os env path bucket prefix nkeys k e'.
Proof.
  unfold getItem, itemFailure. cbv zeta.
  destruct (mkdirAll env _) as [e|] eqn:Hm.
  { intros [= <-]. left. eauto. }
  destruct (getObject env bucket k) as [e|body] eqn:Hg.
  { intros [= <-]. right. left. eauto. }
  destruct (osCreate env _) as [e|] eqn:Hc.
  { intros [= <-]. right. right. left. eauto. }
  destruct (readFrom env _) as [[e n]|] eqn:Hr; [|discriminate].
  intros [= <-]. right. right. right. eauto.
Qed.

Lemma getLoop_failure keys ds w e' :
  (loop keys ds w).1.1 = Some e' ->
  exists k, In k keys /\ itemFailure os env path bucket prefix nkeys k e'.
Proof.
  revert ds w. induction keys as [|k keys IH]; intros ds w; simpl; [discriminate|].
  pose proof (getItem_failure k ds w) as Hk.
  destruct (item k ds w) as [[[e|] ds1] w1]; simpl in *.
  - intros [= <-]. exists k. split; [by left | by apply Hk].
  - intros H. destruct (IH _ _ H) as (k' & Hin & Hf). exists k'. split; [by right | exact Hf].
Qed.

(** One item opens at most two handles, pushes exactly those on the
    stack of deferred closes, and writes no object. *)
Lemma getItem_opened k ds w :
  exists opened,
    (item k ds w).1.2 = opened ++ ds /\
    handles (item k ds w).2 = opened ++ handles w /\
    objects (item k ds w).2 = objects w.
Proof.
  unfold getItem.
  destruct (mkdirAll env _) as [e|]; [by exists []|].
  destruct (getObject env bucket k) as [e|body]; [by exists []|].
  destruct (osCreate env _) as [e|]; [by eexists [_]|].
  destruct (readFrom env _) as [[e n]|]; by eexists [_; _].
Qed.

Lemma getLoop_opened keys ds w :
  exists opened,
    (loop keys ds w).1.2 = opened ++ ds /\
    handles (loop keys ds w).2 = opened ++ handles w /\
    objects (loop keys ds w).2 = objects w.
Proof.
  revert ds w. induction keys as [|k keys IH]; intros ds w; simpl; [by exists []|].
  destruct (getItem_opened k ds w) as (o1 & Hd1 & Hh1 & Ho1).
  destruct (item k ds w) as [[[e|] ds1] w1]; simpl in *.
  - exists o1. auto.
  - destruct (IH ds1 w1) as (o2 & Hd2 & Hh2 & Ho2).
    exists (o2 ++ o1). rewrite Hd2, Hh2, Ho2, Hd1, Hh1, Ho1, <- !app_assoc. auto.
Qed.

End DownloadExtras.

Section DownloadExtras2.

Import GoStrings Filepath.

Lemma runDefers_handles opened w rest :
  handles w = opened ++ rest -> handles (runDefers opened w) = rest.
Proof.
  revert w. induction opened as [|h opened IH]; intros w Hw; simpl; [exact Hw|].
  apply IH. simpl. rewrite Hw. simpl.
  destruct (decide (h = h)); congruence.
Qed.

Lemma listKeys_world env bucket prefix w :
  files (listKeys env bucket prefix w).2 = files w /\
  objects (listKeys env bucket prefix w).2 = objects w /\
  handles (listKeys env bucket prefix w).2 = handles w.
Proof.
  unfold listKeys. destruct (HasSuffix prefix "/"); [|auto].
  destruct (listObjectsV2 env bucket prefix); auto.
Qed.

(** X1. Every error [GetObjectsWithCseKms] returns is the failed
    listing, or the failure of one call for one member key: the creation
    of its directory, the request of its object, the creation of its file
    or the writing of its body.  The cause is wrapped, so it stays
    reachable, in every case but the failed request, which is flattened
    into a message. *)
Theorem X1_download_errors os env path bucket prefix w e' :
  (GetObjectsWithCseKms os env path bucket prefix w).1 = Some e' ->
  (exists e,
     HasSuffix prefix "/" = true /\
     listObjectsV2 env bucket prefix = inl e /\
     e' = ErrWrap "error ListObjectsV2: " e) \/
  (exists keys k,
     (listKeys env bucket prefix w).1 = inr keys /\
     In k keys /\
     itemFailure os env path bucket prefix (length keys) k e').
Proof.
  unfold GetObjectsWithCseKms.
  destruct (listKeys env bucket prefix w) as [[e|keys] w0] eqn:El.
  - intros [= <-]. left. revert El. unfold listKeys.
    destruct (HasSuffix prefix "/"); [|discriminate].
    destruct (listObjectsV2 env bucket prefix) as [e0|]; [|discriminate].
    intros [= <- _]. eauto.
  - pose proof (getLoop_failure os env path bucket prefix (length keys) keys [] w0 e') as Hf.
    destruct (getLoop _ _ _ _ _ _ _ _ _) as [[r ds] w1]. simpl in *.
    intros ->. destruct (Hf eq_refl) as (k & Hin & Hk).
    right. exists keys, k. auto.
Qed.

(** X2. Whatever the outcome, when [GetObjectsWithCseKms] returns every
    handle it opened has been closed: the handles open after the call are
    those open before it. *)
Theorem X2_download_closes_all os env path bucket prefix w :
  handles (GetObjectsWithCseKms os env path bucket prefix w).2 = handles w.
Proof.
  unfold GetObjectsWithCseKms.
  pose proof (listKeys_world env bucket prefix w) as (_ & _ & Hh).
  destruct (listKeys env bucket prefix w) as [[e|keys] w0]; simpl in *; [exact Hh|].
  destruct (getLoop_opened os env path bucket prefix (length keys) keys [] w0)
    as (opened & Hds & Hhs & _).
  destruct (getLoop _ _ _ _ _ _ _ _ _) as [[r ds] w1]. simpl in *.
  rewrite app_nil_r in Hds. subst ds.
  rewrite <- Hh. by apply runDefers_handles.
Qed.

(** X3. A download never writes to the bucket, and an upload never
    writes a local file. *)
Theorem X3_transfers_are_one_way os env path bucket prefix w :
  objects (GetObjectsWithCseKms os env path bucket prefix w).2 = objects w /\
  files (PutObjectsWithCseKms os env path bucket prefix w).2 = files w.
Proof.
  split.
  - unfold GetObjectsWithCseKms.
    pose proof (listKeys_world env bucket prefix w) as (_ & Ho & _).
    destruct (listKeys env bucket prefix w) as [[e|keys] w0]; simpl in *; [exact Ho|].
    destruct (getLoop_opened os env path bucket prefix (length keys) keys [] w0)
      as (opened & _ & _ & Hobj).
    destruct (getLoop _ _ _ _ _ _ _ _ _) as [[r ds] w1]. simpl in *.
    rewrite objects_runDefers. congruence.
  - unfold PutObjectsWithCseKms, Walk. rewrite visit_runVisits.
    destruct (runVisits_putFile os env path bucket prefix
                (visits os path (fsAt env path)) w) as (n & _ & _ & _ & Hf & _).
    exact Hf.
Qed.

Lemma X1_download_errors_witness :
  exists keys k,
    (listKeys deniedEnv "b" "p/" emptyWorld).1 = inr keys /\
    In k keys /\
    itemFailure Unix deniedEnv "/out" "b" "p/" (length keys) k
      (ErrNew "error while decrypting: denied").
Proof.
  destruct (X1_download_errors Unix deniedEnv "/out" "b" "p/" emptyWorld
              (ErrNew "error while decrypting: denied") eq_refl)
    as [(e & _ & H & _)|H]; [discriminate H | exact H].
Defined.

End DownloadExtras2.

(** ** Complete and repeated runs *)

Section StoreFacts2.

Context {K : Type} `{Countable K} {V A : Type}.
Variable f : A -> option K.
Variable g : A -> V.

(** What a key holds after a list of items is written: the content of
    the last item mapped to it, or what it held before. *)
Lemma foldl_upd_lookup (l : list A) (k : K) :
  (exists x, In x l /\ f x = Some k /\
             forall m : gmap K V, foldl (upd f g) m l !! k = Some (g x)) \/
  ((forall x, In x l -> f x <> Some k) /\
   forall m : gmap K V, foldl (upd f g) m l !! k = m !! k).
Proof.
  induction l as [|y l IH].
  - right. split; [intros x [] | reflexivity].
  - destruct IH as [(x & Hin & Hx & Hm)|(Hnone & Hm)].
    + left. exists x. split; [by right|]. split; [exact Hx|].
      intros m. simpl. apply Hm.
    + destruct (decide (f y = Some k)) as [Hy|Hy].
      * left. exists y. split; [by left|]. split; [exact Hy|].
        intros m. simpl. rewrite Hm. unfold upd. rewrite Hy.
        apply lookup_insert_eq.
      * right. split.
        -- intros x [<-|Hin]; [exact Hy | by apply Hnone].
        -- intros m. simpl. rewrite Hm. unfold upd.
           destruct (f y) as [k'|] eqn:E; [|reflexivity].
           apply lookup_insert_ne. congruence.
Qed.

(** Writing the same items again changes nothing. *)
Lemma foldl_upd_twice (l : list A) (m : gmap K V) :
  foldl (upd f g) (foldl (upd f g) m l) l = foldl (upd f g) m l.
Proof.
  apply map_eq. intros k.
  destruct (foldl_upd_lookup l k) as [(x & _ & _ & Hm)|(_ & Hm)].
  - by rewrite !Hm.
  - by rewrite Hm.
Qed.

End StoreFacts2.

Section RepeatFacts.

Import GoStrings Filepath.

Variable os : GOOS.
Variable env : Env.

Lemma dstore_upd (path bucket prefix : string) (nkeys : nat) (l : list string)
    (m : gmap string bytes) :
  foldl (downloadStore os env path bucket prefix nkeys) m l
  = foldl (upd (fun y => match getObject env bucket y with
                         | inr _ => Some (localFilePathOf os path prefix nkeys y)
                         | inl _ => None
                         end)
               (fun y => match getObject env bucket y with
                         | inr body => body
                         | inl _ => []
                         end)) m l.
Proof.
  revert m. induction l as [|y l IH]; intros m; simpl; [reflexivity|].
  rewrite IH. f_equal. unfold downloadStore, upd.
  destruct (getObject env bucket y); reflexivity.
Qed.

Lemma store_upd (basePath bucket prefix : string) (l : list string)
    (m : gmap (string * string) bytes) :
  foldl (storeAt os env basePath bucket prefix) m l
  = foldl (upd (fun q => match objectKeyOf os basePath prefix q with
                         | inr k => Some (bucket, k)
                         | inl _ => None
                         end)
               (bodyAt env)) m l.
Proof.
  revert m. induction l as [|y l IH]; intros m; simpl; [reflexivity|].
  rewrite IH. f_equal. unfold storeAt, upd.
  destruct (objectKeyOf os basePath prefix y); reflexivity.
Qed.

(** Whether an item fails, and how, does not depend on the world it
    runs in. *)
Lemma getItem_result path bucket prefix nkeys k ds w ds0 w0 :
  (getItem os env path bucket prefix nkeys k ds w).1.1
  = (getItem os env path bucket prefix nkeys k ds0 w0).1.1.
Proof.
  unfold getItem.
  destruct (mkdirAll env _); [reflexivity|].
  destruct (getObject env bucket k); [reflexivity|].
  destruct (osCreate env _); [reflexivity|].
  destruct (readFrom env _) as [[e n]|]; reflexivity.
Qed.

Lemma getLoop_result path bucket prefix nkeys keys ds w ds0 w0 :
  (getLoop os env path bucket prefix nkeys keys ds w).1.1
  = (getLoop os env path bucket prefix nkeys keys ds0 w0).1.1.
Proof.
  revert ds w ds0 w0. induction keys as [|k keys IH]; intros ds w ds0 w0; simpl;
    [reflexivity|].
  pose proof (getItem_result path bucket prefix nkeys k ds w ds0 w0) as Hk.
  destruct (getItem _ _ _ _ _ _ k ds w) as [[[e|] ds1] w1];
    destruct (getItem _ _ _ _ _ _ k ds0 w0) as [[[e0|] ds2] w2];
    simpl in *; try congruence.
  apply IH.
Qed.

Lemma runVisit_result basePath bucket prefix v w w0 :
  (runVisit (putFile os env basePath bucket prefix) v w).1
  = (runVisit (putFile os env basePath bucket prefix) v w0).1.
Proof.
  destruct v as [[p i] e]. unfold runVisit, putFile.
  destruct e as [e|]; [reflexivity|].
  destruct i as [[[|]]|]; simpl; [reflexivity | | reflexivity].
  destruct (osOpen env p); [reflexivity|].
  destruct (objectKeyOf os basePath prefix p); [reflexivity|].
  destruct (putObject env bucket _ _); reflexivity.
Qed.

Lemma runVisits_result basePath bucket prefix vs w w0 :
  (runVisits (putFile os env basePath bucket prefix) vs w).1
  = (runVisits (putFile os env basePath bucket prefix) vs w0).1.
Proof.
  revert w w0. induction vs as [|v vs IH]; intros w w0; simpl; [reflexivity|].
  pose proof (runVisit_result basePath bucket prefix v w w0) as Hv.
  destruct (runVisit _ v w) as [[e|] w1];
    destruct (runVisit _ v w0) as [[e0|] w2]; simpl in *; try congruence.
  apply IH.
Qed.

(** A walk that ends without an error made no call with an error, and
    every call for a file opened it, computed its key and put it. *)
Lemma runVisits_all_ok basePath bucket prefix vs w :
  (runVisits (putFile os env basePath bucket prefix) vs w).1 = None ->
  (forall p i e, In (p, i, e) vs -> e = None) /\
  (forall p, In p (filesOf vs) ->
     exists body key,
       osOpen env p = inr body /\
       objectKeyOf os basePath prefix p = inr key /\
       putObject env bucket key body = None).
Proof.
  revert w. induction vs as [|v vs IH]; intros w; simpl.
  - intros _. split; [intros ? ? ? [] | intros ? []].
  - pose proof (runVisit_putFile_ok os env basePath bucket prefix v w) as Hok.
    destruct (runVisit _ v w) as [[e|] w1] eqn:E; [discriminate|].
    intros Hr. destruct (IH w1 Hr) as (Hv & Hf). split.
    + intros p i e [->|Hin]; [|by eapply Hv].
      revert E. unfold runVisit, putFile. destruct e; [discriminate | reflexivity].
    + intros p. unfold filesOf. simpl. fold (filesOf vs).
      destruct (walkedFile v) as [q|] eqn:Ew.
      * intros [<-|Hin]; [by apply Hok | by apply Hf].
      * apply Hf.
Qed.

End RepeatFacts.

Section CompleteRuns.

Import GoStrings Filepath.

(** X4. A download that returns no error has listed the member keys,
    logged every one of them with its destination, and written every
    body: a destination holds the body of the last member key mapped to
    it. *)
Theorem X4_download_success_is_complete os env path bucket prefix w :
  let r := GetObjectsWithCseKms os env path bucket prefix w in
  r.1 = None ->
  exists keys,
    (listKeys env bucket prefix w).1 = inr keys /\
    let dest := localFilePathOf os path prefix (length keys) in
    downloadsOf (trace r.2)
    = downloadsOf (trace w) ++ map (fun k => (k, dest k)) keys /\
    (forall a k b,
       keys = a ++ k :: b ->
       (forall y, In y b -> dest y <> dest k) ->
       exists body,
         getObject env bucket k = inr body /\
         files r.2 !! dest k = Some body).
Proof.
  intros r. subst r. unfold GetObjectsWithCseKms.
  pose proof (listKeys_world env bucket prefix w) as (Hf0 & _ & _).
  assert (Ht0 : downloadsOf (trace (listKeys env bucket prefix w).2)
                = downloadsOf (trace w)).
  { unfold listKeys. destruct (HasSuffix prefix "/"); [|reflexivity].
    destruct (listObjectsV2 env bucket prefix); simpl;
      rewrite downloadsOf_app; simpl; by rewrite app_nil_r. }
  destruct (listKeys env bucket prefix w) as [[e|keys] w0]; simpl in *;
    [discriminate|].
  destruct (getLoop_downloads os env path bucket prefix (length keys) keys [] w0)
    as (n & _ & Hd & Hall).
  destruct (getLoop _ _ _ _ _ _ _ _ _) as [[r ds] w1] eqn:El. simpl in *.
  intros ->. exists keys. split; [reflexivity|]. split.
  - rewrite trace_runDefers, downloadsOf_app, downloadsOf_closes, app_nil_r.
    rewrite Hd, (Hall eq_refl), firstn_all, Ht0. reflexivity.
  - intros a k b Hsplit Hlater.
    destruct (getLoop_success _ _ _ _ _ _ _ _ _ _ _ El) as (Hfiles & Hget).
    rewrite Forall_forall in Hget.
    assert (Hk : exists body, getObject env bucket k = inr body).
    { apply Hget. rewrite Hsplit. apply list_elem_of_In, in_app_iff. right. by left. }
    destruct Hk as (body & Hbody).
    exists body. split; [exact Hbody|].
    rewrite files_runDefers, Hfiles. subst keys.
    by apply foldl_dstore_last.
Qed.

(** X5. An upload that returns no error met no error of the walk, and
    for every walked file it opened the file, computed its key and put it:
    the uploads logged are those of all walked files, and a key holds the
    content of the last walked file mapped to it. *)
Theorem X5_upload_success_is_complete os env basePath bucket prefix w :
  let r := PutObjectsWithCseKms os env basePath bucket prefix w in
  let vs := visits os basePath (fsAt env basePath) in
  r.1 = None ->
  (forall p i e, In (p, i, e) vs -> e = None) /\
  (forall p, In p (filesOf vs) ->
     exists body key,
       osOpen env p = inr body /\
       objectKeyOf os basePath prefix p = inr key /\
       putObject env bucket key body = None) /\
  uploadsOf (trace r.2)
  = uploadsOf (trace w) ++ omap (keyAt os basePath prefix) (filesOf vs) /\
  (forall a p b key,
     filesOf vs = a ++ p :: b ->
     objectKeyOf os basePath prefix p = inr key ->
     (forall q, In q b -> objectKeyOf os basePath prefix q <> inr key) ->
     objects r.2 !! (bucket, key) = Some (bodyAt env p)).
Proof.
  intros r vs. subst r. unfold PutObjectsWithCseKms, Walk.
  rewrite visit_runVisits. fold vs. intros Hr.
  destruct (runVisits_all_ok os env basePath bucket prefix vs w Hr) as (Hv & Hf).
  destruct (runVisits_putFile os env basePath bucket prefix vs w)
    as (n & _ & Hup & _ & _ & Hall).
  destruct (Hall Hr) as (Hn & Hobj).
  split; [exact Hv|]. split; [exact Hf|]. split.
  - rewrite Hup, Hn, firstn_all. reflexivity.
  - intros a p b key Hsplit Hkey Hlater.
    rewrite Hobj, Hsplit. by apply foldl_store_last.
Qed.

(** X6. Running the same download again after a run without an error
    ends without an error and leaves the local files as the first run
    left them. *)
Theorem X6_download_again os env path bucket prefix w :
  let r1 := GetObjectsWithCseKms os env path bucket prefix w in
  let r2 := GetObjectsWithCseKms os env path bucket prefix r1.2 in
  r1.1 = None ->
  r2.1 = None /\ files r2.2 = files r1.2.
Proof.
  intros r1 r2. subst r1 r2. unfold GetObjectsWithCseKms.
  pose proof (listKeys_world env bucket prefix w) as (Hf0 & _ & _).
  assert (Hlist : forall w', (listKeys env bucket prefix w').1
                             = (listKeys env bucket prefix w).1).
  { intros w'. unfold listKeys. destruct (HasSuffix prefix "/"); [|reflexivity].
    destruct (listObjectsV2 env bucket prefix); reflexivity. }
  destruct (listKeys env bucket prefix w) as [[e|keys] w0] eqn:El; simpl in *;
    [discriminate|].
  destruct (getLoop os env path bucket prefix (length keys) keys [] w0)
    as [[r ds] w1] eqn:E1. simpl. intros ->.
  set (w1' := runDefers ds w1).
  pose proof (Hlist w1') as Hl2.
  pose proof (listKeys_world env bucket prefix w1') as (Hf2 & _ & _).
  destruct (listKeys env bucket prefix w1') as [[e|keys2] w2]; simpl in *;
    [discriminate|].
  injection Hl2 as ->.
  pose proof (getLoop_result os env path bucket prefix (length keys) keys [] w2 [] w0)
    as Hres.
  rewrite E1 in Hres. simpl in Hres.
  destruct (getLoop os env path bucket prefix (length keys) keys [] w2)
    as [[r' ds'] w3] eqn:E2. simpl in *. subst r'.
  split; [reflexivity|].
  destruct (getLoop_success _ _ _ _ _ _ _ _ _ _ _ E1) as (Hfiles1 & _).
  destruct (getLoop_success _ _ _ _ _ _ _ _ _ _ _ E2) as (Hfiles2 & _).
  rewrite files_runDefers, Hfiles2, Hf2. unfold w1'.
  rewrite files_runDefers, Hfiles1, !dstore_upd. apply foldl_upd_twice.
Qed.

(** X7. Running the same upload again after a run without an error
    ends without an error and leaves the bucket as the first run left
    it. *)
Theorem X7_upload_again os env basePath bucket prefix w :
  let r1 := PutObjectsWithCseKms os env basePath bucket prefix w in
  let r2 := PutObjectsWithCseKms os env basePath bucket prefix r1.2 in
  r1.1 = None ->
  r2.1 = None /\ objects r2.2 = objects r1.2.
Proof.
  intros r1 r2. subst r1 r2. unfold PutObjectsWithCseKms, Walk.
  rewrite !visit_runVisits.
  set (vs := visits os basePath (fsAt env basePath)).
  set (fn := putFile os env basePath bucket prefix).
  intros Hr1.
  assert (Hr2 : (runVisits fn vs (runVisits fn vs w).2).1 = None).
  { subst fn. rewrite (runVisits_result os env basePath bucket prefix vs _ w).
    exact Hr1. }
  split; [exact Hr2|].
  destruct (runVisits_putFile os env basePath bucket prefix vs w)
    as (n & _ & _ & _ & _ & Hall).
  destruct (runVisits_putFile os env basePath bucket prefix vs (runVisits fn vs w).2)
    as (n2 & _ & _ & _ & _ & Hall2).
  destruct (Hall Hr1) as (_ & Hobj1). destruct (Hall2 Hr2) as (_ & Hobj2).
  fold fn in Hobj1, Hobj2. rewrite Hobj2, Hobj1, !store_upd.
  apply foldl_upd_twice.
Qed.

End CompleteRuns.

(** ** Keys and paths with several segments *)

Section SegmentFacts.

Import GoStrings Filepath.

Variable os : GOOS.

Local Abbreviation sep := (Separator os).

Lemma joinL_cons_any (c : ascii) e es :
  es <> [] -> joinL [c] (e :: es) = e ++ c :: joinL [c] es.
Proof. destruct es; [congruence | reflexivity]. Qed.

Lemma joinL_app_any (c : ascii) l1 l2 :
  l1 <> [] -> l2 <> [] ->
  joinL [c] (l1 ++ l2) = joinL [c] l1 ++ c :: joinL [c] l2.
Proof.
  intros H1 H2. induction l1 as [|e l1 IH]; [congruence|].
  destruct l1 as [|e' l1].
  - simpl app at 1. rewrite joinL_cons_any by exact H2. reflexivity.
  - change ((e :: e' :: l1) ++ l2) with (e :: (e' :: l1) ++ l2).
    rewrite joinL_cons_any by discriminate.
    rewrite IH by discriminate.
    rewrite (joinL_cons_any c e (e' :: l1)) by discriminate.
    rewrite <- app_assoc. reflexivity.
Qed.

(** The elements of a list of names joined by any separator are the
    names. *)
Lemma fields_joinL_any (c : ascii) es :
  IsPathSeparator os c = true ->
  Forall (elemOK os) es -> fields os (joinL [c] es) [] = es.
Proof.
  intros Hc. induction 1 as [|e es (He & Hne & _) Hes IH]; [reflexivity|].
  destruct es as [|e' es].
  - simpl. by apply fields_elem.
  - rewrite joinL_cons_any by discriminate.
    rewrite fields_app_sep by exact Hc.
    rewrite fields_elem by assumption. rewrite IH. reflexivity.
Qed.

Lemma isRooted_joinL_any (c : ascii) es :
  Forall (elemOK os) es -> isRooted os (joinL [c] es) = false.
Proof.
  intros H. destruct H as [|e es (He & Hne & _) Hes]; [reflexivity|].
  assert (Hhd : isRooted os (e ++ c :: joinL [c] es) = false
                /\ isRooted os e = false).
  { destruct e as [|d e]; [congruence|]. simpl in *.
    apply andb_true_iff in He as (Hd & _). apply negb_true_iff in Hd. auto. }
  destruct es; [apply Hhd | rewrite joinL_cons_any by discriminate; apply Hhd].
Qed.

Lemma fold_cleanStep_plain rooted ns out :
  Forall (fun e => plainL os e = true) ns ->
  fold_left (cleanStep rooted) ns out = rev ns ++ out.
Proof.
  intros Hns. revert out. induction Hns as [|e ns He _ IH]; intros out; [reflexivity|].
  simpl. rewrite (cleanStep_plain os) by exact He. rewrite IH, <- app_assoc.
  reflexivity.
Qed.

Lemma plain_names_ok names :
  Forall (fun name => plain os name = true) names ->
  Forall (fun e => plainL os e = true) (map unstr names) /\
  Forall (elemOK os) (map unstr names).
Proof.
  intros H. split.
  - apply Forall_map. exact H.
  - apply Forall_map. eapply Forall_impl; [exact H|].
    intros n Hn. by apply plainL_elemOK.
Qed.

(** Joining a relative path of names, written with slashes, to a path
    gives the path [Walk] builds for the same names. *)
Lemma Join_names path names :
  Forall (fun name => plain os name = true) names ->
  names <> [] ->
  Join os [path; str (joinL ["/"%char] (map unstr names))] = below os path names.
Proof.
  intros Hall Hne. rewrite below_render by assumption.
  destruct (plain_names_ok names Hall) as (Hpl & Hok).
  set (ns := map unstr names) in *.
  assert (Hnsne : ns <> []) by (subst ns; by destruct names).
  assert (HJ : joinL ["/"%char] ns <> []).
  { destruct ns as [|e ns']; [congruence|].
    inversion Hok as [|? ? (_ & He & _) _]; subst.
    destruct ns'; [exact He|]. rewrite joinL_cons_any by discriminate.
    by destruct e. }
  unfold Join. simpl joinRaw. rewrite unstr_str.
  destruct (unstr path) as [|c p] eqn:Ep.
  - destruct (joinL ["/"%char] ns) as [|j0 j1] eqn:Ej; [congruence|].
    rewrite <- Ej. f_equal. simpl joinL. unfold cleanL, cleanOut.
    rewrite isRooted_joinL_any by exact Hok.
    rewrite fields_joinL_any by (apply slash_is_sep || exact Hok).
    rewrite fold_cleanStep_plain by exact Hpl. reflexivity.
  - f_equal. simpl joinL. unfold cleanL, cleanOut.
    change (c :: p ++ sep :: joinL ["/"%char] ns)
      with ((c :: p) ++ sep :: joinL ["/"%char] ns).
    rewrite isRooted_app by discriminate.
    rewrite fields_app_sep by apply sep_is_sep.
    rewrite fields_joinL_any by (apply slash_is_sep || exact Hok).
    rewrite fold_left_app, fold_cleanStep_plain by exact Hpl. reflexivity.
Qed.

(** [ToSlash] of names joined by the separator is the names joined by
    slashes. *)
Lemma toSlashL_joinL es :
  Forall (elemOK os) es ->
  toSlashL os (joinL [sep] es) = joinL ["/"%char] es.
Proof.
  intros Hes. unfold toSlashL. destruct os; [reflexivity|].
  change (Ascii.eqb (Separator Windows) "/") with false. cbv iota.
  set (f := fun c : ascii =>
              if Ascii.eqb c (Separator Windows) then "/"%char else c).
  assert (Hmap : forall e, elemOK Windows e -> map f e = e).
  { intros e (Hsf & _). induction e as [|c e IH]; [reflexivity|].
    simpl in Hsf. apply andb_true_iff in Hsf as (Hc & Hsf).
    rewrite map_cons, IH by exact Hsf. f_equal.
    apply negb_true_iff in Hc. simpl in Hc.
    apply orb_false_iff in Hc as (Hc & _). unfold f.
    change (Separator Windows) with "\"%char. by rewrite Hc. }
  induction Hes as [|e es He Hes IH]; [reflexivity|].
  destruct es as [|e' es].
  - simpl. by apply Hmap.
  - rewrite !joinL_cons_any by discriminate.
    rewrite map_app, map_cons, Hmap by exact He.
    rewrite IH. reflexivity.
Qed.

(** [Dir] of the path of an entry is the cleaned path of its
    directory. *)
Lemma span_all p a rest :
  forallb p a = true ->
  match rest with [] => True | c :: _ => p c = false end ->
  span p (a ++ rest) = (a, rest).
Proof.
  intros Ha Hrest. induction a as [|c a IH]; simpl.
  - destruct rest as [|c rest]; [reflexivity|]. simpl. by rewrite Hrest.
  - simpl in Ha. apply andb_true_iff in Ha as (Hc & Ha).
    rewrite Hc, IH by exact Ha. reflexivity.
Qed.

Lemma sepFree_rev e : sepFree os e = true -> sepFree os (rev e) = true.
Proof.
  unfold sepFree. rewrite !forallb_forall. intros H x Hx. apply H.
  by apply in_rev.
Qed.

Lemma Dir_entry path name :
  plain os name = true ->
  Dir os (Join os [path; name]) = Clean os path.
Proof.
  intros Hn. rewrite Join_entry by exact Hn.
  unfold plain in Hn. pose proof (proj1 (plainL_spec os _) Hn) as (Hsf & Hne & _).
  set (n := unstr name) in *.
  set (r := isRooted os (unstr path)).
  set (S := cleanOut os (unstr path)).
  pose proof (cleanOut_normal os (unstr path)) as HS. fold r S in HS.
  unfold Dir, Clean. rewrite unstr_str. f_equal.
  change (cleanL os (unstr path)) with (render os r S).
  assert (Hsplit : render os r (n :: S)
                   = match S with
                     | [] => (if r then [sep] else []) ++ n
                     | _ => render os r S ++ sep :: n
                     end).
  { unfold render. destruct S as [|s S'].
    - destruct r; reflexivity.
    - assert (Hrev : rev (s :: S') <> []).
      { intros E. apply (f_equal (@length _)) in E.
        rewrite length_rev in E. discriminate. }
      change (rev (n :: s :: S')) with (rev (s :: S') ++ [n]).
      rewrite joinL_app by (exact Hrev || discriminate).
      destruct r; reflexivity. }
  assert (Hspan : forall h,
            match rev h with [] => True
                        | c :: _ => negb (IsPathSeparator os c) = false end ->
            rev (snd (span (fun c => negb (IsPathSeparator os c)) (rev (h ++ n)))) = h).
  { intros h Hh. rewrite rev_app_distr.
    rewrite (span_all _ (rev n) (rev h)); [apply rev_involutive | | exact Hh].
    apply sepFree_rev in Hsf. exact Hsf. }
  rewrite Hsplit. destruct S as [|s S'].
  - rewrite Hspan.
    + destruct r; [|reflexivity]. unfold cleanL, cleanOut. simpl.
      rewrite sep_is_sep. reflexivity.
    + destruct r; simpl; [by rewrite sep_is_sep | exact I].
  - change (render os r (s :: S') ++ sep :: n)
      with (render os r (s :: S') ++ [sep] ++ n).
    rewrite app_assoc, Hspan.
    + rewrite cleanL_trailing_sep.
      * unfold cleanL. rewrite isRooted_render by apply HS.
        by rewrite cleanOut_render.
      * unfold render. destruct r; [discriminate|].
        apply joinL_nonempty; [apply Forall_rev, HS|].
        intros E. apply (f_equal (@length _)) in E.
        rewrite length_rev in E. discriminate.
    + rewrite rev_app_distr. simpl. by rewrite sep_is_sep.
Qed.

(** [Base] of a name that follows nothing or a slash is the name, and
    such a key does not end with a slash. *)
Lemma Base_last pre name :
  plain os name = true ->
  pre = EmptyString \/ HasSuffix pre "/" = true ->
  Base os (pre +:+ name) = name /\ HasSuffix (pre +:+ name) "/" = false.
Proof.
  intros Hn Hpre. unfold plain in Hn.
  pose proof (proj1 (plainL_spec os _) Hn) as (Hsf & Hne & _).
  set (n := unstr name) in *.
  assert (Hrevn : exists c l, rev n = c :: l /\ IsPathSeparator os c = false).
  { destruct (rev n) as [|c l] eqn:E.
    - exfalso. apply Hne. by rewrite <- (rev_involutive n), E.
    - exists c, l. split; [reflexivity|].
      apply sepFree_rev in Hsf. rewrite E in Hsf. simpl in Hsf.
      apply andb_true_iff in Hsf as (Hc & _). by apply negb_true_iff in Hc. }
  destruct Hrevn as (c & l & Hrev & Hc).
  assert (Hp : match rev (unstr pre) with
               | [] => True
               | d :: _ => negb (IsPathSeparator os d) = false
               end).
  { destruct Hpre as [->|Hs]; [exact I|].
    destruct (HasSuffix_slash pre Hs) as (p & ->).
    rewrite rev_app_distr. simpl. by rewrite slash_is_sep. }
  split.
  - unfold Base, baseL. rewrite unstr_app. fold n.
    destruct (unstr pre ++ n) as [|x0 x1] eqn:Ex.
    { apply app_eq_nil in Ex as (_ & E). congruence. }
    rewrite <- Ex. clear Ex x0 x1.
    rewrite rev_app_distr.
    assert (Hs1 : span (IsPathSeparator os) (rev n ++ rev (unstr pre))
                  = ([], rev n ++ rev (unstr pre))).
    { rewrite Hrev. simpl. by rewrite Hc. }
    rewrite Hs1. simpl snd.
    rewrite (span_all _ (rev n) (rev (unstr pre))); [| by apply sepFree_rev | exact Hp].
    simpl fst. rewrite Hrev, <- Hrev, rev_involutive. apply str_unstr.
  - unfold HasSuffix. rewrite unstr_app. fold n.
    rewrite rev_app_distr, Hrev.
    change (rev (unstr "/")) with ["/"%char]. cbn [app hasPrefixL].
    apply andb_false_iff. left.
    destruct (Ascii.eqb "/" c) eqn:E; [|reflexivity].
    apply Ascii.eqb_eq in E. subst c. by rewrite slash_is_sep in Hc.
Qed.

End SegmentFacts.

Section SegmentClaims.

Import GoStrings Filepath.

Lemma HasSuffix_app_slash s : HasSuffix (s +:+ "/") "/" = true.
Proof.
  unfold HasSuffix. rewrite unstr_app, rev_app_distr.
  change (rev (unstr "/")) with ["/"%char]. reflexivity.
Qed.

Lemma joinRaw_two os a b :
  unstr a <> [] ->
  joinRaw os [a; b] = Some (unstr a ++ Separator os :: unstr b).
Proof. intros H. simpl. destruct (unstr a); [congruence | reflexivity]. Qed.

End SegmentClaims.

(** ** Errors of an upload, untouched files, and [main] *)

Section UploadExtras.

Import GoStrings Filepath.

Variable os : GOOS.
Variable env : Env.

(** [Walk] passes no [FileInfo] only together with an error. *)
Lemma visits_info :
  forall n path p e, In (p, None, e) (visits os path n) -> e <> None.
Proof.
  fix IH 1. intros [|readErr entries|e0] path p e Hin.
  - destruct Hin as [H|[]]. discriminate H.
  - simpl in Hin. destruct Hin as [H|Hin]; [discriminate H|].
    destruct readErr as [e1|]; [destruct Hin|].
    induction entries as [|[name child] es IHes]; [destruct Hin|].
    apply in_app_iff in Hin as [Hin|Hin]; [by eapply IH | by apply IHes].
  - destruct Hin as [H|[]]. injection H as _ <-. discriminate.
Qed.

Variables basePath bucket prefix : string.

Local Abbreviation fn := (putFile os env basePath bucket prefix).

Lemma runVisit_failure v w e' :
  (forall p e, v = (p, None, e) -> e <> None) ->
  (runVisit fn v w).1 = Some e' ->
  visitFailure os env basePath bucket prefix v e'.
Proof.
  destruct v as [[p i] e]. intros Hinfo. unfold runVisit, putFile, visitFailure.
  destruct e as [e|].
  { destruct i as [[[|]]|]; intros [= <-]; left; eauto. }
  destruct i as [[[|]]|]; simpl.
  - discriminate.
  - destruct (osOpen env p) as [e|body] eqn:Ho.
    { intros [= <-]. right. exists p. auto. }
    destruct (objectKeyOf os basePath prefix p) as [e|key] eqn:Hk.
    { simpl. intros [= <-]. right. exists p. split; [reflexivity|].
      right. left. eauto. }
    destruct (putObject env bucket key body) as [e|] eqn:Hp; [|discriminate].
    simpl. intros [= <-]. right. exists p. split; [reflexivity|].
    right. right. eauto 10.
  - exfalso. by apply (Hinfo p None).
Qed.

Lemma runVisits_failure vs w e' :
  (forall p e, In (p, None, e) vs -> e <> None) ->
  (runVisits fn vs w).1 = Some e' ->
  exists v, In v vs /\ visitFailure os env basePath bucket prefix v e'.
Proof.
  revert w. induction vs as [|v vs IH]; intros w Hinfo; simpl; [discriminate|].
  pose proof (runVisit_failure v w e') as Hv.
  destruct (runVisit fn v w) as [[e|] w1]; simpl in *.
  - intros [= <-]. exists v. split; [by left|]. apply Hv; [|reflexivity].
    intros p e0 ->. apply (Hinfo p). by left.
  - intros H. destruct (IH w1) as (v' & Hin & Hf); [|exact H|].
    + intros p e0 Hin. apply (Hinfo p). by right.
    + exists v'. split; [by right | exact Hf].
Qed.

End UploadExtras.

Section UploadExtras2.

Import GoStrings Filepath.

(** X13. Every error [PutObjectsWithCseKms] returns is an error of the
    walk ([Lstat] or the reading of a directory), returned as it is, or
    the failure of a walked file: of [os.Open] or of [Rel], returned as
    they are, or of [PutObject], wrapped with the path, the bucket and
    the key. *)
Theorem X13_upload_errors os env basePath bucket prefix w e' :
  (PutObjectsWithCseKms os env basePath bucket prefix w).1 = Some e' ->
  exists v,
    In v (visits os basePath (fsAt env basePath)) /\
    visitFailure os env basePath bucket prefix v e'.
Proof.
  unfold PutObjectsWithCseKms, Walk. rewrite visit_runVisits.
  apply runVisits_failure. intros p e. apply visits_info.
Qed.

(** X14. An upload from a tree without files (directories only) that
    meets no error of the walk ends without an error, puts nothing and
    logs no upload. *)
Theorem X14_upload_without_files os env basePath bucket prefix w :
  let r := PutObjectsWithCseKms os env basePath bucket prefix w in
  let vs := visits os basePath (fsAt env basePath) in
  filesOf vs = [] ->
  (forall p i e, In (p, i, e) vs -> e = None) ->
  r.1 = None /\
  objects r.2 = objects w /\
  uploadsOf (trace r.2) = uploadsOf (trace w).
Proof.
  intros r vs Hfs Hv. subst r. unfold PutObjectsWithCseKms, Walk.
  rewrite visit_runVisits. fold vs.
  assert (Hr : (runVisits (putFile os env basePath bucket prefix) vs w).1 = None).
  { apply runVisits_succeeds.
    - intros p i e Hin. pose proof (Hv p i e Hin) as ->. split; [|reflexivity].
      intros ->. by apply (visits_info os _ _ _ _ Hin).
    - rewrite Hfs. intros p []. }
  destruct (runVisits_putFile os env basePath bucket prefix vs w)
    as (n & _ & Hup & _ & _ & Hall).
  destruct (Hall Hr) as (_ & Hobj).
  split; [exact Hr|]. split.
  - rewrite Hobj, Hfs. reflexivity.
  - rewrite Hup, Hfs, take_nil. simpl. by rewrite app_nil_r.
Qed.

Lemma getItem_untouched os env path bucket prefix nkeys k ds w d :
  (localFilePathOf os path prefix nkeys k = d ->
   ~ (mkdirAll env (Dir os d) = None /\
      (exists body, getObject env bucket k = inr body) /\
      osCreate env d = None)) ->
  files (getItem os env path bucket prefix nkeys k ds w).2 !! d = files w !! d.
Proof.
  intros Hd. unfold getItem.
  set (dst := localFilePathOf os path prefix nkeys k) in *.
  destruct (mkdirAll env (Dir os dst)) as [e|] eqn:Hm; [reflexivity|].
  destruct (getObject env bucket k) as [e|body] eqn:Hg; [reflexivity|].
  destruct (osCreate env dst) as [e|] eqn:Hc; [reflexivity|].
  assert (Hne : dst <> d).
  { intros E. apply (Hd E). rewrite <- E. eauto. }
  destruct (readFrom env dst) as [[e n]|]; simpl;
    rewrite !lookup_insert_ne by exact Hne; reflexivity.
Qed.

End UploadExtras2.

Section MainExtras.

Import GoStrings Filepath.

(** X16. [main] ends with success exactly when one mode is selected,
    the configuration, the materials manager and the encryption client
    are obtained, and the transfer of the selected mode returns no
    error. *)
Theorem X16_main_success os env (download upload : bool)
    bucket key path arn w :
  (main os env download upload bucket key path arn w).1 = ExitOK <->
  download <> upload /\
  loadDefaultConfig env = None /\
  newCMM env arn = None /\
  newClient env = None /\
  (if download
   then (GetObjectsWithCseKms os env path bucket key (emit EvLoadConfig w)).1
   else (PutObjectsWithCseKms os env path bucket key (emit EvLoadConfig w)).1)
  = None.
Proof.
  unfold main.
  destruct download, upload; simpl;
    try (split; [discriminate | intros (H & _); congruence]);
    destruct (loadDefaultConfig env); simpl;
    try (split; [discriminate | intros (_ & H & _); discriminate]);
    destruct (newCMM env arn); simpl;
    try (split; [discriminate | intros (_ & _ & H & _); discriminate]);
    destruct (newClient env); simpl;
    try (split; [discriminate | intros (_ & _ & _ & H & _); discriminate]).
  - destruct (GetObjectsWithCseKms _ _ _ _ _ _) as [[e|] w']; simpl.
    + split; [discriminate | intros (_ & _ & _ & _ & H); discriminate].
    + split; [intros _; repeat split; discriminate | reflexivity].
  - destruct (PutObjectsWithCseKms _ _ _ _ _ _) as [[e|] w']; simpl.
    + split; [discriminate | intros (_ & _ & _ & _ & H); discriminate].
    + split; [intros _; repeat split; discriminate | reflexivity].
Qed.

End MainExtras.

Section LateCloses.

Import GoStrings Filepath.

Lemma getItem_no_close os env path bucket prefix nkeys k ds w :
  exists evs,
    trace (getItem os env path bucket prefix nkeys k ds w).2 = trace w ++ evs /\
    forall h, ~ In (EvClose h) evs.
Proof.
  destruct (getItem_calls os env path bucket prefix nkeys k ds w)
    as (evs & Ht & (rest & Hp)).
  exists (EvMkdirAll (Dir os (localFilePathOf os path prefix nkeys k)) :: evs).
  split; [exact Ht|].
  intros h [H|H]; [discriminate H|].
  assert (Hin : In (EvClose h) (evs ++ rest)) by (apply in_app_iff; by left).
  rewrite <- Hp in Hin. simpl in Hin.
  repeat (destruct Hin as [Hin|Hin]; [discriminate Hin|]). exact Hin.
Qed.

Lemma getLoop_no_close os env path bucket prefix nkeys keys ds w :
  exists evs,
    trace (getLoop os env path bucket prefix nkeys keys ds w).2 = trace w ++ evs /\
    forall h, ~ In (EvClose h) evs.
Proof.
  revert ds w. induction keys as [|k keys IH]; intros ds w; simpl.
  - exists []. split; [by rewrite app_nil_r | intros h []].
  - destruct (getItem_no_close os env path bucket prefix nkeys k ds w)
      as (e1 & H1 & Hc1).
    destruct (getItem _ _ _ _ _ _ _ _ _) as [[[e|] ds1] w1]; simpl in *.
    + exists e1. auto.
    + destruct (IH ds1 w1) as (e2 & H2 & Hc2).
      exists (e1 ++ e2). split; [by rewrite H2, H1, app_assoc|].
      intros h Hin. apply in_app_iff in Hin as [Hin|Hin];
        [by apply (Hc1 h) | by apply (Hc2 h)].
Qed.

(** X17. In a download no handle is closed before the loop has ended:
    the trace of a run is the events of the loop, none of which is a
    close, followed by the closes of all handles opened, two for every
    member key when the run ends without an error. *)
Theorem X17_download_closes_at_the_end os env path bucket prefix w keys :
  (listKeys env bucket prefix w).1 = inr keys ->
  let r := GetObjectsWithCseKms os env path bucket prefix w in
  exists evs opened,
    trace r.2 = trace w ++ evs ++ map EvClose opened /\
    (forall h, ~ In (EvClose h) evs) /\
    (r.1 = None -> length opened = 2 * length keys).
Proof.
  intros Hl r. subst r. unfold GetObjectsWithCseKms.
  assert (Ht0 : exists e0, trace (listKeys env bucket prefix w).2 = trace w ++ e0
                           /\ forall h, ~ In (EvClose h) e0).
  { unfold listKeys. destruct (HasSuffix prefix "/").
    - exists [EvListObjectsV2 bucket prefix].
      split; [by destruct (listObjectsV2 env bucket prefix)|].
      intros h [H|[]]. discriminate H.
    - exists []. split; [by rewrite app_nil_r | intros h []]. }
  destruct Ht0 as (e0 & Ht0 & Hc0).
  destruct (listKeys env bucket prefix w) as [[e|keys'] w0]; simpl in *;
    [discriminate|].
  injection Hl as ->.
  destruct (getLoop_no_close os env path bucket prefix (length keys) keys [] w0)
    as (e1 & Ht1 & Hc1).
  pose proof (getLoop_handles_accumulate os env path bucket prefix
                (length keys) keys [] w0) as Hacc.
  destruct (getLoop _ _ _ _ _ _ _ _ _) as [[r ds] w1]. simpl in *.
  exists (e0 ++ e1), ds. split; [|split].
  - rewrite trace_runDefers, Ht1, Ht0, <- !app_assoc. reflexivity.
  - intros h Hin. apply in_app_iff in Hin as [Hin|Hin];
      [by apply (Hc0 h) | by apply (Hc1 h)].
  - intros ->. destruct (Hacc ds w1 eq_refl) as (opened & Hlen & Hds & _).
    rewrite app_nil_r in Hds. by subst ds.
Qed.

Lemma X17_download_closes_at_the_end_witness :
  exists evs opened,
    trace (GetObjectsWithCseKms Unix (quietEnv ["p/a"; "p/b"] NFile)
             "/out" "b" "p/" emptyWorld).2
    = evs ++ map EvClose opened /\
    (forall h, ~ In (EvClose h) evs).
Proof.
  destruct (X17_download_closes_at_the_end Unix (quietEnv ["p/a"; "p/b"] NFile)
              "/out" "b" "p/" emptyWorld ["p/a"; "p/b"] eq_refl)
    as (evs & opened & Ht & Hc & _).
  exists evs, opened. split; [exact Ht | exact Hc].
Defined.

End LateCloses.

Section ExtraRuns.

Import GoStrings Filepath.

Lemma X4_download_success_is_complete_witness :
  exists keys,
    (listKeys (quietEnv ["reports/2024/jan.csv"; "reports/2024/feb.csv"] NFile)
              "b" "reports/" emptyWorld).1 = inr keys /\
    downloadsOf
      (trace (GetObjectsWithCseKms Unix
                (quietEnv ["reports/2024/jan.csv"; "reports/2024/feb.csv"] NFile)
                "/out" "b" "reports/" emptyWorld).2)
    = map (fun k => (k, localFilePathOf Unix "/out" "reports/" (length keys) k))
          keys.
Proof.
  destruct (X4_download_success_is_complete Unix
              (quietEnv ["reports/2024/jan.csv"; "reports/2024/feb.csv"] NFile)
              "/out" "b" "reports/" emptyWorld eq_refl)
    as (keys & Hl & Hd & _).
  exists keys. split; [exact Hl | exact Hd].
Defined.

Lemma X5_upload_success_is_complete_witness :
  uploadsOf (trace (PutObjectsWithCseKms Unix (quietEnv [] threeFiles)
                      "/data" "b" "in/" emptyWorld).2)
  = [("/data/a", "in/a"); ("/data/b", "in/b"); ("/data/c", "in/c")].
Proof.
  exact (proj1 (proj2 (proj2
    (X5_upload_success_is_complete Unix (quietEnv [] threeFiles)
       "/data" "b" "in/" emptyWorld eq_refl)))).
Defined.

Lemma X6_download_again_witness :
  let env := quietEnv ["p/a"; "p/b"] NFile in
  (GetObjectsWithCseKms Unix env "/out" "b" "p/"
     (GetObjectsWithCseKms Unix env "/out" "b" "p/" emptyWorld).2).1 = None.
Proof.
  exact (proj1 (X6_download_again Unix (quietEnv ["p/a"; "p/b"] NFile)
                  "/out" "b" "p/" emptyWorld eq_refl)).
Defined.

Lemma X7_upload_again_witness :
  let env := quietEnv [] threeFiles in
  (PutObjectsWithCseKms Unix env "/data" "b" "in/"
     (PutObjectsWithCseKms Unix env "/data" "b" "in/" emptyWorld).2).1 = None.
Proof.
  exact (proj1 (X7_upload_again Unix (quietEnv [] threeFiles)
                  "/data" "b" "in/" emptyWorld eq_refl)).
Defined.

Lemma X13_upload_errors_witness :
  exists v,
    In v (visits Unix "/data" (fsAt rejectEnv "/data")) /\
    visitFailure Unix rejectEnv "/data" "b" "in/" v
      (ErrWrap "failed to upload /data/b → b/in/b: " (ErrNew "rejected")).
Proof.
  exact (X13_upload_errors Unix rejectEnv "/data" "b" "in/" emptyWorld _ eq_refl).
Defined.

Lemma X14_upload_without_files_witness :
  (PutObjectsWithCseKms Unix (quietEnv [] emptyDirs) "/data" "b" "in/"
     emptyWorld).1 = None.
Proof.
  apply (X14_upload_without_files Unix (quietEnv [] emptyDirs) "/data" "b" "in/"
           emptyWorld eq_refl).
  intros p i e [H|[H|[]]]; by injection H.
Defined.

Lemma X16_main_success_witness :
  (main Unix (quietEnv ["p/a"] NFile) true false "b" "p/" "/out" "arn"
     emptyWorld).1 = ExitOK.
Proof.
  apply (proj2 (X16_main_success Unix (quietEnv ["p/a"] NFile) true false
                  "b" "p/" "/out" "arn" emptyWorld)).
  repeat split; (discriminate || reflexivity).
Defined.

End ExtraRuns.

(** ** Paths below a path *)

Section UnderFacts.

Import GoStrings Filepath.

Variable os : GOOS.

Local Abbreviation sep := (Separator os).

(** Elements pushed on the output of [Clean] are rendered below it. *)
Lemma render_under r out ns :
  normalStack os r out ->
  Forall (fun e => plainL os e = true) ns ->
  ns <> [] ->
  render os r (rev ns ++ out) = under os (render os r out) (joinL [sep] ns).
Proof.
  intros Hn0 Hns Hnsne.
  assert (Hnsok : Forall (elemOK os) ns).
  { eapply Forall_impl; [exact Hns|]. intros e. apply plainL_elemOK. }
  set (J := joinL [sep] ns).
  assert (Hrev : rev (rev ns ++ out) = rev out ++ ns).
  { by rewrite rev_app_distr, rev_involutive. }
  assert (Hok0 : Forall (elemOK os) (rev out)).
  { apply Forall_rev. apply Hn0. }
  assert (Hnz : rev ns ++ out <> []).
  { intros E. apply app_eq_nil in E as (E & _).
    apply Hnsne. by rewrite <- (rev_involutive ns), E. }
  unfold under, eqbL.
  destruct (rev out) as [|e0 E0] eqn:Erev.
  - assert (Hout : out = []) by (by rewrite <- (rev_involutive out), Erev).
    subst out. rewrite app_nil_r. unfold render. rewrite rev_involutive. fold J.
    destruct r; simpl joinL.
    + rewrite bool_decide_eq_true_2 by reflexivity. reflexivity.
    + rewrite bool_decide_eq_false_2
        by (intros [= E]; by destruct (sep_not_dot os)).
      rewrite bool_decide_eq_true_2 by reflexivity.
      destruct (rev ns) eqn:E; [|reflexivity].
      exfalso. apply Hnsne. by rewrite <- (rev_involutive ns), E.
  - assert (Hout : out <> []) by (intros E; rewrite E in Erev; discriminate).
    set (Eb := e0 :: E0) in *.
    assert (HEb : Eb <> []) by discriminate.
    set (B := render os r out).
    assert (HBeq : B = (if r then [sep] else []) ++ joinL [sep] Eb).
    { subst B. unfold render. rewrite Erev. destruct r; [reflexivity|].
      destruct out; [congruence | reflexivity]. }
    assert (HT : render os r (rev ns ++ out) = B ++ sep :: J).
    { unfold render. rewrite Hrev, (joinL_app os) by assumption. fold J.
      rewrite HBeq. destruct r; [reflexivity|].
      destruct (rev ns ++ out); [congruence | reflexivity]. }
    assert (HJb : joinL [sep] Eb <> []) by (by apply joinL_nonempty).
    assert (HBsep : B <> [sep]).
    { rewrite HBeq. destruct r.
      - intros E. apply HJb. simpl in E. by injection E.
      - rewrite app_nil_l. intros E.
        pose proof (isRooted_joinL os Eb Hok0) as Hr.
        rewrite E in Hr. simpl in Hr. by rewrite sep_is_sep in Hr. }
    assert (HBdot : B <> dot).
    { rewrite HBeq. destruct r.
      - simpl. intros [= E _]. by destruct (sep_not_dot os).
      - rewrite app_nil_l. by apply joinL_not_dot. }
    rewrite HT, !bool_decide_eq_false_2 by assumption. reflexivity.
Qed.

(** The path [Walk] builds for a list of names below a path is the
    cleaned path followed by the names. *)
Lemma below_under path names :
  Forall (fun name => plain os name = true) names ->
  names <> [] ->
  unstr (below os path names)
  = under os (unstr (Clean os path)) (joinL [sep] (map unstr names)).
Proof.
  intros Hall Hne. rewrite below_render by assumption.
  unfold Clean, cleanL. rewrite !unstr_str.
  apply render_under.
  - apply cleanOut_normal.
  - by apply plain_names_ok.
  - by destruct names.
Qed.

(** The path of an entry below a path is a cleaned path. *)
Lemma Clean_below path names :
  Forall (fun name => plain os name = true) names ->
  names <> [] ->
  Clean os (below os path names) = below os path names.
Proof.
  intros Hall Hne. rewrite below_render by assumption.
  unfold Clean. rewrite unstr_str. f_equal.
  assert (Hn : normalStack os (isRooted os (unstr path))
                 (rev (map unstr names) ++ cleanOut os (unstr path))).
  { apply normalStack_push_all; [apply cleanOut_normal | by apply plain_names_ok]. }
  unfold cleanL. rewrite isRooted_render by apply Hn.
  by rewrite cleanOut_render.
Qed.

(** Joining a relative path of names, written with any separator of the
    host, to a path gives the path [Walk] builds for the same names. *)
Lemma Join_names_any (c : ascii) path names :
  IsPathSeparator os c = true ->
  Forall (fun name => plain os name = true) names ->
  names <> [] ->
  Join os [path; str (joinL [c] (map unstr names))] = below os path names.
Proof.
  intros Hc Hall Hne. rewrite below_render by assumption.
  destruct (plain_names_ok os names Hall) as (Hpl & Hok).
  set (ns := map unstr names) in *.
  assert (Hnsne : ns <> []) by (subst ns; by destruct names).
  assert (HJ : joinL [c] ns <> []).
  { destruct ns as [|e ns']; [congruence|].
    inversion Hok as [|? ? (_ & He & _) _]; subst.
    destruct ns'; [exact He|]. rewrite joinL_cons_any by discriminate.
    by destruct e. }
  unfold Join. simpl joinRaw. rewrite unstr_str.
  destruct (unstr path) as [|c0 p] eqn:Ep.
  - destruct (joinL [c] ns) as [|j0 j1] eqn:Ej; [congruence|].
    rewrite <- Ej. f_equal. simpl joinL. unfold cleanL, cleanOut.
    rewrite isRooted_joinL_any by exact Hok.
    rewrite fields_joinL_any by assumption.
    rewrite (fold_cleanStep_plain os) by exact Hpl. reflexivity.
  - f_equal. simpl joinL. unfold cleanL, cleanOut.
    change (c0 :: p ++ sep :: joinL [c] ns)
      with ((c0 :: p) ++ sep :: joinL [c] ns).
    rewrite isRooted_app by discriminate.
    rewrite fields_app_sep by apply sep_is_sep.
    rewrite fields_joinL_any by assumption.
    rewrite fold_left_app, (fold_cleanStep_plain os) by exact Hpl. reflexivity.
Qed.

(** Joined names determine the names. *)
Lemma joinL_inj es1 es2 :
  Forall (elemOK os) es1 -> Forall (elemOK os) es2 ->
  joinL [sep] es1 = joinL [sep] es2 -> es1 = es2.
Proof.
  intros H1 H2 E.
  rewrite <- (fields_joinL os es1 H1), <- (fields_joinL os es2 H2).
  by rewrite E.
Qed.

Lemma under_inj dir rel1 rel2 :
  under os dir rel1 = under os dir rel2 -> rel1 = rel2.
Proof.
  unfold under. destruct (eqbL dir [sep]); [apply app_inv_head|].
  destruct (eqbL dir dot); [auto|].
  intros E. apply app_inv_head in E. by injection E.
Qed.

(** Distinct lists of names give distinct paths below a path. *)
Lemma below_inj path names1 names2 :
  Forall (fun name => plain os name = true) names1 -> names1 <> [] ->
  Forall (fun name => plain os name = true) names2 -> names2 <> [] ->
  below os path names1 = below os path names2 -> names1 = names2.
Proof.
  intros H1 Hn1 H2 Hn2 E. apply (f_equal unstr) in E.
  rewrite !below_under in E by assumption.
  apply under_inj in E.
  apply joinL_inj in E; try (by apply plain_names_ok).
  revert E. clear. revert names2.
  induction names1 as [|a l IH]; intros [|b l']; simpl; try discriminate; auto.
  intros [= Ea El]. f_equal; [by apply unstr_inj | by apply IH].
Qed.

End UnderFacts.

Section SlashFacts.

Import GoStrings Filepath.

Variable os : GOOS.

Local Abbreviation sep := (Separator os).

(** A cleaned path that is rooted starts with the separator of the
    host. *)
Lemma cleanL_rooted_sep s :
  isRooted os (cleanL os s) = true -> exists t, cleanL os s = sep :: t.
Proof.
  unfold cleanL.
  rewrite isRooted_render by apply (cleanOut_normal os s).
  intros ->. simpl. eauto.
Qed.

(** [ToSlash] of a relative path below a cleaned path. *)
Lemma toSlashL_under B J :
  (isRooted os B = true -> exists t, B = sep :: t) ->
  toSlashL os (under os B J) = under Unix (toSlashL os B) (toSlashL os J).
Proof.
  intros HB. unfold toSlashL. destruct os; [reflexivity|].
  change (Ascii.eqb (Separator Windows) "/") with false. cbv iota.
  set (f := fun c : ascii =>
              if Ascii.eqb c (Separator Windows) then "/"%char else c).
  assert (Hf : forall c, f c = "/"%char -> IsPathSeparator Windows c = true).
  { intros c. unfold f. change (Separator Windows) with "\"%char. simpl.
    destruct (Ascii.eqb c "\"); [reflexivity|].
    intros ->. reflexivity. }
  assert (Hdot : forall c, f c = "."%char -> c = "."%char).
  { intros c. unfold f. change (Separator Windows) with "\"%char.
    destruct (Ascii.eqb c "\"); [discriminate | auto]. }
  unfold under, eqbL.
  case_bool_decide as H1.
  { subst B. reflexivity. }
  case_bool_decide as H2.
  { subst B. reflexivity. }
  rewrite map_app, map_cons.
  rewrite bool_decide_eq_false_2.
  - rewrite bool_decide_eq_false_2; [reflexivity|].
    destruct B as [|c [|d B]]; try discriminate.
    intros [= E]. apply Hdot in E. subst c. by apply H2.
  - destruct B as [|c [|d B]]; try discriminate.
    intros [= E]. apply Hf in E.
    destruct (HB E) as (t & [= -> <-]). by apply H1.
Qed.

Lemma joinL_inj_any (c : ascii) es1 es2 :
  IsPathSeparator os c = true ->
  Forall (elemOK os) es1 -> Forall (elemOK os) es2 ->
  joinL [c] es1 = joinL [c] es2 -> es1 = es2.
Proof.
  intros Hc H1 H2 E.
  rewrite <- (fields_joinL_any os c es1 Hc H1), <- (fields_joinL_any os c es2 Hc H2).
  by rewrite E.
Qed.

Lemma map_unstr_inj (l1 l2 : list string) :
  map unstr l1 = map unstr l2 -> l1 = l2.
Proof.
  revert l2. induction l1 as [|a l IH]; intros [|b l']; simpl;
    try discriminate; auto.
  intros [= Ea El]. f_equal; [by apply unstr_inj | by apply IH].
Qed.

(** The key of a file at [names] below the base path, for a prefix that
    ends with a slash: the cleaned prefix, with slashes, followed by the
    names separated by slashes. *)
Lemma ToSlash_Join_names prefix names :
  Forall (fun name => plain os name = true) names ->
  names <> [] ->
  unstr (ToSlash os (Join os [prefix; str (joinL [sep] (map unstr names))]))
  = under Unix (unstr (ToSlash os (Clean os prefix)))
      (joinL ["/"%char] (map unstr names)).
Proof.
  intros Hall Hne.
  rewrite (Join_names_any os sep) by (apply sep_is_sep || assumption).
  unfold ToSlash. rewrite !unstr_str.
  rewrite (below_under os) by assumption.
  unfold Clean. rewrite unstr_str.
  rewrite toSlashL_under by apply cleanL_rooted_sep.
  rewrite toSlashL_joinL by (by apply plain_names_ok).
  reflexivity.
Qed.

(** For a prefix made of names separated by slashes and ending with a
    slash, the cleaned prefix is the names. *)
Lemma Clean_prefix dirs :
  Forall (fun name => plain os name = true) dirs ->
  dirs <> [] ->
  unstr (ToSlash os (Clean os (str (joinL ["/"%char] (map unstr dirs)) +:+ "/")))
  = joinL ["/"%char] (map unstr dirs).
Proof.
  intros Hd Hdne.
  destruct (plain_names_ok os dirs Hd) as (Hdpl & Hdok).
  set (ds := map unstr dirs) in *.
  assert (Hdsne : ds <> []) by (subst ds; by destruct dirs).
  assert (Hdj : joinL ["/"%char] ds <> []).
  { destruct ds as [|e ds']; [congruence|].
    inversion Hdok as [|? ? (_ & He & _) _]; subst.
    destruct ds'; [exact He|]. rewrite joinL_cons_any by discriminate.
    by destruct e. }
  unfold ToSlash, Clean. rewrite !unstr_str, unstr_app, unstr_str.
  change (unstr "/") with ["/"%char].
  unfold cleanL, cleanOut.
  rewrite isRooted_app by exact Hdj.
  rewrite isRooted_joinL_any by exact Hdok.
  rewrite fields_app_sep by apply slash_is_sep.
  rewrite fields_joinL_any by (apply slash_is_sep || exact Hdok).
  simpl fields. rewrite app_nil_r.
  rewrite (fold_cleanStep_plain os) by exact Hdpl.
  rewrite app_nil_r. unfold render.
  destruct (rev ds) as [|x xs] eqn:Er.
  { exfalso. apply Hdsne. by rewrite <- (rev_involutive ds), Er. }
  rewrite <- Er, rev_involutive.
  by apply toSlashL_joinL.
Qed.

Lemma joinL_slash_shape es :
  Forall (elemOK os) es -> es <> [] ->
  joinL ["/"%char] es <> ["/"%char] /\ joinL ["/"%char] es <> dot.
Proof.
  intros Hes Hne. destruct es as [|e es]; [congruence|].
  inversion Hes as [|? ? (Hsf & Hn & Hd) Hes']; subst.
  assert (Hhd : forall t, e ++ t <> "/"%char :: drop 1 (e ++ t)).
  { intros t E. destruct e as [|c e]; [congruence|]. simpl in E.
    injection E as ->. simpl in Hsf. by rewrite slash_is_sep in Hsf. }
  destruct es as [|e' es].
  - simpl. split; [|exact Hd]. intros E. apply (Hhd []).
    rewrite app_nil_r, E. reflexivity.
  - rewrite joinL_cons_any by discriminate. split.
    + intros E. apply (Hhd ("/"%char :: joinL ["/"%char] (e' :: es))).
      rewrite E. reflexivity.
    + destruct e as [|c e]; [congruence|]. destruct e; discriminate.
Qed.

(** With such a prefix the key is the prefix followed by the names
    separated by slashes. *)
Lemma under_prefix dirs names :
  Forall (fun name => plain os name = true) dirs ->
  dirs <> [] ->
  let prefix := str (joinL ["/"%char] (map unstr dirs)) +:+ "/" in
  str (under Unix (unstr (ToSlash os (Clean os prefix)))
         (joinL ["/"%char] (map unstr names)))
  = prefix +:+ str (joinL ["/"%char] (map unstr names)).
Proof.
  intros Hd Hdne prefix. subst prefix. rewrite Clean_prefix by assumption.
  destruct (plain_names_ok os dirs Hd) as (_ & Hdok).
  destruct (joinL_slash_shape (map unstr dirs) Hdok) as (H1 & H2);
    [by destruct dirs|].
  unfold under, eqbL. change (Separator Unix) with "/"%char.
  rewrite !bool_decide_eq_false_2 by assumption.
  apply unstr_inj. rewrite unstr_str, !unstr_app, !unstr_str.
  rewrite <- app_assoc. reflexivity.
Qed.

End SlashFacts.

Section BaseFacts.

Import GoStrings Filepath.

Variable os : GOOS.

(** [Base] of a name that follows nothing or a path separator is the
    name. *)
Lemma Base_after_sep pre name :
  plain os name = true ->
  endsWithSeparator os pre = true ->
  Base os (pre +:+ name) = name.
Proof.
  intros Hn Hpre. unfold plain in Hn.
  pose proof (proj1 (plainL_spec os _) Hn) as (Hsf & Hne & _).
  set (n := unstr name) in *.
  assert (Hrevn : exists c l, rev n = c :: l /\ IsPathSeparator os c = false).
  { destruct (rev n) as [|c l] eqn:E.
    - exfalso. apply Hne. by rewrite <- (rev_involutive n), E.
    - exists c, l. split; [reflexivity|].
      apply sepFree_rev in Hsf. rewrite E in Hsf. simpl in Hsf.
      apply andb_true_iff in Hsf as (Hc & _). by apply negb_true_iff in Hc. }
  destruct Hrevn as (c & l & Hrev & Hc).
  assert (Hp : match rev (unstr pre) with
               | [] => True
               | d :: _ => negb (IsPathSeparator os d) = false
               end).
  { unfold endsWithSeparator in Hpre.
    destruct (rev (unstr pre)); [exact I | by rewrite Hpre]. }
  unfold Base, baseL. rewrite unstr_app. fold n.
  destruct (unstr pre ++ n) as [|x0 x1] eqn:Ex.
  { apply app_eq_nil in Ex as (_ & E). congruence. }
  rewrite <- Ex. clear Ex x0 x1.
  rewrite rev_app_distr.
  assert (Hs1 : span (IsPathSeparator os) (rev n ++ rev (unstr pre))
                = ([], rev n ++ rev (unstr pre))).
  { rewrite Hrev. simpl. by rewrite Hc. }
  rewrite Hs1. simpl snd.
  rewrite (span_all _ (rev n) (rev (unstr pre))); [| by apply sepFree_rev | exact Hp].
  simpl fst. rewrite Hrev, <- Hrev, rev_involutive. apply str_unstr.
Qed.

End BaseFacts.

Section DownloadSuccess.

Import GoStrings Filepath.

Variable os : GOOS.
Variable env : Env.
Variables path bucketName objectPrefix : string.
Variable nkeys : nat.

Local Abbreviation dest := (localFilePathOf os path objectPrefix nkeys).

(** A loop in which no call fails ends without an error. *)
Lemma getLoop_succeeds keys ds w :
  (forall k, In k keys ->
     mkdirAll env (Dir os (dest k)) = None /\
     (exists body, getObject env bucketName k = inr body) /\
     osCreate env (dest k) = None /\
     readFrom env (dest k) = None) ->
  (getLoop os env path bucketName objectPrefix nkeys keys ds w).1.1 = None.
Proof.
  revert ds w. induction keys as [|k keys IH]; intros ds w Hk; [reflexivity|].
  simpl.
  destruct (Hk k (or_introl eq_refl)) as (Hm & (body & Hg) & Hc & Hr).
  assert (Hitem : (getItem os env path bucketName objectPrefix nkeys k ds w).1.1
                  = None).
  { unfold getItem. by rewrite Hm, Hg, Hc, Hr. }
  destruct (getItem _ _ _ _ _ _ k ds w) as [[[e|] ds1] w1];
    [discriminate|].
  apply IH. intros k' Hin. apply Hk. by right.
Qed.

End DownloadSuccess.

(** ** Downloads and uploads of a prefix *)

Section PrefixDownload.

Import GoStrings Filepath.

(** C1, as the program has it.  A download of a prefix (the object key
    ends with a slash) gives every member key [k] the destination
    [Join path (TrimPrefix k prefix)], and [Join] cleans its result.  The
    run logs these destinations in the order of the listing for the keys
    it reaches; when no call fails it returns no error, has logged every
    key, and every destination holds the body of the last key mapped to
    it.  The structure below the prefix is kept for the keys whose part
    below the prefix is a list of names separated by slashes: the
    destination is the cleaned base path followed by the names, one
    directory level for each, and different lists of names have
    different destinations.  (On [Windows] this last part is for
    portable paths.) *)
Theorem C1_prefix_download_destinations os env path bucket prefix keys w :
  HasSuffix prefix "/" = true ->
  listObjectsV2 env bucket prefix = inr keys ->
  let r := GetObjectsWithCseKms os env path bucket prefix w in
  let dest := fun k => Join os [path; TrimPrefix k prefix] in
  (forall k, localFilePathOf os path prefix (length keys) k = dest k) /\
  (exists n,
     n <= length keys /\
     downloadsOf (trace r.2)
     = downloadsOf (trace w) ++ map (fun k => (k, dest k)) (take n keys) /\
     (r.1 = None -> n = length keys)) /\
  ((forall k, In k keys ->
      mkdirAll env (Dir os (dest k)) = None /\
      (exists body, getObject env bucket k = inr body) /\
      osCreate env (dest k) = None /\
      readFrom env (dest k) = None) ->
   r.1 = None /\
   downloadsOf (trace r.2)
   = downloadsOf (trace w) ++ map (fun k => (k, dest k)) keys /\
   forall a k b body,
     keys = a ++ k :: b ->
     getObject env bucket k = inr body ->
     (forall y, In y b -> dest y <> dest k) ->
     files r.2 !! dest k = Some body) /\
  (portable os path = true ->
   forall names,
     names <> [] ->
     Forall (fun name => plain os name = true /\ portable os name = true) names ->
     let rest := str (joinL ["/"%char] (map unstr names)) in
     TrimPrefix (prefix +:+ rest) prefix = rest /\
     unstr (dest (prefix +:+ rest))
     = under os (unstr (Clean os path))
         (joinL [Separator os] (map unstr names)) /\
     forall names',
       names' <> [] ->
       Forall (fun name => plain os name = true /\ portable os name = true) names' ->
       dest (prefix +:+ str (joinL ["/"%char] (map unstr names')))
       = dest (prefix +:+ rest) ->
       names' = names).
Proof.
  intros Hsuf Hlist r dest.
  assert (Hdest : forall k,
    localFilePathOf os path prefix (length keys) k = dest k).
  { intros k. unfold localFilePathOf. rewrite Hsuf. reflexivity. }
  assert (Hrun : r = let '(e, ds, w') :=
                       getLoop os env path bucket prefix (length keys) keys []
                         (emit (EvListObjectsV2 bucket prefix) w) in
                     (e, runDefers ds w')).
  { subst r. unfold GetObjectsWithCseKms, listKeys. by rewrite Hsuf, Hlist. }
  assert (Hmap : forall l,
            map (fun k => (k, localFilePathOf os path prefix (length keys) k)) l
            = map (fun k => (k, dest k)) l).
  { intros l. apply map_ext. intros k. by rewrite Hdest. }
  destruct (getLoop_downloads os env path bucket prefix (length keys) keys []
              (emit (EvListObjectsV2 bucket prefix) w)) as (n & Hn & Hd & Hall).
  pose proof (getLoop_succeeds os env path bucket prefix (length keys) keys []
                (emit (EvListObjectsV2 bucket prefix) w)) as Hsucc.
  pose proof (getLoop_success os env path bucket prefix (length keys) keys []
                (emit (EvListObjectsV2 bucket prefix) w)) as Hfiles.
  destruct (getLoop _ _ _ _ _ _ _ _ _) as [[e ds] w'] eqn:E.
  simpl in Hd, Hall, Hsucc, Hrun.
  assert (Hlog : downloadsOf (trace r.2)
                 = downloadsOf (trace w) ++ map (fun k => (k, dest k)) (take n keys)).
  { rewrite Hrun. simpl.
    rewrite trace_runDefers, downloadsOf_app, downloadsOf_closes, app_nil_r, Hd.
    rewrite ?trace_emit, ?downloadsOf_app. simpl. rewrite ?app_nil_r.
    by rewrite Hmap. }
  split; [exact Hdest|]. split; [|split].
  - exists n. split; [exact Hn|]. split; [exact Hlog|].
    rewrite Hrun. exact Hall.
  - intros Hok.
    assert (He : e = None).
    { apply Hsucc. intros k Hin. rewrite !Hdest. by apply Hok. }
    subst e. split; [by rewrite Hrun|]. split.
    + rewrite Hlog, (Hall eq_refl), firstn_all. reflexivity.
    + intros a k b body Hsplit Hbody Hlater.
      destruct (Hfiles ds w' eq_refl) as (Hf & _).
      rewrite Hrun. simpl. rewrite files_runDefers, Hf. simpl files.
      rewrite <- Hdest, Hsplit.
      apply foldl_dstore_last; [exact Hbody|].
      intros y Hy. rewrite <- Hsplit, !Hdest. by apply Hlater.
  - intros _ names Hne Hnames rest.
    assert (Hpl : Forall (fun name => plain os name = true) names).
    { eapply Forall_impl; [exact Hnames|]. by intros ? (? & _). }
    assert (Hto : forall ns,
              ns <> [] -> Forall (fun name => plain os name = true) ns ->
              dest (prefix +:+ str (joinL ["/"%char] (map unstr ns)))
              = below os path ns).
    { intros ns Hns Hp. unfold dest. rewrite TrimPrefix_app.
      by apply Join_names. }
    split; [apply TrimPrefix_app|]. split.
    + subst rest. rewrite Hto by assumption. by apply below_under.
    + intros names' Hne' Hnames' Heq.
      assert (Hpl' : Forall (fun name => plain os name = true) names').
      { eapply Forall_impl; [exact Hnames'|]. by intros ? (? & _). }
      subst rest. rewrite !Hto in Heq by assumption.
      by apply (below_inj os path).
Qed.

(** What the claim says about the structure fails for other keys: with
    an empty segment or a [..] segment below the prefix, two members land
    at the same path, the later one replacing the earlier one without an
    error, and one member lands outside the base path. *)
Lemma C1_counterexample :
  let r := GetObjectsWithCseKms Unix
             (quietEnv ["p/a/b"; "p/a//b"; "p/x/../a/b"; "p/../b"] NFile)
             "/out" "b" "p/" emptyWorld in
  HasSuffix "p/" "/" = true /\
  r.1 = None /\
  downloadsOf (trace r.2)
  = [("p/a/b", "/out/a/b"); ("p/a//b", "/out/a/b");
     ("p/x/../a/b", "/out/a/b"); ("p/../b", "/b")] /\
  files r.2 !! "/out/a/b" = Some (unstr "p/x/../a/b") /\
  files r.2 !! "/b" = Some (unstr "p/../b").
Proof. vm_compute. auto 10. Qed.

End PrefixDownload.

Section PrefixDownloadRuns.

Import GoStrings Filepath.

Lemma C1_prefix_download_destinations_witness :
  let keys := ["reports/2024/jan.csv"; "reports/2024/feb.csv"] in
  let r := GetObjectsWithCseKms Unix (quietEnv keys NFile)
             "/out" "b" "reports/" emptyWorld in
  r.1 = None /\
  downloadsOf (trace r.2)
  = map (fun k => (k, Join Unix ["/out"; TrimPrefix k "reports/"])) keys /\
  files r.2 !! Join Unix ["/out"; TrimPrefix "reports/2024/jan.csv" "reports/"]
  = Some (unstr "reports/2024/jan.csv") /\
  unstr (Join Unix ["/out"; TrimPrefix "reports/2024/jan.csv" "reports/"])
  = unstr "/out/2024/jan.csv".
Proof.
  intros keys r.
  destruct (C1_prefix_download_destinations Unix (quietEnv keys NFile)
              "/out" "b" "reports/" keys emptyWorld eq_refl eq_refl)
    as (_ & _ & Hrun & Hstruct).
  destruct Hrun as (Hr & Hlog & Hfiles).
  { intros k _. repeat split; eauto. }
  destruct (Hstruct eq_refl ["2024"; "jan.csv"]) as (_ & Hdest & _).
  { discriminate. }
  { repeat constructor. }
  split; [exact Hr|]. split; [exact Hlog|]. split; [|exact Hdest].
  apply (Hfiles [] "reports/2024/jan.csv" ["reports/2024/feb.csv"]);
    [reflexivity | reflexivity |].
  intros y [<-|[]]. vm_compute. discriminate.
Defined.

End PrefixDownloadRuns.

Section PrefixUpload.

Import GoStrings Filepath.

(** C2.  In an upload to a prefix (the object key ends with a slash)
    from a base path that is a directory, every walked file [p] lies at a
    list of names below the cleaned base path; [Rel basePath p] is these
    names joined by the separator of the host, never [.], and the key of
    the file is [ToSlash (Join objectPrefix rel)]: the cleaned prefix
    followed by the names, with slashes as the only separators on either
    host.  Different positions have different keys, and for a prefix
    made of names separated by slashes the key is the prefix followed by
    the names separated by slashes.  The uploads logged are those of
    walked files only, in the order of the walk; when no call fails the
    run returns no error, has logged every walked file, and every key
    holds the content of the last file mapped to it.  The call for a
    directory does nothing.  (On [Windows] the statement is for portable
    paths.) *)
Theorem C2_prefix_upload_keys os env basePath bucket objectPrefix w
    readErr entries :
  HasSuffix objectPrefix "/" = true ->
  fsAt env basePath = NDir readErr entries ->
  wfNode os (NDir readErr entries) = true ->
  portable os basePath = true ->
  portable os objectPrefix = true ->
  portableNode os (NDir readErr entries) = true ->
  let r := PutObjectsWithCseKms os env basePath bucket objectPrefix w in
  let vs := visits os basePath (fsAt env basePath) in
  let rel := fun names => str (joinL [Separator os] (map unstr names)) in
  let keyOf := fun names =>
    str (under Unix (unstr (ToSlash os (Clean os objectPrefix)))
           (joinL ["/"%char] (map unstr names))) in
  (forall p, In p (filesOf vs) ->
     exists names,
       names <> [] /\
       Forall (fun name => plain os name = true) names /\
       unstr p = under os (unstr (Clean os basePath)) (unstr (rel names)) /\
       Rel os basePath p = inr (rel names) /\
       rel names <> "." /\
       objectKeyOf os basePath objectPrefix p
       = inr (ToSlash os (Join os [objectPrefix; rel names])) /\
       ToSlash os (Join os [objectPrefix; rel names]) = keyOf names /\
       (forall c, In c (unstr (keyOf names)) ->
                  IsPathSeparator os c = true -> c = "/"%char)) /\
  (forall names1 names2,
     Forall (fun name => plain os name = true) names1 ->
     Forall (fun name => plain os name = true) names2 ->
     keyOf names1 = keyOf names2 -> names1 = names2) /\
  (forall dirs names,
     dirs <> [] ->
     Forall (fun name => plain os name = true) dirs ->
     objectPrefix = str (joinL ["/"%char] (map unstr dirs)) +:+ "/" ->
     keyOf names
     = objectPrefix +:+ str (joinL ["/"%char] (map unstr names))) /\
  (exists n,
     n <= length (filesOf vs) /\
     uploadsOf (trace r.2)
     = uploadsOf (trace w)
       ++ omap (keyAt os basePath objectPrefix) (take n (filesOf vs)) /\
     (r.1 = None -> n = length (filesOf vs))) /\
  ((forall p i e, In (p, i, e) vs -> e = None) ->
   (forall p key,
      In p (filesOf vs) ->
      objectKeyOf os basePath objectPrefix p = inr key ->
      exists body,
        osOpen env p = inr body /\ putObject env bucket key body = None) ->
   r.1 = None /\
   uploadsOf (trace r.2)
   = uploadsOf (trace w) ++ omap (keyAt os basePath objectPrefix) (filesOf vs) /\
   forall a p b key,
     filesOf vs = a ++ p :: b ->
     objectKeyOf os basePath objectPrefix p = inr key ->
     (forall q, In q b -> objectKeyOf os basePath objectPrefix q <> inr key) ->
     objects r.2 !! (bucket, key) = Some (bodyAt env p)) /\
  (forall path w',
     putFile os env basePath bucket objectPrefix path (Some (mkInfo true)) None w'
     = (None, w')).
Proof.
  intros Hsuf Hfs Hwf _ _ _ r vs rel keyOf.
  assert (Hkeys : forall p, In p (filesOf vs) ->
     exists names,
       names <> [] /\
       Forall (fun name => plain os name = true) names /\
       p = below os basePath names /\
       objectKeyOf os basePath objectPrefix p
       = inr (ToSlash os (Join os [objectPrefix; rel names]))).
  { intros p Hp. subst vs. rewrite Hfs in Hp.
    destruct (visits_below os _ basePath Hwf p Hp) as (names & Hall & -> & Hne).
    assert (Hne' : names <> []) by (apply Hne; discriminate).
    exists names. split; [exact Hne'|]. split; [exact Hall|].
    split; [reflexivity|].
    by apply objectKeyOf_below. }
  assert (HkeyOf : forall names,
            names <> [] -> Forall (fun name => plain os name = true) names ->
            ToSlash os (Join os [objectPrefix; rel names]) = keyOf names).
  { intros names Hne Hall. apply unstr_inj. subst keyOf. cbv beta.
    rewrite unstr_str. by apply ToSlash_Join_names. }
  split; [|split; [|split; [|split; [|split]]]].
  - intros p Hp. destruct (Hkeys p Hp) as (names & Hne & Hall & -> & Hkey).
    exists names. split; [exact Hne|]. split; [exact Hall|].
    destruct (Rel_below os basePath names Hall Hne) as (Hrel & Hdot).
    split; [subst rel; cbv beta; rewrite unstr_str; by apply below_under|].
    split; [exact Hrel|]. split; [exact Hdot|]. split; [exact Hkey|].
    split; [by apply HkeyOf|].
    intros c. rewrite <- HkeyOf by assumption. apply ToSlash_normalized.
  - intros names1 names2 H1 H2 E. subst keyOf. cbv beta in E.
    apply (f_equal unstr) in E. rewrite !unstr_str in E.
    apply under_inj in E.
    apply (joinL_inj_any os) in E;
      [by apply map_unstr_inj | apply slash_is_sep | |];
      by apply plain_names_ok.
  - intros dirs names Hdne Hd ->. by apply under_prefix.
  - subst r. unfold PutObjectsWithCseKms, Walk. rewrite visit_runVisits. fold vs.
    destruct (runVisits_putFile os env basePath bucket objectPrefix vs w)
      as (n & Hn & Hup & _ & _ & Hall).
    exists n. split; [exact Hn|]. split; [exact Hup|].
    intros Hr. by apply Hall.
  - intros Hv Hf.
    subst r. unfold PutObjectsWithCseKms, Walk. rewrite visit_runVisits. fold vs.
    assert (Hr : (runVisits (putFile os env basePath bucket objectPrefix) vs w).1
                 = None).
    { apply runVisits_succeeds.
      - intros p i e Hin. pose proof (Hv p i e Hin) as ->. split; [|reflexivity].
        intros ->. by apply (visits_info os _ _ _ _ Hin).
      - intros p Hp. destruct (Hkeys p Hp) as (names & _ & _ & _ & Hkey).
        destruct (Hf p _ Hp Hkey) as (body & Ho & Hput). eauto. }
    destruct (runVisits_putFile os env basePath bucket objectPrefix vs w)
      as (n & _ & Hup & _ & _ & Hall).
    destruct (Hall Hr) as (Hn & Hobj).
    split; [exact Hr|]. split.
    + rewrite Hup, Hn, firstn_all. reflexivity.
    + intros a p b key Hsplit Hkey Hlater.
      rewrite Hobj, Hsplit. by apply foldl_store_last.
  - reflexivity.
Qed.

(** C4, as the program has it.  In an upload to a prefix from a base
    path that is a single file, [Rel] gives [.], so the key is
    [ToSlash (Join objectPrefix (Base file))], and the file is put at that
    key when the put succeeds.  The key is the cleaned concatenation of
    the prefix and the base name, with slashes as separators; for a
    prefix made of names separated by slashes and a file name that
    follows nothing or a separator in the base path, it is the prefix
    followed by the file name.  (On [Windows] the last two facts are for
    portable paths.) *)
Theorem C4_single_file_prefix_upload os env basePath bucket objectPrefix w body :
  HasSuffix objectPrefix "/" = true ->
  fsAt env basePath = NFile ->
  osOpen env basePath = inr body ->
  let r := PutObjectsWithCseKms os env basePath bucket objectPrefix w in
  let key := ToSlash os (Join os [objectPrefix; Base os basePath]) in
  Rel os basePath basePath = inr "." /\
  objectKeyOf os basePath objectPrefix basePath = inr key /\
  uploadsOf (trace r.2) = uploadsOf (trace w) ++ [(basePath, key)] /\
  (putObject env bucket key body = None ->
   r.1 = None /\
   objects r.2 = <[(bucket, key) := body]> (objects w)) /\
  (portable os basePath = true ->
   portable os objectPrefix = true ->
   key = ToSlash os (Clean os (objectPrefix +:+ Base os basePath)) /\
   forall dirs pre name,
     dirs <> [] ->
     Forall (fun d => plain os d = true) dirs ->
     objectPrefix = str (joinL ["/"%char] (map unstr dirs)) +:+ "/" ->
     plain os name = true ->
     endsWithSeparator os pre = true ->
     basePath = pre +:+ name ->
     Base os basePath = name /\ key = objectPrefix +:+ name).
Proof.
  intros Hsuf Hfs Hopen r key.
  assert (Hkey : objectKeyOf os basePath objectPrefix basePath = inr key).
  { unfold objectKeyOf. rewrite Hsuf, Rel_self. reflexivity. }
  split; [apply Rel_self|]. split; [exact Hkey|].
  split; [|split].
  - subst r. unfold PutObjectsWithCseKms, Walk. rewrite Hfs. simpl.
    unfold putFile. simpl. rewrite Hopen, Hkey.
    destruct (putObject env bucket key body); simpl;
      rewrite !uploadsOf_app; simpl; rewrite !app_nil_r; reflexivity.
  - intros Hput. subst r. unfold PutObjectsWithCseKms, Walk. rewrite Hfs. simpl.
    unfold putFile. simpl. rewrite Hopen, Hkey, Hput. auto.
  - intros _ _. split; [subst key; by rewrite Join_after_slash|].
    intros dirs pre name Hdne Hd Hpre Hn Hend Hbase.
    assert (HB : Base os basePath = name).
    { rewrite Hbase. by apply Base_after_sep. }
    split; [exact HB|].
    subst key. rewrite HB. apply unstr_inj.
    pose proof (ToSlash_Join_names os objectPrefix [name]) as HJ.
    simpl in HJ. rewrite str_unstr in HJ.
    rewrite HJ by (by repeat constructor || discriminate).
    pose proof (under_prefix os dirs [name] Hd Hdne) as HU.
    cbv zeta in HU. rewrite <- Hpre in HU. simpl in HU.
    rewrite str_unstr in HU. rewrite <- HU, unstr_str. reflexivity.
Qed.

End PrefixUpload.

Section PrefixUploadRuns.

Import GoStrings Filepath.

Lemma C2_prefix_upload_keys_witness :
  (let r := PutObjectsWithCseKms Unix (quietEnv [] dataTree)
              "/data" "b" "archive/" emptyWorld in
   r.1 = None /\
   uploadsOf (trace r.2)
   = [("/data/sub/y.txt", "archive/sub/y.txt"); ("/data/x.txt", "archive/x.txt")] /\
   objects r.2 !! ("b", "archive/sub/y.txt") = Some (unstr "/data/sub/y.txt")) /\
  Rel Windows "data" "data\sub\y.txt" = inr "sub\y.txt" /\
  objectKeyOf Windows "data" "archive/" "data\sub\y.txt"
  = inr "archive/sub/y.txt".
Proof.
  split.
  - intros r.
    destruct (C2_prefix_upload_keys Unix (quietEnv [] dataTree)
                "/data" "b" "archive/" emptyWorld _ _
                eq_refl eq_refl eq_refl eq_refl eq_refl eq_refl)
      as (_ & _ & _ & _ & Hrun & _).
    destruct Hrun as (Hr & Hup & Hobj).
    + intros p i e [H|[H|[H|[H|[]]]]]; by injection H.
    + intros p key _ _. exists (unstr p). auto.
    + split; [exact Hr|]. split; [exact Hup|].
      apply (Hobj [] "/data/sub/y.txt" ["/data/x.txt"]); [reflexivity..|].
      intros q [<-|[]]. discriminate.
  - destruct (C2_prefix_upload_keys Windows (quietEnv [] dataTree)
                "data" "b" "archive/" emptyWorld _ _
                eq_refl eq_refl eq_refl eq_refl eq_refl eq_refl)
      as (Hfile & _ & Hpre & _).
    destruct (Hfile "data\sub\y.txt")
      as (names & _ & _ & Hp & Hrel & _ & Hk & _).
    { vm_compute. auto. }
    assert (Hn : str (joinL [Separator Windows] (map unstr names)) = "sub\y.txt").
    { apply unstr_inj.
      apply (under_inj Windows (unstr (Clean Windows "data"))).
      rewrite <- Hp. reflexivity. }
    rewrite Hn in Hrel, Hk. split; [exact Hrel | exact Hk].
Defined.

Lemma C4_single_file_prefix_upload_witness :
  let r := PutObjectsWithCseKms Unix (quietEnv [] NFile)
             "/data/x.txt" "b" "archive/" emptyWorld in
  uploadsOf (trace r.2)
  = [("/data/x.txt", ToSlash Unix (Join Unix ["archive/"; Base Unix "/data/x.txt"]))] /\
  ToSlash Unix (Join Unix ["archive/"; Base Unix "/data/x.txt"])
  = "archive/" +:+ "x.txt" /\
  objects r.2 !! ("b", "archive/x.txt") = Some (unstr "/data/x.txt").
Proof.
  intros r.
  destruct (C4_single_file_prefix_upload Unix (quietEnv [] NFile)
              "/data/x.txt" "b" "archive/" emptyWorld _
              eq_refl eq_refl eq_refl)
    as (_ & _ & Hup & Hput & Hlex).
  destruct (Hput eq_refl) as (_ & Hobj).
  destruct (Hlex eq_refl eq_refl) as (_ & Hcat).
  destruct (Hcat ["archive"] "/data/" "x.txt") as (_ & Hkey);
    try reflexivity; [discriminate | repeat constructor |].
  split; [exact Hup|]. split; [exact Hkey|].
  fold r in Hobj. rewrite Hobj, Hkey. reflexivity.
Defined.

End PrefixUploadRuns.

(** ** Keys and paths with several segments; files a download does not
    touch *)

Section Segments.

Import GoStrings Filepath.

Lemma Forall_plain os (names : list string) :
  Forall (fun name => plain os name = true /\ portable os name = true) names ->
  Forall (fun name => plain os name = true) names.
Proof. intros H. eapply Forall_impl; [exact H|]. by intros ? (? & _). Qed.

(** X8. In a download of a prefix, a member key whose part below the
    prefix is a list of names separated by slashes gets the path [Walk]
    would build for these names below the base path: the cleaned base
    path followed by the names, one directory level for each name.  (On
    [Windows]: for portable paths.) *)
Theorem X8_download_keeps_structure os path prefix nkeys names :
  HasSuffix prefix "/" = true ->
  portable os path = true ->
  Forall (fun name => plain os name = true /\ portable os name = true) names ->
  names <> [] ->
  let dest := localFilePathOf os path prefix nkeys
                (prefix +:+ str (joinL ["/"%char] (map unstr names))) in
  dest = below os path names /\
  unstr dest
  = under os (unstr (Clean os path)) (joinL [Separator os] (map unstr names)).
Proof.
  intros Hsuf _ Hall Hne dest. apply Forall_plain in Hall.
  assert (Hd : dest = below os path names).
  { subst dest. unfold localFilePathOf. rewrite Hsuf. simpl orb. cbv iota.
    rewrite TrimPrefix_app. by apply Join_names. }
  split; [exact Hd|]. rewrite Hd. by apply below_under.
Qed.

(** X9. The directory the download creates before it writes a member is
    the directory the member's file is created in: for a key with the
    names [names ++ [name]] below the prefix, the first event of the item
    is [MkdirAll] on the cleaned base path followed by [names].  (On
    [Windows]: for portable paths.) *)
Theorem X9_download_creates_parent os env path bucket prefix nkeys names name ds w :
  HasSuffix prefix "/" = true ->
  portable os path = true ->
  Forall (fun n => plain os n = true /\ portable os n = true) (names ++ [name]) ->
  let key := prefix +:+ str (joinL ["/"%char] (map unstr (names ++ [name]))) in
  let parent :=
    match names with
    | [] => Clean os path
    | _ => str (under os (unstr (Clean os path))
                  (joinL [Separator os] (map unstr names)))
    end in
  Dir os (localFilePathOf os path prefix nkeys key) = parent /\
  exists evs,
    trace (getItem os env path bucket prefix nkeys key ds w).2
    = trace w ++ EvMkdirAll parent :: evs.
Proof.
  intros Hsuf _ Hall key parent. apply Forall_plain in Hall.
  pose proof Hall as Hall'. apply Forall_app in Hall' as (Hnames & Hname).
  inversion Hname as [|? ? Hn _]; subst.
  assert (Hdir : Dir os (localFilePathOf os path prefix nkeys key) = parent).
  { subst key parent. unfold localFilePathOf. rewrite Hsuf. simpl orb. cbv iota.
    rewrite TrimPrefix_app, Join_names by (assumption || by destruct names).
    unfold below. rewrite foldl_app. simpl. rewrite Dir_entry by exact Hn.
    fold (below os path names).
    destruct names as [|n0 names']; [reflexivity|].
    rewrite Clean_below by (assumption || discriminate).
    rewrite <- (str_unstr (below os path (n0 :: names'))).
    f_equal. apply below_under; [assumption | discriminate]. }
  split; [exact Hdir|].
  destruct (getItem_trace os env path bucket prefix nkeys key ds w)
    as (evs & Ht & _).
  exists evs. by rewrite Ht, Hdir.
Qed.

(** X10. Upload then download.  In an upload to a prefix made of
    names separated by slashes and ending with a slash, the key of the
    walked file at [names] below the base path is the prefix followed by
    the names separated by slashes, on either host; a download of that
    key with the same prefix writes it at the same names below the base
    path of the download.  (On [Windows]: for portable paths.) *)
Theorem X10_upload_download_round_trip os basePath dirs names :
  portable os basePath = true ->
  Forall (fun name => plain os name = true /\ portable os name = true) dirs ->
  dirs <> [] ->
  Forall (fun name => plain os name = true /\ portable os name = true) names ->
  names <> [] ->
  let prefix := str (joinL ["/"%char] (map unstr dirs)) +:+ "/" in
  let key := prefix +:+ str (joinL ["/"%char] (map unstr names)) in
  let rel := joinL [Separator os] (map unstr names) in
  unstr (below os basePath names) = under os (unstr (Clean os basePath)) rel /\
  objectKeyOf os basePath prefix (below os basePath names) = inr key /\
  forall localPath nkeys,
    portable os localPath = true ->
    unstr (localFilePathOf os localPath prefix nkeys key)
    = under os (unstr (Clean os localPath)) rel.
Proof.
  intros _ Hd Hdne Hall Hne prefix key rel.
  apply Forall_plain in Hd. apply Forall_plain in Hall.
  assert (Hsuf : HasSuffix prefix "/" = true) by apply HasSuffix_app_slash.
  split; [by apply below_under|]. split.
  - destruct (objectKeyOf_below os basePath prefix names Hsuf Hall Hne)
      as (_ & _ & Hkey).
    rewrite Hkey. f_equal. apply unstr_inj.
    rewrite ToSlash_Join_names by assumption.
    rewrite <- (unstr_str (under Unix _ _)). f_equal.
    by apply under_prefix.
  - intros localPath nkeys _. unfold localFilePathOf.
    rewrite Hsuf. simpl orb. cbv iota. subst key.
    rewrite TrimPrefix_app, Join_names by assumption.
    by apply below_under.
Qed.

(** X11. A download does not keep its files below the base path: with
    the base path [dir] below [root], a member key whose part below the
    prefix is [../name] is written at [name] below [root], beside the
    base directory and not in it.  (On [Windows]: for portable paths.) *)
Theorem X11_download_escapes_base os root dir prefix nkeys name :
  HasSuffix prefix "/" = true ->
  portable os root = true ->
  plain os dir = true /\ portable os dir = true ->
  plain os name = true /\ portable os name = true ->
  let base := Join os [root; dir] in
  let dest := localFilePathOf os base prefix nkeys (prefix +:+ "../" +:+ name) in
  unstr base = under os (unstr (Clean os root)) (unstr dir) /\
  dest = Join os [root; name] /\
  unstr dest = under os (unstr (Clean os root)) (unstr name).
Proof.
  intros Hsuf _ (Hd & _) (Hn & _) base dest.
  assert (Hone : forall x, plain os x = true ->
            unstr (Join os [root; x]) = under os (unstr (Clean os root)) (unstr x)).
  { intros x Hx. apply (below_under os root [x]); [by constructor | discriminate]. }
  assert (Hdest : dest = Join os [root; name]).
  { subst dest base. unfold localFilePathOf. rewrite Hsuf. simpl orb. cbv iota.
    rewrite TrimPrefix_app.
    rewrite (Join_entry os root dir Hd), (Join_entry os root name Hn).
    set (r := isRooted os (unstr root)).
    set (S := cleanOut os (unstr root)).
    pose proof (cleanOut_normal os (unstr root)) as HS. fold r S in HS.
    assert (HdS : normalStack os r (unstr dir :: S)) by (by apply normalStack_push).
    unfold plain in Hd, Hn.
    pose proof (proj1 (plainL_spec os _) Hd) as (_ & _ & _ & Hddd).
    pose proof (proj1 (plainL_spec os _) Hn) as (Hnsf & Hnne & _).
    set (X := render os r (unstr dir :: S)).
    assert (HX : X <> []).
    { subst X. unfold render. destruct r; [discriminate|].
      apply joinL_nonempty; [apply Forall_rev, HdS|].
      intros E. apply (f_equal (@length _)) in E. rewrite length_rev in E.
      discriminate. }
    unfold Join. rewrite joinRaw_two by (by rewrite unstr_str).
    rewrite unstr_str. f_equal. rewrite unstr_app.
    change (unstr "../") with (dotdot ++ ["/"%char]).
    rewrite <- !app_assoc. simpl app.
    unfold cleanL at 1. unfold cleanOut.
    rewrite isRooted_app by exact HX.
    assert (Hr : isRooted os X = r) by (apply isRooted_render, HdS).
    rewrite Hr.
    rewrite fields_app_sep by apply sep_is_sep.
    change ("."%char :: "."%char :: "/"%char :: unstr name)
      with (dotdot ++ "/"%char :: unstr name).
    rewrite (fields_app_sep os dotdot) by apply slash_is_sep.
    rewrite (fields_elem os dotdot)
      by (destruct os; (reflexivity || discriminate)).
    rewrite (fields_elem os (unstr name)) by assumption.
    rewrite fold_left_app.
    pose proof (cleanOut_render os r (unstr dir :: S) HdS) as Hclean.
    unfold cleanOut in Hclean. fold X in Hclean. rewrite Hr in Hclean.
    rewrite Hclean. simpl fold_left.
    assert (Hpop : cleanStep r (unstr dir :: S) dotdot = S).
    { unfold cleanStep, eqbL.
      rewrite bool_decide_eq_false_2 by discriminate.
      rewrite bool_decide_eq_true_2 by reflexivity.
      by rewrite bool_decide_eq_false_2. }
    rewrite Hpop, (cleanStep_plain os) by exact Hn. reflexivity. }
  split; [by apply Hone|]. split; [exact Hdest|].
  rewrite Hdest. by apply Hone.
Qed.

(** X12. A download of a single object whose key ends with a name
    after a slash, or is a name, lands directly under the base path under
    that name: such a key is never taken for a prefix, and every segment
    before the name is dropped.  (On [Windows]: for portable paths.) *)
Theorem X12_single_download_last_segment os env path bucket pre name w :
  plain os name = true ->
  pre = EmptyString \/ HasSuffix pre "/" = true ->
  portable os path = true ->
  portable os (pre +:+ name) = true ->
  let key := pre +:+ name in
  listKeys env bucket key w = (inr [key], w) /\
  Base os key = name /\
  localFilePathOf os path key 1 key = Join os [path; name] /\
  unstr (localFilePathOf os path key 1 key)
  = under os (unstr (Clean os path)) (unstr name).
Proof.
  intros Hn Hpre _ _ key.
  destruct (Base_last os pre name Hn Hpre) as (Hbase & Hsuf). fold key in Hbase, Hsuf.
  assert (Hd : localFilePathOf os path key 1 key = Join os [path; name]).
  { unfold localFilePathOf. rewrite Hsuf, Hbase. reflexivity. }
  split; [unfold listKeys; by rewrite Hsuf|]. split; [exact Hbase|].
  split; [exact Hd|]. rewrite Hd.
  apply (below_under os path [name]); [by constructor | discriminate].
Qed.

(** X15. A download changes a local file only if it is the destination
    of a member key whose directory could be made, for which [GetObject]
    returned a response and whose file could be created: a failure of
    [MkdirAll], [GetObject] or [os.Create] never touches the file already
    there.  A failure after that, while the body is copied into the
    created file, does: the file then holds the bytes copied before the
    failure. *)
Theorem X15_download_touches_only_destinations os env path bucket prefix w keys d :
  (listKeys env bucket prefix w).1 = inr keys ->
  ((forall k, In k keys ->
      localFilePathOf os path prefix (length keys) k = d ->
      ~ (mkdirAll env (Dir os d) = None /\
         (exists body, getObject env bucket k = inr body) /\
         osCreate env d = None)) ->
   files (GetObjectsWithCseKms os env path bucket prefix w).2 !! d
   = files w !! d) /\
  (forall k body e n ds w1,
     localFilePathOf os path prefix (length keys) k = d ->
     mkdirAll env (Dir os d) = None ->
     getObject env bucket k = inr body ->
     osCreate env d = None ->
     readFrom env d = Some (e, n) ->
     let r := getItem os env path bucket prefix (length keys) k ds w1 in
     r.1.1 = Some (ErrWrap "error write file: " e) /\
     files r.2 !! d = Some (take n body)).
Proof.
  intros Hl. split.
  - intros Hd. unfold GetObjectsWithCseKms.
    pose proof (listKeys_world env bucket prefix w) as (Hf0 & _ & _).
    destruct (listKeys env bucket prefix w) as [[e|keys'] w0]; simpl in *;
      [discriminate|].
    injection Hl as ->. rewrite <- Hf0.
    set (n := length keys) in *. clearbody n. clear Hf0.
    assert (Hloop : forall ds w1,
              files (getLoop os env path bucket prefix n keys ds w1).2 !! d
              = files w1 !! d).
    { induction keys as [|k keys IH]; intros ds w1; simpl; [reflexivity|].
      pose proof (getItem_untouched os env path bucket prefix n k ds w1 d
                    (Hd k (or_introl eq_refl))) as Hk.
      destruct (getItem _ _ _ _ _ _ k ds w1) as [[[e|] ds1] w2]; simpl in *;
        [exact Hk|].
      rewrite IH; [exact Hk|]. intros k' Hin. apply Hd. by right. }
    specialize (Hloop [] w0).
    destruct (getLoop _ _ _ _ _ _ _ _ _) as [[r ds] w1]. simpl in *.
    by rewrite files_runDefers.
  - intros k body e n ds w1 Hk Hm Hg Hc Hr r. subst r. unfold getItem.
    rewrite Hk, Hm, Hg, Hc, Hr. simpl. split; [reflexivity|].
    apply lookup_insert_eq.
Qed.

End Segments.

Section SegmentRuns.

Import GoStrings Filepath.

Lemma X8_download_keeps_structure_witness :
  unstr (localFilePathOf Windows "out" "reports/" 2 "reports/2024/jan.csv")
  = unstr "out\2024\jan.csv".
Proof.
  apply (X8_download_keeps_structure Windows "out" "reports/" 2
           ["2024"; "jan.csv"] eq_refl eq_refl).
  - repeat constructor.
  - discriminate.
Defined.

Lemma X9_download_creates_parent_witness :
  exists evs,
    trace (getItem Unix (quietEnv [] NFile) "/out" "b" "reports/" 2
             "reports/2024/jan.csv" [] emptyWorld).2
    = EvMkdirAll "/out/2024" :: evs.
Proof.
  apply (X9_download_creates_parent Unix (quietEnv [] NFile) "/out" "b"
           "reports/" 2 ["2024"] "jan.csv" [] emptyWorld eq_refl eq_refl).
  repeat constructor.
Defined.

Lemma X10_upload_download_round_trip_witness :
  objectKeyOf Windows "data" "backup/archive/" "data\sub\y.txt"
  = inr "backup/archive/sub/y.txt" /\
  unstr (localFilePathOf Unix "/restore" "backup/archive/" 2
           "backup/archive/sub/y.txt")
  = unstr "/restore/sub/y.txt".
Proof.
  split.
  - apply (X10_upload_download_round_trip Windows "data"
             ["backup"; "archive"] ["sub"; "y.txt"]);
      (reflexivity || discriminate || (repeat constructor)).
  - apply (X10_upload_download_round_trip Unix "/data"
             ["backup"; "archive"] ["sub"; "y.txt"]);
      (reflexivity || discriminate || (repeat constructor)).
Defined.

Lemma X11_download_escapes_base_witness :
  unstr (localFilePathOf Unix "/srv/out" "p/" 2 "p/../passwd")
  = unstr "/srv/passwd".
Proof.
  apply (X11_download_escapes_base Unix "/srv" "out" "p/" 2 "passwd"
           eq_refl eq_refl (conj eq_refl eq_refl) (conj eq_refl eq_refl)).
Defined.

Lemma X12_single_download_last_segment_witness :
  unstr (localFilePathOf Unix "/out" "a/b/single.bin" 1 "a/b/single.bin")
  = unstr "/out/single.bin".
Proof.
  apply (X12_single_download_last_segment Unix (quietEnv [] NFile)
           "/out" "b" "a/b/" "single.bin" emptyWorld
           eq_refl (or_intror eq_refl) eq_refl eq_refl).
Defined.

Lemma X15_download_touches_only_destinations_witness :
  files (GetObjectsWithCseKms Unix deniedEnv "/out" "b" "p/" emptyWorld).2
    !! "/out/b" = None.
Proof.
  rewrite (proj1 (X15_download_touches_only_destinations Unix deniedEnv
                    "/out" "b" "p/" emptyWorld ["p/a"; "p/b"; "p/c"] "/out/b"
                    eq_refl)).
  - reflexivity.
  - intros k [<-|[<-|[<-|[]]]] Hd; try discriminate Hd.
    intros (_ & (body & Hb) & _). discriminate Hb.
Defined.

End SegmentRuns.
